(** * exa-chat-notifier: delivery pipeline

    A shallow embedding of the notifier's delivery pipeline
    (truncation helper, idempotency cache, webhook configuration and
    resolution, retrying HTTP client, batch manager, the dispatcher
    that wires them together, and the tombamento schema with its
    convenience methods), followed by the properties established about
    it.

    Conventions.
    - JavaScript numbers that hold counts, thresholds and millisecond
      clock readings are integers and modelled in [Z].
    - Every call of [Date.now()] is an explicit argument of the function
      that performs it.
    - A function that may throw returns [Error + A] ([inl] is the thrown
      error).
    - An [async] function is cut at its [await]s: each synchronous
      section is a function on the state, and whatever is awaited (the
      network, the [onFlush] callback) is supplied by the environment. *)

From stdpp Require Import gmap strings list fin_maps pretty.
From Stdlib Require Import ZArith Lia.

Local Open Scope Z_scope.

(** ** JavaScript errors and truthiness *)

Record Error := mkError { message : string }.

(** The truthiness test on a value of type [string | undefined]:
    [undefined] and the empty string are falsy; a truthy value is handed
    on. *)
Definition truthy (s : option string) : option string :=
  match s with
  | Some v => if bool_decide (v = "") then None else Some v
  | None => None
  end.

(** ** src/utils/truncate.ts *)

Module Truncate.

(** A JavaScript string is a sequence of UTF-16 code units and [length]
    counts code units. *)
Definition char16 := N.
Definition jsstring := list char16.

Definition of_ascii_string (s : string) : jsstring :=
  map Ascii.N_of_ascii (String.list_ascii_of_string s).

(** U+2026 HORIZONTAL ELLIPSIS, one code unit. *)
Definition ellipsis : char16 := 8230%N.

(** [String.prototype.substring(start, end)]: both indices are clamped
    to [0, length] and swapped when [start > end]. *)
Definition clamp (len x : Z) : Z := Z.max 0 (Z.min x len).

Definition substring (s : jsstring) (start end_ : Z) : jsstring :=
  let len := Z.of_nat (length s) in
  let a := clamp len start in
  let b := clamp len end_ in
  let lo := Z.min a b in
  let hi := Z.max a b in
  take (Z.to_nat (hi - lo)) (drop (Z.to_nat lo) s).

Definition truncateMessage (text : jsstring) (maxLength : Z) : jsstring :=
  if Z.of_nat (length text) <=? maxLength then text
  else if maxLength <=? 1 then [ellipsis]
  else substring text 0 (maxLength - 1) ++ [ellipsis].

End Truncate.

(** ** src/idempotency-cache.ts *)

Module IdempotencyCache.

(** [cache] maps a key to its [expiresAt]; [cleanupTimer] records
    whether the five-minute interval is armed. *)
Record t := mk {
  cache : gmap string Z;
  ttlMs : Z;
  cleanupTimer : bool
}.

Definition with_cache (c : t) (m : gmap string Z) : t :=
  {| cache := m; ttlMs := ttlMs c; cleanupTimer := cleanupTimer c |}.

(** [options.ttlMs ?? 24 * 60 * 60 * 1000], then [startCleanup()]. *)
Definition new (ttl : option Z) : t :=
  {| cache := ∅;
     ttlMs := default (24 * 60 * 60 * 1000) ttl;
     cleanupTimer := true |}.

Definition has (c : t) (key : string) (now : Z) : bool * t :=
  match cache c !! key with
  | None => (false, c)
  | Some expiresAt =>
      if now >? expiresAt
      then (false, with_cache c (delete key (cache c)))
      else (true, c)
  end.

Definition set (c : t) (key : string) (now : Z) : t :=
  with_cache c (<[key := now + ttlMs c]> (cache c)).

(** The body of the interval callback. *)
Definition cleanup (c : t) (now : Z) : t :=
  with_cache c (filter (λ kv, ¬ (now > kv.2)) (cache c)).

Definition destroy (c : t) : t :=
  {| cache := ∅; ttlMs := ttlMs c; cleanupTimer := false |}.

Definition size (c : t) : nat := base.size (cache c).

End IdempotencyCache.

(** ** JavaScript string methods

    Taken on the sequence of code units; what they answer does not
    depend on the width of a unit. *)

Module JsString.

(** [s.startsWith(p)] *)
Fixpoint startsWith (p s : string) : bool :=
  match p, s with
  | EmptyString, _ => true
  | String _ _, EmptyString => false
  | String a p', String b s' => bool_decide (a = b) && startsWith p' s'
  end.

(** [s.includes(p)] *)
Fixpoint includes (p s : string) : bool :=
  startsWith p s
  || match s with
     | EmptyString => false
     | String _ s' => includes p s'
     end.

(** [s.endsWith(p)] *)
Fixpoint endsWith (p s : string) : bool :=
  bool_decide (s = p)
  || match s with
     | EmptyString => false
     | String _ s' => endsWith p s'
     end.

(** [s.substring(n)] for [0 <= n]. *)
Fixpoint drop (n : nat) (s : string) : string :=
  match n, s with
  | O, _ => s
  | S _, EmptyString => EmptyString
  | S n', String _ s' => drop n' s'
  end.

(** [s.replace(pat, rep)] for a string [pat] and a replacement without
    [$]: the first occurrence is replaced. *)
Fixpoint replace (pat rep s : string) : string :=
  if startsWith pat s then rep +:+ drop (String.length pat) s
  else match s with
       | EmptyString => EmptyString
       | String a s' => String a (replace pat rep s')
       end.

End JsString.

(** [process.env]: the variables in the order of [Object.keys], and the
    property read [process.env[key]]. *)
Definition Env := list (string * string).

Fixpoint getenv (env : Env) (key : string) : option string :=
  match env with
  | [] => None
  | (k, v) :: env' => if bool_decide (k = key) then Some v else getenv env' key
  end.

(** ** src/config.ts *)

Module ConfigManager.

Record t := mk {
  webhooks : gmap string string;
  defaultWebhook : option string
}.

Section GetWebhook.
(** [String.prototype.toLowerCase]. *)
Variable toLowerCase : string → string.

Definition getWebhook (c : t) (name : option string) : Error + string :=
  match truthy name with
  | None =>
      match truthy (defaultWebhook c) with
      | None => inl (mkError "No default webhook configured")
      | Some d => inr d
      end
  | Some n =>
      match truthy (webhooks c !! toLowerCase n) with
      | None =>
          (* Fallback to default *)
          match truthy (defaultWebhook c) with
          | Some d => inr d
          | None =>
              inl (mkError ("Webhook '" +:+ n
                            +:+ "' not found and no default webhook configured"))
          end
      | Some webhook => inr webhook
      end
  end.

End GetWebhook.

Definition buildWebhookUrl (baseUrl token : string) : string :=
  let separator := if JsString.includes "?" baseUrl then "&" else "?" in
  baseUrl +:+ separator +:+ "token=" +:+ token.

Definition validateWebhookUrl (url : string) : Error + string :=
  if bool_decide (url = "")
  then inl (mkError "Webhook URL cannot be empty")
  else if negb (JsString.startsWith "https://" url)
  then inl (mkError ("Webhook URL must use HTTPS protocol: "
                     +:+ String.substring 0 50 url +:+ "..."))
  else if negb (JsString.includes "chat.googleapis.com" url)
  then inl (mkError ("Invalid Google Chat webhook URL: "
                     +:+ String.substring 0 50 url +:+ "..."))
  else inr url.

(** The choice [loadFromEnv] makes for the default URL and again for
    every named one: a URL that contains [token=] is taken as it is,
    otherwise the separate token is appended when there is one. *)
Definition withToken (url : string) (token : option string)
    : Error + string :=
  if JsString.includes "token=" url then validateWebhookUrl url
  else
    match truthy token with
    | Some tk => validateWebhookUrl (buildWebhookUrl url tk)
    | None => validateWebhookUrl url
    end.

(** The test on a key of [process.env] in [loadFromEnv]. *)
Definition isNamedKey (key : string) : bool :=
  JsString.startsWith "CHAT_WEBHOOK_" key
  && negb (bool_decide (key = "CHAT_WEBHOOK_URL"))
  && negb (bool_decide (key = "CHAT_WEBHOOK_TOKEN"))
  && negb (JsString.endsWith "_TOKEN" key).

(** What the constructor is given: a URL or a record of named URLs, in
    the order of [Object.entries]. *)
Inductive WebhookConfig :=
| Url (url : string)
| Named (entries : list (string * string)).

Section Construction.
Variable toLowerCase : string → string.

(** [Object.keys(process.env).forEach(...)] on the keys still to be
    visited; a [throw] in the callback ends the loop. *)
Fixpoint loadNamed (env : Env) (keys : list string)
    (ws : gmap string string) : Error + gmap string string :=
  match keys with
  | [] => inr ws
  | key :: keys' =>
      if isNamedKey key then
        let name := toLowerCase (JsString.replace "CHAT_WEBHOOK_" "" key) in
        match truthy (getenv env key) with
        | Some url =>
            match withToken url (getenv env (key +:+ "_TOKEN")) with
            | inl e => inl e
            | inr u => loadNamed env keys' (<[name := u]> ws)
            end
        | None => loadNamed env keys' ws
        end
      else loadNamed env keys' ws
  end.

Definition loadFromEnv (env : Env) (c : t) : Error + t :=
  let loaded :=
    match truthy (getenv env "CHAT_WEBHOOK_URL") with
    | Some defaultUrl =>
        match withToken defaultUrl (getenv env "CHAT_WEBHOOK_TOKEN") with
        | inl e => inl e
        | inr u => inr (mk (webhooks c) (Some u))
        end
    | None => inr c
    end in
  match loaded with
  | inl e => inl e
  | inr c1 =>
      match loadNamed env env.*1 (webhooks c1) with
      | inl e => inl e
      | inr ws => inr (mk ws (defaultWebhook c1))
      end
  end.

(** [Object.entries(webhookConfig).forEach(...)] *)
Fixpoint setAll (entries : list (string * string))
    (ws : gmap string string) : Error + gmap string string :=
  match entries with
  | [] => inr ws
  | (name, url) :: entries' =>
      match validateWebhookUrl url with
      | inl e => inl e
      | inr u => setAll entries' (<[name := u]> ws)
      end
  end.

(** The constructor. *)
Definition new (env : Env) (webhookConfig : option WebhookConfig)
    : Error + t :=
  match loadFromEnv env (mk ∅ None) with
  | inl e => inl e
  | inr c =>
      let overridden :=
        match webhookConfig with
        | Some (Url url) =>
            match validateWebhookUrl url with
            | inl e => inl e
            | inr u => inr (mk (webhooks c) (Some u))
            end
        | Some (Named entries) =>
            match setAll entries (webhooks c) with
            | inl e => inl e
            | inr ws => inr (mk ws (defaultWebhook c))
            end
        | None => inr c
        end in
      match overridden with
      | inl e => inl e
      | inr c' =>
          if bool_decide (truthy (defaultWebhook c') = None)
             && bool_decide (size (webhooks c') = 0%nat)
          then inl (mkError "No webhook configured. Provide CHAT_WEBHOOK_URL env var or webhooks option.")
          else inr c'
      end
  end.

Definition hasWebhook (c : t) (name : string) : bool :=
  bool_decide (is_Some (webhooks c !! toLowerCase name)).

End Construction.

End ConfigManager.

(** ** src/http-client.ts

    The console output under [DEBUG_CHAT_NOTIFIER] is left out. The
    class reads [maxRetries] and [initialDelayMs] from its options and
    nothing else. *)

Module HttpClient.

(** What node-fetch hands back for one request once its body has been
    read; [ok] is node-fetch's [status >= 200 && status < 300]. *)
Record Response := mkResponse {
  resp_status : Z;
  resp_statusText : string;
  resp_text : string
}.

Definition resp_ok (r : Response) : bool :=
  (200 <=? resp_status r) && (resp_status r <? 300).

(** One pass through the [try] block up to the [response.ok] test:
    either something was thrown ([fetch] or [response.text()] rejected,
    [JSON.stringify] threw; the error is already normalised by
    [error instanceof Error ? error : new Error(String(error))]), or a
    response arrived. *)
Inductive Attempt :=
| Thrown (e : Error)
| Responded (r : Response).

Record HttpResponse := mkHttpResponse {
  ok : bool;
  status : Z;
  statusText : string;
  body : string
}.

Record t := mk {
  maxRetries : Z;
  initialDelayMs : Z
}.

(** [options.maxRetries ?? 3], [options.initialDelayMs ?? 300]. *)
Definition new (maxRetries_ initialDelayMs_ : option Z) : t :=
  {| maxRetries := default 3 maxRetries_;
     initialDelayMs := default 300 initialDelayMs_ |}.

Section Post.
Context {Payload : Type}.

(** What [post] does to the outside world, in order. *)
Inductive Event :=
| Fetch (attempt : Z) (url : string) (payload : Payload)
| Sleep (ms : Z).

(** The [for] loop of [post]. [net attempt] is what the network does to
    the request of that attempt. [remaining] counts the iterations the
    loop still has to run, [maxRetries - attempt + 1] (never below
    zero), so that [remaining = 0] is the failure of the guard
    [attempt <= this.maxRetries]. *)
Fixpoint attempts (c : t) (url : string) (payload : Payload)
    (net : Z → Attempt) (remaining : nat) (attempt : Z)
    (lastError : option Error)
    : (Error + HttpResponse) * list Event :=
  match remaining with
  | O => (inl (default (mkError "Max retries reached") lastError), [])
  | S remaining' =>
      let caught (e : Error) :=
        let backoff :=
          if attempt <? maxRetries c
          then [Sleep (initialDelayMs c * 2 ^ (attempt - 1))]
          else [] in
        let '(r, evs) :=
          attempts c url payload net remaining' (attempt + 1) (Some e) in
        (r, Fetch attempt url payload :: backoff ++ evs) in
      match net attempt with
      | Thrown e => caught e
      | Responded r =>
          if resp_ok r
          then (inr {| ok := resp_ok r; status := resp_status r;
                       statusText := resp_statusText r;
                       body := resp_text r |},
                [Fetch attempt url payload])
          else caught (mkError ("HTTP " +:+ pretty (resp_status r)
                                +:+ ": " +:+ resp_statusText r))
      end
  end.

Definition post (c : t) (url : string) (payload : Payload)
    (net : Z → Attempt) : (Error + HttpResponse) * list Event :=
  attempts c url payload net (Z.to_nat (maxRetries c)) 1 None.

End Post.

Arguments Event : clear implicits.

End HttpClient.

(** ** src/batch-manager.ts *)

Module BatchManager.

(** The options after the constructor has filled in
    [flushOnDestroy ?? true]; [onFlush] is supplied by the environment
    (see [Runtime] below). *)
Module Options.
Record t := mk {
  size : Z;
  intervalMs : Z;
  flushOnDestroy : bool
}.
End Options.

Section WithPayload.
Context {TPayload : Type}.

Record BatchItem := mkItem {
  payload : TPayload;
  webhookName : option string
}.

(** [timer] is [true] while the interval is armed. *)
Record t := mk {
  queue : list BatchItem;
  timer : bool;
  options : Options.t;
  flushing : bool
}.

Definition new (size_ intervalMs_ : Z) (flushOnDestroy_ : option bool) : t :=
  {| queue := [];
     timer := true;
     options := {| Options.size := size_;
                   Options.intervalMs := intervalMs_;
                   Options.flushOnDestroy := default true flushOnDestroy_ |};
     flushing := false |}.

Definition with_queue (m : t) (q : list BatchItem) : t :=
  {| queue := q; timer := timer m; options := options m;
     flushing := flushing m |}.

Definition with_flushing (m : t) (b : bool) : t :=
  {| queue := queue m; timer := timer m; options := options m;
     flushing := b |}.

Definition with_timer (m : t) (b : bool) : t :=
  {| queue := queue m; timer := b; options := options m;
     flushing := flushing m |}.

(** [add]: the new state, and whether
    [setImmediate(() => void this.flush())] was called. *)
Definition add (m : t) (payload_ : TPayload) (webhookName_ : option string)
    : t * bool :=
  let m' := with_queue m (queue m ++ [mkItem payload_ webhookName_]) in
  (m', Z.of_nat (length (queue m')) >=? Options.size (options m')).

(** [flush], up to its [await]. [Some batch]: [onFlush batch] has been
    called and [flush] is suspended on the promise it returned.
    [None]: [flush] returned without calling [onFlush]. *)
Definition flush (m : t) : t * option (list BatchItem) :=
  if flushing m || bool_decide (length (queue m) = 0%nat)
  then (m, None)
  else
    let m1 := with_flushing m true in
    (* const batch = this.queue.splice(0, this.queue.length) *)
    let batch := queue m1 in
    (with_queue m1 [], Some batch).

(** The [finally] block of [flush], run when [onFlush] has thrown or
    its promise has settled, whichever way. *)
Definition flush_finally (m : t) : t := with_flushing m false.

Definition size (m : t) : nat := length (queue m).

Definition isFlushing (m : t) : bool := flushing m.

(** The callback given to [setInterval] by [startTimer]. *)
Definition intervalCallback (m : t) : t * option (list BatchItem) :=
  if 0 <? Z.of_nat (length (queue m)) then flush m else (m, None).

(** [destroy], up to the [await] of [flush] when it is called. *)
Definition destroy (m : t) : t * option (list BatchItem) :=
  let m1 := if timer m then with_timer m false else m in
  if Options.flushOnDestroy (options m1)
     && (0 <? Z.of_nat (length (queue m1)))
  then flush m1
  else (with_queue m1 [], None).

End WithPayload.

Arguments BatchItem : clear implicits.
Arguments t : clear implicits.

End BatchManager.

(** ** The batch manager on the event loop

    JavaScript runs each synchronous section to completion, so a
    history of a [BatchManager] is a sequence of sections: the calls of
    its methods, the callbacks the runtime fires, and the settling of
    the promise returned by [onFlush]. *)

(** How a promise settles. *)
Inductive Settled :=
| Resolved
| Rejected (e : Error).

Module Runtime.
Import BatchManager.

Section WithPayload.
Context {TPayload : Type}.

Abbreviation Item := (BatchItem TPayload).

(** Where the items that left the queue went. *)
Inductive Taken :=
| Flushed (batch : list Item)     (* handed to [onFlush] *)
| Discarded (items : list Item).  (* dropped by [this.queue = []] *)

Definition items_of (k : Taken) : list Item :=
  match k with Flushed b => b | Discarded b => b end.

Definition batch_of (k : Taken) : option (list Item) :=
  match k with Flushed b => Some b | Discarded _ => None end.

Record World := mkWorld {
  mgr : BatchManager.t TPayload;
  immediates : nat;         (* [setImmediate] callbacks not yet run *)
  running : nat;            (* [onFlush] calls not yet settled *)
  taken : list Taken;       (* in the order it happened *)
  settled : list Settled    (* how the awaiting [flush] calls ended *)
}.

(** The batches [onFlush] was called with, in order. *)
Definition onFlushCalls (w : World) : list (list Item) :=
  omap batch_of (taken w).

Definition boot (m : BatchManager.t TPayload) : World :=
  {| mgr := m; immediates := 0; running := 0; taken := []; settled := [] |}.

(** The state after a section that may have called [onFlush]. *)
Definition called (w : World) (r : BatchManager.t TPayload * option (list Item))
    : World :=
  match r.2 with
  | None =>
      {| mgr := r.1; immediates := immediates w; running := running w;
         taken := taken w; settled := settled w |}
  | Some batch =>
      {| mgr := r.1; immediates := immediates w; running := S (running w);
         taken := taken w ++ [Flushed batch]; settled := settled w |}
  end.

Inductive Action :=
| Add (payload_ : TPayload) (webhookName_ : option string)
| Flush
| Destroy
| Interval                       (* the [setInterval] callback fires *)
| Immediate                      (* a [setImmediate] callback runs *)
| OnFlushSettles (r : Settled).  (* the promise of [onFlush] settles *)

(** One section; [None] when the runtime cannot run it (a cleared
    interval does not fire, there is no pending [setImmediate], no
    [onFlush] is outstanding). *)
Definition step (w : World) (a : Action) : option World :=
  match a with
  | Add p n =>
      let r := add (mgr w) p n in
      Some {| mgr := r.1;
              immediates := if r.2 then S (immediates w) else immediates w;
              running := running w; taken := taken w;
              settled := settled w |}
  | Flush => Some (called w (flush (mgr w)))
  | Destroy =>
      let r := destroy (mgr w) in
      let w' := called w r in
      if bool_decide (length (queue r.1) < length (queue (mgr w)))%nat
         && bool_decide (r.2 = None)
      then Some {| mgr := mgr w'; immediates := immediates w';
                   running := running w';
                   taken := taken w' ++ [Discarded (queue (mgr w))];
                   settled := settled w' |}
      else Some w'
  | Interval =>
      if timer (mgr w) then Some (called w (intervalCallback (mgr w)))
      else None
  | Immediate =>
      match immediates w with
      | O => None
      | S k =>
          Some (called {| mgr := mgr w; immediates := k;
                          running := running w; taken := taken w;
                          settled := settled w |}
                       (flush (mgr w)))
      end
  | OnFlushSettles r =>
      match running w with
      | O => None
      | S k =>
          Some {| mgr := flush_finally (mgr w); immediates := immediates w;
                  running := k; taken := taken w;
                  settled := settled w ++ [r] |}
      end
  end.

Fixpoint run (w : World) (acts : list Action) : option World :=
  match acts with
  | [] => Some w
  | a :: acts' =>
      match step w a with
      | Some w' => run w' acts'
      | None => None
      end
  end.

(** The items submitted by a history, in submission order. *)
Definition added (acts : list Action) : list Item :=
  omap (λ a, match a with
             | Add p n => Some (mkItem p n)
             | _ => None
             end) acts.

End WithPayload.

Arguments World : clear implicits.
Arguments Action : clear implicits.
Arguments Taken : clear implicits.

End Runtime.

(** ** src/schemas/base-schema.ts, src/card-builder.ts *)

Module Schema.
Section WithPayload.
Context {TPayload CardPayload : Type}.

(** The optional methods are [None] when the schema does not define
    them. [buildCard] is caller code and may throw. *)
Record EventSchema := mk {
  name : string;
  buildCard : TPayload → Z → Error + CardPayload;
  isImportantEvent : option (string → bool);
  getIdempotencyKey : option (TPayload → option string);
  getWebhookName : option (TPayload → option string)
}.

End WithPayload.
Arguments EventSchema : clear implicits.
End Schema.

Module CardBuilder.
Section WithPayload.
Context {TPayload CardPayload : Type}.

Record t := mk {
  schema : Schema.EventSchema TPayload CardPayload;
  maxMessage : option Z
}.

Definition buildCard (b : t) (payload : TPayload) : Error + CardPayload :=
  let maxMessage_ := default 4000 (maxMessage b) in
  Schema.buildCard (schema b) payload maxMessage_.

End WithPayload.
Arguments t : clear implicits.
End CardBuilder.

(** ** src/notifier.ts

    A notifier is taken as the constructor leaves it: the components
    are in place, [cache] and [batchManager] are [None] when
    idempotency or batching is switched off. *)

Module NotifierImpl.
Section WithPayload.
Context {TPayload CardPayload : Type}.

(** [String.prototype.toLowerCase], and the property read [p[name]] on
    a payload seen as [Record<string, unknown>] ([None] when the
    property is [null] or [undefined]). *)
Variable toLowerCase : string → string.
Variable prop : TPayload → string → option string.

Inductive Level := all | important.

Record t := mk {
  config : ConfigManager.t;
  cardBuilder : CardBuilder.t TPayload CardPayload;
  cache : option IdempotencyCache.t;
  httpClient : HttpClient.t;
  batchManager : option (BatchManager.t TPayload);
  schema : Schema.EventSchema TPayload CardPayload;
  level : Level
}.

Definition with_cache (n : t) (c : option IdempotencyCache.t) : t :=
  {| config := config n; cardBuilder := cardBuilder n; cache := c;
     httpClient := httpClient n; batchManager := batchManager n;
     schema := schema n; level := level n |}.

Definition with_batchManager (n : t) (b : option (BatchManager.t TPayload))
    : t :=
  {| config := config n; cardBuilder := cardBuilder n; cache := cache n;
     httpClient := httpClient n; batchManager := b;
     schema := schema n; level := level n |}.

(** Everything a notifier can do to the outside world. The last two
    are calls of the [onSuccess] and [onError] callbacks of
    [NotifierOptions]; [NotifierImpl] keeps no reference to either. *)
Inductive Effect :=
| Http (e : HttpClient.Event CardPayload)
| ConsoleError (e : Error)
| SetImmediate
| OnSuccess (payload : TPayload)
| OnError (payload : TPayload) (e : Error).

(** What the environment contributes to one delivery: the fate of each
    attempt, and the reading of [Date.now()] when the key is written
    to the cache. *)
Record Delivery := mkDelivery {
  net : Z → HttpClient.Attempt;
  markedAt : Z
}.

(** [(p.event ?? p.type ?? p.status)] *)
Definition extractEvent (payload : TPayload) : option string :=
  match prop payload "event" with
  | Some e => Some e
  | None =>
      match prop payload "type" with
      | Some e => Some e
      | None => prop payload "status"
      end
  end.

(** The block
    [if (this.cache && this.schema.getIdempotencyKey) {
       const key = ...; if (key) this.cache.set(key) }]
    shared by [notify] (batch mode) and [sendSingle]. *)
Definition markKey (n : t) (payload : TPayload) (now : Z) : t :=
  match cache n, Schema.getIdempotencyKey (schema n) with
  | Some c, Some getKey =>
      match truthy (getKey payload) with
      | Some key => with_cache n (Some (IdempotencyCache.set c key now))
      | None => n
      end
  | _, _ => n
  end.

(** [webhookName ?? this.schema.getWebhookName?.(payload)] *)
Definition resolvedWebhookName (n : t) (payload : TPayload)
    (webhookName : option string) : option string :=
  match webhookName with
  | Some w => Some w
  | None =>
      match Schema.getWebhookName (schema n) with
      | Some f => f payload
      | None => None
      end
  end.

(** [sendSingle], up to the call of [httpClient.post]: the card and the
    resolved URL. *)
Definition prepare (n : t) (payload : TPayload) (webhookName : option string)
    : Error + (string * CardPayload) :=
  match CardBuilder.buildCard (cardBuilder n) payload with
  | inl e => inl e
  | inr card =>
      match ConfigManager.getWebhook toLowerCase (config n)
              (resolvedWebhookName n payload webhookName) with
      | inl e => inl e
      | inr webhookUrl => inr (webhookUrl, card)
      end
  end.

Definition sendSingle (n : t) (payload : TPayload)
    (webhookName : option string) (d : Delivery)
    : (Error + ()) * t * list Effect :=
  match prepare n payload webhookName with
  | inl e => (inl e, n, [])
  | inr (webhookUrl, card) =>
      let '(r, evs) :=
        HttpClient.post (httpClient n) webhookUrl card (net d) in
      match r with
      | inl e => (inl e, n, Http <$> evs)
      | inr _ => (inr (), markKey n payload (markedAt d), Http <$> evs)
      end
  end.

(** How a call of [notify] ended. *)
Inductive Outcome :=
| NotImportant         (* dropped by the level filter *)
| AlreadySent          (* dropped by the idempotency check *)
| Queued               (* added to the batch queue *)
| Sent                 (* delivered by [sendSingle] *)
| Failed (e : Error).  (* [sendSingle] threw *)

(** The first block of [notify], "Check importance level filtering":
    [true] when the call returns there. *)
Definition notImportant (n : t) (payload : TPayload) : bool :=
  match level n, Schema.isImportantEvent (schema n) with
  | important, Some isImportant =>
      match truthy (extractEvent payload) with
      | Some event => negb (isImportant event)
      | None => false
      end
  | _, _ => false
  end.

(** The second block, "Check idempotency": [true] when the call
    returns there; [cache.has] may have removed an expired entry. *)
Definition alreadySent (n : t) (payload : TPayload) (now : Z) : bool * t :=
  match cache n, Schema.getIdempotencyKey (schema n) with
  | Some c, Some getKey =>
      match truthy (getKey payload) with
      | Some key =>
          let '(b, c') := IdempotencyCache.has c key now in
          (b, with_cache n (Some c'))
      | None => (false, n)
      end
  | _, _ => (false, n)
  end.

(** [notify]. [now] is the reading of [Date.now()] in [cache.has]; in
    batch mode [markedAt d] is the reading in [cache.set], and the
    network of [d] is not used. *)
Definition notify (n : t) (payload : TPayload) (webhookName : option string)
    (now : Z) (d : Delivery) : Outcome * t * list Effect :=
  if notImportant n payload then (NotImportant, n, [])
  else
    let '(seen, n1) := alreadySent n payload now in
    if seen then (AlreadySent, n1, [])
    else
      match batchManager n1 with
      | Some bm =>
          let '(bm', scheduled) := BatchManager.add bm payload webhookName in
          let n2 := with_batchManager n1 (Some bm') in
          (Queued, markKey n2 payload (markedAt d),
           if scheduled then [SetImmediate] else [])
      | None =>
          let '(r, n2, evs) := sendSingle n1 payload webhookName d in
          match r with
          | inl e => (Failed e, n2, evs)
          | inr _ => (Sent, n2, evs)
          end
      end.

(** One element of [batch.map(async (item) => { try ... catch ... })]:
    the promise of the arrow function, the state and the effects. *)
Definition sendItem (n : t) (item : BatchManager.BatchItem TPayload)
    (d : Delivery) : Settled * t * list Effect :=
  let '(r, n', evs) :=
    sendSingle n (BatchManager.payload item)
               (BatchManager.webhookName item) d in
  match r with
  | inr _ => (Resolved, n', evs)
  | inl e => (Resolved, n', evs ++ [ConsoleError e])
  end.

(** [Promise.all]: rejected with the first rejection, resolved when
    every promise has resolved. *)
Fixpoint promiseAll (ps : list Settled) : Settled :=
  match ps with
  | [] => Resolved
  | Resolved :: ps' => promiseAll ps'
  | Rejected e :: _ => Rejected e
  end.

(** [sendBatch]. The items run concurrently; [order] lists their
    indices in the order in which their deliveries finish. Until its
    delivery is over an item reads only the configuration, the schema
    and the HTTP client, which nothing writes, so each item is run as
    one section when it finishes. *)
Fixpoint sendItems (n : t) (batch : list (BatchManager.BatchItem TPayload))
    (ds : list Delivery) (order : list nat)
    : list Settled * t * list Effect :=
  match order with
  | [] => ([], n, [])
  | i :: order' =>
      match batch !! i, ds !! i with
      | Some item, Some d =>
          let '(p, n1, evs1) := sendItem n item d in
          let '(ps, n2, evs2) := sendItems n1 batch ds order' in
          (p :: ps, n2, evs1 ++ evs2)
      | _, _ => sendItems n batch ds order'
      end
  end.

Definition sendBatch (n : t) (batch : list (BatchManager.BatchItem TPayload))
    (ds : list Delivery) (order : list nat)
    : Settled * t * list Effect :=
  let '(ps, n', evs) := sendItems n batch ds order in
  (promiseAll ps, n', evs).

(** [flush], when no other section runs before the batch has been
    delivered: the synchronous part of [BatchManager.flush], the
    [onFlush] callback [async (batch) => { await this.sendBatch(batch) }]
    and the [finally] block. *)
Definition flush (n : t) (ds : list Delivery) (order : list nat)
    : Settled * t * list Effect :=
  match batchManager n with
  | None => (Resolved, n, [])
  | Some bm =>
      match BatchManager.flush bm with
      | (bm', None) => (Resolved, with_batchManager n (Some bm'), [])
      | (bm', Some batch) =>
          let '(r, n1, evs) :=
            sendBatch (with_batchManager n (Some bm')) batch ds order in
          (r,
           with_batchManager n1
             (BatchManager.flush_finally <$> batchManager n1),
           evs)
      end
  end.

(** [destroy], under the same condition as [flush]:
    [await this.batchManager.destroy()], which stops the interval and
    flushes or clears the queue, and then [this.cache.destroy()], which
    is not reached when the awaited promise rejects. *)
Definition destroy (n : t) (ds : list Delivery) (order : list nat)
    : Settled * t * list Effect :=
  let '(r, n1, evs) :=
    match batchManager n with
    | None => (Resolved, n, [])
    | Some bm =>
        match BatchManager.destroy bm with
        | (bm', None) => (Resolved, with_batchManager n (Some bm'), [])
        | (bm', Some batch) =>
            let '(r, n1, evs) :=
              sendBatch (with_batchManager n (Some bm')) batch ds order in
            (r,
             with_batchManager n1
               (BatchManager.flush_finally <$> batchManager n1),
             evs)
        end
    end in
  match r with
  | Rejected e => (Rejected e, n1, evs)
  | Resolved =>
      (Resolved, with_cache n1 (IdempotencyCache.destroy <$> cache n1), evs)
  end.

End WithPayload.

Arguments t : clear implicits.
Arguments Effect : clear implicits.

End NotifierImpl.

(** ** src/schemas/tombamento-schema.ts

    The strings of a payload are sequences of code units, as the
    truncation needs them; counts are integers, written in decimal by
    [toString]. [buildCard] takes the readings of [Date.now()] and
    [new Date().toISOString()] as arguments. *)

Module TombamentoSchema.
Import Truncate.

Inductive TombamentoEvent :=
| UPLOADED
| PROCESSING
| INVALID_SCHEMA
| PROCESSED
| FAILED
| REPORT_GENERATED.

(** The string a [TombamentoEvent] is at run time. *)
Definition eventName (e : TombamentoEvent) : string :=
  match e with
  | UPLOADED => "UPLOADED"
  | PROCESSING => "PROCESSING"
  | INVALID_SCHEMA => "INVALID_SCHEMA"
  | PROCESSED => "PROCESSED"
  | FAILED => "FAILED"
  | REPORT_GENERATED => "REPORT_GENERATED"
  end.

Record Counts := mkCounts {
  received : option Z;
  valid : option Z;
  invalid : option Z;
  processed : option Z
}.

Record TombamentoPayload := mkPayload {
  event : TombamentoEvent;
  partner : jsstring;
  bucket : jsstring;
  object : jsstring;
  stage : option TombamentoEvent;
  counts : option Counts;
  message : option jsstring;
  trace_id : option jsstring;
  ts : option jsstring
}.

(** [CardPayload] of src/types.ts; the only widget built is
    [{ textParagraph: { text } }]. *)
Inductive Widget :=
| TextParagraph (text : jsstring).

Record Header := mkHeader {
  title : jsstring;
  subtitle : option jsstring
}.

Record CardSection := mkSection { widgets : list Widget }.

Record Card := mkCard {
  header : option Header;
  sections : list CardSection
}.

Record CardV2 := mkCardV2 {
  cardId : jsstring;
  card : Card
}.

Record CardPayload := mkCardPayload { cardsV2 : list CardV2 }.

(** A string literal of the source, and [String(n)] for an integer. *)
Definition js (s : string) : jsstring := of_ascii_string s.
Definition numberToString (n : Z) : jsstring := js (pretty n).

(** The truthiness test on a value of type [string | undefined]. *)
Definition truthyJs (s : option jsstring) : option jsstring :=
  match s with
  | Some (c :: v) => Some (c :: v)
  | _ => None
  end.

(** [Array.prototype.join] *)
Fixpoint join (sep : jsstring) (parts : list jsstring) : jsstring :=
  match parts with
  | [] => []
  | x :: rest =>
      match rest with
      | [] => x
      | _ :: _ => x ++ sep ++ join sep rest
      end
  end.

(** [EVENT_CONFIG[event].emoji]: U+1F4E5, U+2699 U+FE0F, U+274C,
    U+2705, U+1F525 and U+1F4C4 in UTF-16. *)
Definition emoji (e : TombamentoEvent) : jsstring :=
  match e with
  | UPLOADED => [55357; 56549]
  | PROCESSING => [9881; 65039]
  | INVALID_SCHEMA => [10060]
  | PROCESSED => [9989]
  | FAILED => [55357; 56613]
  | REPORT_GENERATED => [55357; 56516]
  end%N.

Definition buildTextField (label : string) (value : jsstring) : Widget :=
  TextParagraph (js "<b>" ++ js label ++ js ":</b> " ++ value).

(** The separator is a middle dot, U+00B7, between two spaces. *)
Definition buildCountsField (c : Counts) : Widget :=
  let part (label : string) (n : option Z) : list jsstring :=
    match n with
    | Some n => [js label ++ js ": " ++ numberToString n]
    | None => []
    end in
  let parts :=
    part "received" (received c) ++ part "valid" (valid c)
    ++ part "invalid" (invalid c) ++ part "processed" (processed c) in
  TextParagraph (js "<b>Totais:</b> " ++ join [32; 183; 32]%N parts).

Definition buildCard (payload : TombamentoPayload) (maxMessage : Z)
    (now : Z) (nowIso : jsstring) : CardPayload :=
  let message_ :=
    match truthyJs (message payload) with
    | Some m => Some (truncateMessage m maxMessage)
    | None => None
    end in
  let widgets0 :=
    [buildTextField "Parceiro" (partner payload);
     buildTextField "Arquivo" (object payload);
     buildTextField "Etapa"
       (js (eventName (default (event payload) (stage payload))));
     buildTextField "Data/Hora" (default nowIso (truthyJs (ts payload)))] in
  let widgets1 :=
    match counts payload with
    | Some c => widgets0 ++ [buildCountsField c]
    | None => widgets0
    end in
  let widgets2 :=
    match truthyJs message_ with
    | Some m => widgets1 ++ [buildTextField "Mensagem" m]
    | None => widgets1
    end in
  {| cardsV2 :=
       [{| cardId := js "tombamento-" ++ numberToString now;
           card :=
             {| header :=
                  Some {| title := emoji (event payload) ++ js " "
                                   ++ js (eventName (event payload));
                          subtitle := Some (partner payload) |};
                sections := [{| widgets := widgets2 |}] |} |}] |}.

Definition isImportantEvent (event_ : string) : bool :=
  negb (String.eqb event_ "PROCESSING").

(** What [extractEvent] reads: of [event], [type] and [status] a
    [TombamentoPayload] has the first. *)
Definition eventProp (payload : TombamentoPayload) (field : string)
    : option string :=
  if String.eqb field "event" then Some (eventName (event payload))
  else None.

Section WithHash.
(** [sha1] of src/utils/crypto.ts: the hexadecimal SHA-1 digest of the
    UTF-8 encoding of a string. *)
Variable sha1 : jsstring → string.

Definition getIdempotencyKey (payload : TombamentoPayload) : string :=
  sha1 (join [58%N]
          [js (eventName (event payload));
           bucket payload;
           object payload;
           match counts payload with
           | Some c =>
               match processed c with
               | Some n => numberToString n
               | None => []
               end
           | None => []
           end]).

(** The schema as [NotifierImpl] sees it; [buildCard_] is [buildCard]
    with the clock it reads. *)
Definition schema {C : Type} (buildCard_ : TombamentoPayload → Z → Error + C)
    : Schema.EventSchema TombamentoPayload C :=
  {| Schema.name := "tombamento";
     Schema.buildCard := buildCard_;
     Schema.isImportantEvent := Some isImportantEvent;
     Schema.getIdempotencyKey := Some (λ p, Some (getIdempotencyKey p));
     Schema.getWebhookName := None |}.

End WithHash.

End TombamentoSchema.

(** ** src/index.ts: the convenience methods of
    [createTombamentoNotifier] *)

Module TombamentoNotifier.
Import TombamentoSchema.

(** [{ ...payload, event }] *)
Definition withEvent (data : TombamentoPayload) (e : TombamentoEvent)
    : TombamentoPayload :=
  {| event := e; partner := partner data; bucket := bucket data;
     object := object data; stage := stage data; counts := counts data;
     message := message data; trace_id := trace_id data; ts := ts data |}.

Section WithNotifier.
Context {C : Type}.
Variable toLowerCase : string → string.

Definition convenience (e : TombamentoEvent)
    (n : NotifierImpl.t TombamentoPayload C) (data : TombamentoPayload)
    (now : Z) (d : NotifierImpl.Delivery) :=
  NotifierImpl.notify toLowerCase eventProp n (withEvent data e) None now d.

Definition uploaded := convenience UPLOADED.
Definition processing := convenience PROCESSING.
Definition invalidSchema := convenience INVALID_SCHEMA.
Definition processed := convenience PROCESSED.
Definition failed := convenience FAILED.
Definition reportGenerated := convenience REPORT_GENERATED.

End WithNotifier.

End TombamentoNotifier.

(** * Vocabulary of the properties *)

Module Expected.
Section Http.
Import HttpClient.
Context {Payload : Type}.

(** The error an attempt leaves in [lastError], if it fails. *)
Definition failure (a : Attempt) : option Error :=
  match a with
  | Thrown e => Some e
  | Responded r =>
      if resp_ok r then None
      else Some (mkError ("HTTP " +:+ pretty (resp_status r)
                          +:+ ": " +:+ resp_statusText r))
  end.

(** [count] failed attempts numbered from [from], each followed by its
    backoff [initialDelayMs * 2 ^ (attempt - 1)]. *)
Fixpoint retried (c : HttpClient.t) (url : string) (payload : Payload)
    (from : Z) (count : nat) : list (Event Payload) :=
  match count with
  | O => []
  | S count' =>
      Fetch from url payload
      :: Sleep (initialDelayMs c * 2 ^ (from - 1))
      :: retried c url payload (from + 1) count'
  end.

(** A call of [post] that ends with attempt [k]: attempts [1 .. k], a
    sleep between two consecutive attempts, none after the last. *)
Definition schedule (c : HttpClient.t) (url : string) (payload : Payload)
    (k : Z) : list (Event Payload) :=
  retried c url payload 1 (Z.to_nat (k - 1)) ++ [Fetch k url payload].

End Http.

Section Batch.
Import BatchManager Runtime.
Context {TPayload : Type}.

(** The count of outstanding [onFlush] calls agrees with the
    [flushing] flag. *)
Definition guarded (w : World TPayload) : Prop :=
  running w = if flushing (mgr w) then 1%nat else 0%nat.

(** Every item that was ever in the queue is in exactly one place:
    still queued, or in one entry of [taken]. *)
Definition holdings (w : World TPayload) : list (BatchItem TPayload) :=
  concat (items_of <$> taken w) ++ queue (mgr w).

(** Submitting the items one after the other, with nothing else
    running in between. *)
Definition adds (items : list (BatchItem TPayload)) : list (Action TPayload) :=
  (λ it, Add (payload it) (webhookName it)) <$> items.

End Batch.

Section Notifier.
Import NotifierImpl.
Context {TPayload CardPayload : Type}.
Variable toLowerCase : string → string.

(** A delivery as the three steps it consists of: build the card,
    resolve the webhook, post with retries. *)
Definition deliver (n : NotifierImpl.t TPayload CardPayload)
    (payload : TPayload) (webhookName : option string) (d : Delivery)
    : (Error + HttpClient.HttpResponse)
      * list (HttpClient.Event CardPayload) :=
  match CardBuilder.buildCard (cardBuilder n) payload with
  | inl e => (inl e, [])
  | inr card =>
      match ConfigManager.getWebhook toLowerCase (config n)
              (resolvedWebhookName n payload webhookName) with
      | inl e => (inl e, [])
      | inr url => HttpClient.post (httpClient n) url card (net d)
      end
  end.

(** What item [i] of a batch does to the outside world when it is
    delivered on its own from state [n]. *)
Definition alone (n : NotifierImpl.t TPayload CardPayload)
    (batch : list (BatchManager.BatchItem TPayload)) (ds : list Delivery)
    (i : nat) : list (Effect TPayload CardPayload) :=
  match batch !! i, ds !! i with
  | Some item, Some d =>
      let '(r, evs) :=
        deliver n (BatchManager.payload item)
                (BatchManager.webhookName item) d in
      match r with
      | inr _ => Http <$> evs
      | inl e => (Http <$> evs) ++ [ConsoleError e]
      end
  | _, _ => []
  end.

(** The cache has [key] with an expiry of at least [bound], and its
    TTL is [ttl]. *)
Definition holds (n : NotifierImpl.t TPayload CardPayload) (key : string)
    (bound ttl : Z) : Prop :=
  ∃ c expiresAt,
    cache n = Some c ∧ IdempotencyCache.ttlMs c = ttl
    ∧ IdempotencyCache.cache c !! key = Some expiresAt
    ∧ bound <= expiresAt.

(** The call returned without delivering and without enqueuing. *)
Definition dropped (o : Outcome) : Prop :=
  o = AlreadySent ∨ o = NotImportant.

End Notifier.

(** A small notifier for the examples: payloads are strings, the card
    of a payload is [card:] followed by it, and the payload is its own
    idempotency key. One attempt per delivery, a TTL of 1000. *)
Definition exSchema : Schema.EventSchema string string :=
  {| Schema.name := "demo";
     Schema.buildCard := λ p _, inr ("card:" +:+ p);
     Schema.isImportantEvent := None;
     Schema.getIdempotencyKey := Some (λ p, Some p);
     Schema.getWebhookName := None |}.

Definition exUrl : string :=
  "https://chat.googleapis.com/v1/spaces/S/messages".

Definition exNotifierOf (schema_ : Schema.EventSchema string string)
    (batching : bool) : NotifierImpl.t string string :=
  {| NotifierImpl.config :=
       {| ConfigManager.webhooks := ∅;
          ConfigManager.defaultWebhook := Some exUrl |};
     NotifierImpl.cardBuilder :=
       {| CardBuilder.schema := schema_; CardBuilder.maxMessage := None |};
     NotifierImpl.cache := Some (IdempotencyCache.new (Some 1000));
     NotifierImpl.httpClient := HttpClient.new (Some 1) None;
     NotifierImpl.batchManager :=
       if batching then Some (BatchManager.new 10 5000 None) else None;
     NotifierImpl.schema := schema_;
     NotifierImpl.level := NotifierImpl.all |}.

Definition exNotifier (batching : bool) : NotifierImpl.t string string :=
  exNotifierOf exSchema batching.

(** The same schema with the empty string as the key of every
    payload. *)
Definition exBlankSchema : Schema.EventSchema string string :=
  {| Schema.name := "blank";
     Schema.buildCard := λ p _, inr ("card:" +:+ p);
     Schema.isImportantEvent := None;
     Schema.getIdempotencyKey := Some (λ _, Some "");
     Schema.getWebhookName := None |}.

(** A network that answers 200, one that answers 500. *)
Definition up (markedAt_ : Z) : NotifierImpl.Delivery :=
  {| NotifierImpl.net :=
       λ _, HttpClient.Responded (HttpClient.mkResponse 200 "OK" "{}");
     NotifierImpl.markedAt := markedAt_ |}.

Definition down (markedAt_ : Z) : NotifierImpl.Delivery :=
  {| NotifierImpl.net :=
       λ _, HttpClient.Responded
              (HttpClient.mkResponse 500 "Internal Server Error" "");
     NotifierImpl.markedAt := markedAt_ |}.

Definition exLower (s : string) : string := s.
Definition exProp (p : string) (field : string) : option string := None.

(** A notifier at level [important] for payloads that are their own
    [event] property, with a schema that holds every event but
    [PROCESSING] for important. *)
Definition exEventProp (p : string) (field : string) : option string :=
  if String.eqb field "event" then Some p else None.

Definition exFilterSchema : Schema.EventSchema string string :=
  {| Schema.name := "filter";
     Schema.buildCard := λ p _, inr ("card:" +:+ p);
     Schema.isImportantEvent :=
       Some (λ event, negb (String.eqb event "PROCESSING"));
     Schema.getIdempotencyKey := Some (λ p, Some p);
     Schema.getWebhookName := None |}.

Definition exFilterNotifier : NotifierImpl.t string string :=
  {| NotifierImpl.config :=
       {| ConfigManager.webhooks := ∅;
          ConfigManager.defaultWebhook := Some exUrl |};
     NotifierImpl.cardBuilder :=
       {| CardBuilder.schema := exFilterSchema;
          CardBuilder.maxMessage := None |};
     NotifierImpl.cache := Some (IdempotencyCache.new (Some 1000));
     NotifierImpl.httpClient := HttpClient.new (Some 1) None;
     NotifierImpl.batchManager := None;
     NotifierImpl.schema := exFilterSchema;
     NotifierImpl.level := NotifierImpl.important |}.

Section HttpBudget.
Import HttpClient.
Context {Payload : Type}.



End HttpBudget.

(** A URL that [validateWebhookUrl] lets through. *)
Definition wellFormed (url : string) : Prop :=
  url ≠ ""
  ∧ JsString.startsWith "https://" url = true
  ∧ JsString.includes "chat.googleapis.com" url = true.

(** Every URL of a map of named webhooks is one. *)
Definition allWellFormed (ws : gmap string string) : Prop :=
  map_Forall (λ _ url, wellFormed url) ws.

(** The name under which [loadFromEnv] registers the variable [key]. *)
Definition envName (toLowerCase : string → string) (key : string) : string :=
  toLowerCase (JsString.drop 13 key).

(** [toLowerCase] on ASCII text, for the examples. *)
Definition lowerAscii (a : Ascii.ascii) : Ascii.ascii :=
  let n := Ascii.nat_of_ascii a in
  if ((65 <=? n) && (n <=? 90))%nat then Ascii.ascii_of_nat (n + 32) else a.

Fixpoint exToLower (s : string) : string :=
  match s with
  | EmptyString => EmptyString
  | String a s' => String (lowerAscii a) (exToLower s')
  end.

(** An environment with a default webhook whose token is kept apart,
    and one named webhook. *)
Definition exEnv : Env :=
  [("PATH", "/usr/bin");
   ("CHAT_WEBHOOK_URL", "https://chat.googleapis.com/v1/spaces/S/messages?key=K");
   ("CHAT_WEBHOOK_TOKEN", "secret");
   ("CHAT_WEBHOOK_ERRORS", "https://chat.googleapis.com/v1/spaces/E/messages");
   ("CHAT_WEBHOOK_ERRORS_TOKEN", "tk2")].

(** A stand-in for [sha1] in the examples, a payload, and a notifier
    for such payloads at level [important], without batching. *)
Definition exHash (s : Truncate.jsstring) : string :=
  "h" +:+ pretty (foldr (λ c acc, Z.modulo (Z.of_N c + 31 * acc) 1000003) 0 s).

Definition exPayload : TombamentoSchema.TombamentoPayload :=
  {| TombamentoSchema.event := TombamentoSchema.UPLOADED;
     TombamentoSchema.partner := TombamentoSchema.js "ACME";
     TombamentoSchema.bucket := TombamentoSchema.js "exa-teste";
     TombamentoSchema.object := TombamentoSchema.js "exa/file.csv";
     TombamentoSchema.stage := None;
     TombamentoSchema.counts := None;
     TombamentoSchema.message :=
       Some (TombamentoSchema.js "Arquivo enviado com sucesso");
     TombamentoSchema.trace_id := None;
     TombamentoSchema.ts := Some (TombamentoSchema.js "2025-10-24T10:00:00Z") |}.

(** The same file reported again by another partner, with another
    message, at another time. *)
Definition exPayload2 : TombamentoSchema.TombamentoPayload :=
  {| TombamentoSchema.event := TombamentoSchema.UPLOADED;
     TombamentoSchema.partner := TombamentoSchema.js "OTHER";
     TombamentoSchema.bucket := TombamentoSchema.js "exa-teste";
     TombamentoSchema.object := TombamentoSchema.js "exa/file.csv";
     TombamentoSchema.stage := Some TombamentoSchema.PROCESSING;
     TombamentoSchema.counts :=
       Some (TombamentoSchema.mkCounts (Some 10) None None None);
     TombamentoSchema.message := None;
     TombamentoSchema.trace_id := Some (TombamentoSchema.js "trace-2");
     TombamentoSchema.ts := None |}.

Definition exCard (p : TombamentoSchema.TombamentoPayload) (maxMessage : Z)
    : Error + TombamentoSchema.CardPayload :=
  inr (TombamentoSchema.buildCard p maxMessage 0
         (TombamentoSchema.js "2025-10-24T10:00:00.000Z")).

Definition exTombamentoSchema
    : Schema.EventSchema TombamentoSchema.TombamentoPayload
        TombamentoSchema.CardPayload :=
  TombamentoSchema.schema exHash exCard.

Definition exTombamento
    : NotifierImpl.t TombamentoSchema.TombamentoPayload
        TombamentoSchema.CardPayload :=
  {| NotifierImpl.config :=
       {| ConfigManager.webhooks := ∅;
          ConfigManager.defaultWebhook := Some exUrl |};
     NotifierImpl.cardBuilder :=
       {| CardBuilder.schema := exTombamentoSchema;
          CardBuilder.maxMessage := None |};
     NotifierImpl.cache := Some (IdempotencyCache.new (Some 1000));
     NotifierImpl.httpClient := HttpClient.new (Some 1) None;
     NotifierImpl.batchManager := None;
     NotifierImpl.schema := exTombamentoSchema;
     NotifierImpl.level := NotifierImpl.important |}.

(** The number of [setImmediate] calls made by submitting [len] items
    to a queue of [len0] items under threshold [size_]: one for every
    submission that leaves at least [size_] items queued. *)
Definition triggers (size_ : Z) (len0 len : nat) : nat :=
  Z.to_nat (Z.max 0 (Z.of_nat len0 + Z.of_nat len
                     - Z.max size_ (Z.of_nat len0 + 1) + 1)).

(** Three submissions. *)
Definition msg1 : BatchManager.BatchItem string :=
  BatchManager.mkItem "msg1" None.
Definition msg2 : BatchManager.BatchItem string :=
  BatchManager.mkItem "msg2" (Some "errors").
Definition msg3 : BatchManager.BatchItem string :=
  BatchManager.mkItem "msg3" None.

(** The text of the truncation test. *)
Definition sample : Truncate.jsstring :=
  Truncate.of_ascii_string
    "This is a very long message that needs to be truncated".

End Expected.

(** * Properties *)

Lemma elem_of_concat {A} (x : A) (ls : list (list A)) :
  x ∈ concat ls ↔ ∃ l, x ∈ l ∧ l ∈ ls.
Proof.
  induction ls as [|l ls IH]; simpl.
  - split; [by intros ?%elem_of_nil | by intros (l & _ & ?%elem_of_nil)].
  - rewrite elem_of_app, IH. split.
    + intros [H|(l' & H & Hl)].
      * exists l. split; [done | by left].
      * exists l'. split; [done | by right].
    + intros (l' & H & [->|Hl]%elem_of_cons); eauto.
Qed.

Section TruncateProps.
Import Truncate Expected.

Lemma substring_prefix (s : jsstring) (n : Z) :
  n <= Z.of_nat (length s) →
  substring s 0 n = take (Z.to_nat n) s.
Proof.
  intros Hn. unfold substring, clamp.
  destruct (Z_le_gt_dec 0 n) as [H0|H0].
  - replace (Z.max 0 (Z.min 0 (Z.of_nat (length s)))) with 0 by lia.
    replace (Z.max 0 (Z.min n (Z.of_nat (length s)))) with n by lia.
    replace (Z.min 0 n) with 0 by lia.
    replace (Z.max 0 n - 0) with n by lia.
    reflexivity.
  - replace (Z.max 0 (Z.min 0 (Z.of_nat (length s)))) with 0 by lia.
    replace (Z.max 0 (Z.min n (Z.of_nat (length s)))) with 0 by lia.
    replace (Z.to_nat n) with 0%nat by lia.
    reflexivity.
Qed.

(** C9, as stated, at the empty text: [truncateMessage "" 1] is the
    empty text, not the ellipsis. *)
Lemma truncate_one_not_always_ellipsis :
  truncateMessage [] 1 = [] ∧ truncateMessage [] 1 ≠ [ellipsis].
Proof. split; [reflexivity | discriminate]. Qed.

(** C9 (amended): a text no longer than the bound is returned
    unchanged; a longer text becomes its first [maxLength - 1] code
    units followed by one ellipsis; the 54-unit sample with bound 20
    yields 20 units ending in the ellipsis; and every text longer than
    one unit is truncated to just the ellipsis by bound 1. *)
Theorem truncateMessage_spec :
  (∀ text len, Z.of_nat (length text) <= len → truncateMessage text len = text)
  ∧ (∀ text maxLength, maxLength < Z.of_nat (length text) →
       truncateMessage text maxLength
       = take (Z.to_nat (maxLength - 1)) text ++ [ellipsis])
  ∧ (length sample = 54%nat
     ∧ length (truncateMessage sample 20) = 20%nat
     ∧ truncateMessage sample 20
       = of_ascii_string "This is a very long" ++ [ellipsis])
  ∧ (∀ text, 1 < Z.of_nat (length text) → truncateMessage text 1 = [ellipsis]).
Proof.
  split; [|split; [|split]].
  - intros text len H. unfold truncateMessage.
    destruct (Z.leb_spec (Z.of_nat (length text)) len); [done | lia].
  - intros text maxLength H. unfold truncateMessage.
    destruct (Z.leb_spec (Z.of_nat (length text)) maxLength); [lia |].
    destruct (Z.leb_spec maxLength 1).
    + replace (Z.to_nat (maxLength - 1)) with 0%nat by lia. reflexivity.
    + rewrite substring_prefix by lia. reflexivity.
  - repeat split; reflexivity.
  - intros text H. unfold truncateMessage.
    destruct (Z.leb_spec (Z.of_nat (length text)) 1); [lia | reflexivity].
Qed.

Lemma truncateMessage_spec_witness :
  truncateMessage (of_ascii_string "Exact") 5 = of_ascii_string "Exact"
  ∧ truncateMessage (of_ascii_string "test") 3
    = of_ascii_string "te" ++ [ellipsis]
  ∧ truncateMessage (of_ascii_string "test") 1 = [ellipsis].
Proof.
  destruct truncateMessage_spec as (H1 & H2 & _ & H4).
  split; [|split].
  - apply (H1 (of_ascii_string "Exact") 5). simpl. lia.
  - apply (H2 (of_ascii_string "test") 3). simpl. lia.
  - apply (H4 (of_ascii_string "test")). simpl. lia.
Defined.

End TruncateProps.

Section CacheProps.
Import IdempotencyCache.

Lemma has_true_iff (c : t) (key : string) (now : Z) :
  (has c key now).1 = true
  ↔ ∃ expiresAt, cache c !! key = Some expiresAt ∧ now <= expiresAt.
Proof.
  unfold has. destruct (cache c !! key) as [e|] eqn:He.
  - destruct (Z.gtb_spec now e); simpl; split.
    + discriminate.
    + intros (e' & [= <-] & Hle). lia.
    + intros _. exists e. split; [done | lia].
    + done.
  - simpl. split; [discriminate | intros (e' & [=] & _)].
Qed.

Lemma has_expired (c : t) (key : string) (now expiresAt : Z) :
  cache c !! key = Some expiresAt →
  now > expiresAt →
  has c key now = (false, with_cache c (delete key (cache c)))
  ∧ cache (has c key now).2 !! key = None
  ∧ S (size (has c key now).2) = size c.
Proof.
  intros He Hgt. unfold has. rewrite He.
  destruct (Z.gtb_spec now expiresAt); [|lia].
  simpl. split; [done|]. split.
  - apply lookup_delete_eq.
  - unfold size. simpl.
    rewrite <- (insert_delete_id (cache c) key expiresAt) at 2 by done.
    rewrite map_size_insert_None by apply lookup_delete_eq. done.
Qed.

Lemma has_kept (c : t) (key : string) (now : Z) :
  (∀ expiresAt, cache c !! key = Some expiresAt → now <= expiresAt) →
  (has c key now).2 = c.
Proof.
  intros H. unfold has. destruct (cache c !! key) as [e|] eqn:He; [|done].
  specialize (H e eq_refl).
  destruct (Z.gtb_spec now e); [lia | done].
Qed.

Lemma set_lookup (c : t) (key : string) (now : Z) :
  cache (set c key now) !! key = Some (now + ttlMs c).
Proof. unfold set. simpl. apply lookup_insert_eq. Qed.

Lemma set_set (c : t) (key : string) (t1 t2 : Z) :
  set (set c key t1) key t2 = set c key t2.
Proof. unfold set, with_cache. simpl. by rewrite insert_insert_eq. Qed.

(** C5, as stated, at the instant of expiry: a key set at time 0 with a
    TTL of 50 is still reported at time 50, although [50 < 0 + 50]
    fails. *)
Lemma has_true_at_expiry :
  let c := set (new (Some 50)) "key1" 0 in
  cache c !! "key1" = Some 50
  ∧ (has c "key1" 50).1 = true
  ∧ ¬ (50 < 50).
Proof.
  intros c. split; [|split].
  - apply set_lookup.
  - apply has_true_iff. exists 50. split; [apply set_lookup | lia].
  - lia.
Qed.

(** C5 (amended): [has key] is true exactly when the key is stored and
    [now <= expiresAt]; [set key] stores [now + ttl], the last write
    winning; a key that [has] finds with [now > expiresAt] is removed
    before [false] is returned, and the size drops by one; otherwise
    [has] leaves the cache as it is. A key set with a TTL of 50 and
    queried 100 later is not present and the size has fallen from one
    to zero. *)
Theorem has_set_spec :
  (∀ c key now,
     (has c key now).1 = true
     ↔ ∃ expiresAt, cache c !! key = Some expiresAt ∧ now <= expiresAt)
  ∧ (∀ c key t0 now,
       (has (set c key t0) key now).1 = true ↔ now <= t0 + ttlMs c)
  ∧ (∀ c key t1 t2,
       cache (set c key t1) !! key = Some (t1 + ttlMs c)
       ∧ set (set c key t1) key t2 = set c key t2)
  ∧ (∀ c key now expiresAt,
       cache c !! key = Some expiresAt → now > expiresAt →
       (has c key now).1 = false
       ∧ cache (has c key now).2 = delete key (cache c)
       ∧ S (size (has c key now).2) = size c)
  ∧ (∀ c key now,
       (∀ expiresAt, cache c !! key = Some expiresAt → now <= expiresAt) →
       (has c key now).2 = c)
  ∧ (let c := set (new (Some 50)) "key1" 0 in
     size c = 1%nat
     ∧ (has c "key1" 100).1 = false
     ∧ size (has c "key1" 100).2 = 0%nat).
Proof.
  split; [exact has_true_iff|].
  split.
  { intros c key t0 now. rewrite has_true_iff. rewrite set_lookup. split.
    - intros (e & [= <-] & H). done.
    - intros H. eauto. }
  split; [intros; split; [apply set_lookup | apply set_set]|].
  split.
  { intros c key now e He Hgt.
    destruct (has_expired c key now e He Hgt) as (Heq & _ & Hsz).
    rewrite Heq in *. done. }
  split; [exact has_kept|].
  intros c.
  assert (Hl : cache c !! "key1" = Some 50) by apply set_lookup.
  destruct (has_expired c "key1" 100 50 Hl ltac:(lia)) as (Heq & _ & Hsz).
  assert (Hs : size c = 1%nat).
  { unfold size, c, set, new. simpl.
    rewrite map_size_insert_None by apply lookup_empty.
    by rewrite map_size_empty. }
  rewrite Hs in Hsz. rewrite Heq in *. simpl in *. split; [done|].
  split; [done | lia].
Qed.

Lemma has_set_spec_witness :
  let c := set (new (Some 50)) "key1" 0 in
  (has c "key1" 50).1 = true
  ∧ (has c "key1" 51).1 = false
  ∧ (has c "key2" 51).2 = c.
Proof.
  intros c.
  destruct has_set_spec as (H1 & H2 & H3 & H4 & H5 & _).
  split; [|split].
  - apply (H2 (new (Some 50)) "key1" 0 50). simpl. lia.
  - apply (H4 c "key1" 51 50); [apply set_lookup | lia].
  - apply (H5 c "key2" 51). intros e He.
    unfold c, set in He. simpl in He.
    rewrite lookup_insert_ne in He by done.
    by rewrite lookup_empty in He.
Defined.

End CacheProps.

Section HttpProps.
Import HttpClient Expected.
Context {Payload : Type}.
Variables (c : HttpClient.t) (url : string) (payload : Payload).
Variable net : Z → Attempt.

Lemma attempts_caught (remaining : nat) (attempt : Z) (last : option Error)
    (e : Error) :
  failure (net attempt) = Some e →
  attempts c url payload net (S remaining) attempt last
  = let '(r, evs) :=
      attempts c url payload net remaining (attempt + 1) (Some e) in
    (r, Fetch attempt url payload
        :: (if attempt <? maxRetries c
            then [Sleep (initialDelayMs c * 2 ^ (attempt - 1))] else [])
        ++ evs).
Proof.
  intros Hf. simpl. unfold failure in Hf.
  destruct (net attempt) as [e'|r].
  - by injection Hf as ->.
  - destruct (resp_ok r); [done|]. by injection Hf as <-.
Qed.

Lemma attempts_failing (k : nat) :
  ∀ (m : nat) (attempt : Z) (last : option Error),
    (∀ i, attempt <= i < attempt + Z.of_nat k → is_Some (failure (net i))) →
    attempt + Z.of_nat k <= maxRetries c →
    attempts c url payload net (k + m) attempt last
    = let '(r, evs) :=
        attempts c url payload net m (attempt + Z.of_nat k)
          (match k with
           | O => last
           | S _ => failure (net (attempt + Z.of_nat k - 1))
           end) in
      (r, retried c url payload attempt k ++ evs).
Proof.
  induction k as [|k IH]; intros m attempt last Hfail Hle.
  - simpl. replace (attempt + Z.of_nat 0) with attempt by lia.
    by destruct (attempts c url payload net m attempt last).
  - destruct (Hfail attempt ltac:(lia)) as [e He].
    change (S k + m)%nat with (S (k + m)).
    rewrite (attempts_caught _ _ _ e He).
    rewrite (IH m (attempt + 1) (Some e)); [|intros; apply Hfail; lia|lia].
    replace (attempt + 1 + Z.of_nat k) with (attempt + Z.of_nat (S k)) by lia.
    assert (Hlast : match k with
                    | O => Some e
                    | S _ => failure (net (attempt + Z.of_nat (S k) - 1))
                    end = failure (net (attempt + Z.of_nat (S k) - 1))).
    { destruct k; [|done].
      replace (attempt + Z.of_nat 1 - 1) with attempt by lia. done. }
    rewrite Hlast.
    destruct (attempts c url payload net m _ _) as [r evs].
    destruct (Z.ltb_spec attempt (maxRetries c)); [|lia].
    reflexivity.
Qed.

Lemma post_success (k : Z) (r : Response) :
  1 <= k <= maxRetries c →
  (∀ i, 1 <= i < k → is_Some (failure (net i))) →
  net k = Responded r →
  resp_ok r = true →
  post c url payload net
  = (inr {| ok := true; status := resp_status r;
            statusText := resp_statusText r; body := resp_text r |},
     schedule c url payload k).
Proof.
  intros Hk Hfail Hnet Hok. unfold post, schedule.
  replace (Z.to_nat (maxRetries c))
    with (Z.to_nat (k - 1) + S (Z.to_nat (maxRetries c - k)))%nat by lia.
  rewrite attempts_failing; [|intros; apply Hfail; lia|lia].
  replace (1 + Z.of_nat (Z.to_nat (k - 1))) with k by lia.
  simpl. rewrite Hnet, Hok. reflexivity.
Qed.

Lemma post_exhausted (e : Error) :
  1 <= maxRetries c →
  (∀ i, 1 <= i < maxRetries c → is_Some (failure (net i))) →
  failure (net (maxRetries c)) = Some e →
  post c url payload net = (inl e, schedule c url payload (maxRetries c)).
Proof.
  intros Hn Hfail He. unfold post, schedule.
  replace (Z.to_nat (maxRetries c))
    with (Z.to_nat (maxRetries c - 1) + 1)%nat at 1 by lia.
  rewrite attempts_failing; [|intros; apply Hfail; lia|lia].
  replace (1 + Z.of_nat (Z.to_nat (maxRetries c - 1)))
    with (maxRetries c) by lia.
  rewrite (attempts_caught _ _ _ e He). simpl.
  destruct (Z.ltb_spec (maxRetries c) (maxRetries c)); [lia|].
  reflexivity.
Qed.

(** Up to any attempt number, either every attempt fails or there is a
    first one that succeeds. *)
Lemma first_success (n : nat) :
  (∀ i, 1 <= i <= Z.of_nat n → is_Some (failure (net i)))
  ∨ (∃ k r, 1 <= k <= Z.of_nat n
            ∧ (∀ i, 1 <= i < k → is_Some (failure (net i)))
            ∧ net k = Responded r ∧ resp_ok r = true).
Proof.
  induction n as [|n [IH|IH]].
  - left. intros i Hi. lia.
  - destruct (failure (net (Z.of_nat (S n)))) as [e|] eqn:He.
    + left. intros i Hi.
      destruct (decide (i = Z.of_nat (S n))) as [->|]; [by rewrite He|].
      apply IH. lia.
    + right. unfold failure in He.
      destruct (net (Z.of_nat (S n))) as [e|r] eqn:Hn; [done|].
      destruct (resp_ok r) eqn:Hok; [|done].
      exists (Z.of_nat (S n)), r. split; [lia|]. split; [|done].
      intros i Hi. apply IH. lia.
  - right. destruct IH as (k & r & Hk & H). exists k, r. split; [lia | done].
Qed.

(** C4: with [maxRetries >= 1], [post] runs attempts [1 .. maxRetries].
    An attempt fails when something is thrown or the response is not
    2xx, and the failure is what [lastError] then holds: the thrown
    error, or [HTTP <status>: <statusText>]. If attempt [k] is the
    first with a 2xx response, [post] returns that response after
    exactly the attempts [1 .. k]; if all attempts fail, [post] throws
    the failure of the last one after exactly the attempts
    [1 .. maxRetries]. In both cases attempt [i] is followed by a sleep
    of [initialDelayMs * 2 ^ (i - 1)] if and only if another attempt
    follows. One of the two cases always applies. *)
Theorem post_spec :
  1 <= maxRetries c →
  (∀ k r,
     1 <= k <= maxRetries c →
     (∀ i, 1 <= i < k → is_Some (failure (net i))) →
     net k = Responded r → resp_ok r = true →
     post c url payload net
     = (inr {| ok := true; status := resp_status r;
               statusText := resp_statusText r; body := resp_text r |},
        schedule c url payload k))
  ∧ (∀ e,
       (∀ i, 1 <= i < maxRetries c → is_Some (failure (net i))) →
       failure (net (maxRetries c)) = Some e →
       post c url payload net
       = (inl e, schedule c url payload (maxRetries c)))
  ∧ ((∃ k r, 1 <= k <= maxRetries c ∧ net k = Responded r
             ∧ resp_ok r = true
             ∧ post c url payload net
               = (inr {| ok := true; status := resp_status r;
                         statusText := resp_statusText r;
                         body := resp_text r |},
                  schedule c url payload k))
     ∨ (∃ e, failure (net (maxRetries c)) = Some e
             ∧ post c url payload net
               = (inl e, schedule c url payload (maxRetries c))))
  ∧ (∀ e, failure (Thrown e) = Some e)
  ∧ (∀ r, failure (Responded r)
          = if (200 <=? resp_status r) && (resp_status r <? 300)
            then None
            else Some (mkError ("HTTP " +:+ pretty (resp_status r)
                                +:+ ": " +:+ resp_statusText r))).
Proof.
  intros Hn.
  split; [intros; by apply post_success|].
  split; [intros; by apply post_exhausted|].
  split; [|split; [done | done]].
  destruct (first_success (Z.to_nat (maxRetries c))) as [Hall|Hone].
  - right.
    destruct (Hall (maxRetries c) ltac:(lia)) as [e He].
    exists e. split; [done|].
    apply post_exhausted; [done| |done].
    intros i Hi. apply Hall. lia.
  - left. destruct Hone as (k & r & Hk & Hfail & Hnet & Hok).
    exists k, r. split; [lia|]. split; [done|]. split; [done|].
    apply post_success; [lia|done|done|done].
Qed.

End HttpProps.

Lemma post_spec_witness :
  let c := HttpClient.new (Some 3) None in
  let net (i : Z) :=
    if bool_decide (i = 1) then HttpClient.Thrown (mkError "ECONNRESET")
    else if bool_decide (i = 2)
         then HttpClient.Responded
                (HttpClient.mkResponse 503 "Service Unavailable" "")
         else HttpClient.Responded (HttpClient.mkResponse 200 "OK" "{}") in
  let down (i : Z) :=
    HttpClient.Responded
      (HttpClient.mkResponse 500 "Internal Server Error" "") in
  1 <= HttpClient.maxRetries c
  ∧ HttpClient.post c "https://chat.googleapis.com/x" "card" net
    = (inr (HttpClient.mkHttpResponse true 200 "OK" "{}"),
       [HttpClient.Fetch 1 "https://chat.googleapis.com/x" "card";
        HttpClient.Sleep 300;
        HttpClient.Fetch 2 "https://chat.googleapis.com/x" "card";
        HttpClient.Sleep 600;
        HttpClient.Fetch 3 "https://chat.googleapis.com/x" "card"])
  ∧ HttpClient.post c "https://chat.googleapis.com/x" "card" down
    = (inl (mkError "HTTP 500: Internal Server Error"),
       [HttpClient.Fetch 1 "https://chat.googleapis.com/x" "card";
        HttpClient.Sleep 300;
        HttpClient.Fetch 2 "https://chat.googleapis.com/x" "card";
        HttpClient.Sleep 600;
        HttpClient.Fetch 3 "https://chat.googleapis.com/x" "card"]).
Proof.
  intros c net down.
  assert (Hn : 1 <= HttpClient.maxRetries c) by (simpl; lia).
  split; [exact Hn|]. split.
  - destruct (post_spec c "https://chat.googleapis.com/x" "card" net Hn)
      as (Hok & _).
    apply (Hok 3 (HttpClient.mkResponse 200 "OK" "{}")).
    + simpl. lia.
    + intros i Hi.
      assert (i = 1 ∨ i = 2) as [-> | ->] by lia; vm_compute; eauto.
    + reflexivity.
    + reflexivity.
  - destruct (post_spec c "https://chat.googleapis.com/x" "card" down Hn)
      as (_ & Hex & _).
    apply (Hex (mkError "HTTP 500: Internal Server Error")).
    + intros i Hi. vm_compute. eauto.
    + reflexivity.
Defined.

Section BatchProps.
Import BatchManager Runtime Expected.
Context {TPayload : Type}.
Implicit Types (m : BatchManager.t TPayload) (w : World TPayload).

Lemma flush_noop m :
  flushing m = true ∨ queue m = [] → flush m = (m, None).
Proof.
  intros [H|H]; unfold flush; rewrite H; [done|].
  by rewrite orb_true_r.
Qed.

Lemma flush_drains m :
  flushing m = false → queue m ≠ [] →
  flush m = (mk [] (timer m) (options m) true, Some (queue m)).
Proof.
  intros Hf Hq. unfold flush, with_queue, with_flushing. simpl. rewrite Hf.
  destruct (queue m) eqn:E; [done|]. reflexivity.
Qed.

Lemma called_flush_guarded w w0 :
  mgr w0 = mgr w → running w0 = running w →
  guarded w → guarded (called w0 (flush (mgr w))).
Proof.
  unfold guarded, called, flush. intros Hm Hr Hg.
  destruct (flushing (mgr w)) eqn:Hf; simpl.
  - rewrite Hf. congruence.
  - destruct (bool_decide _); simpl; [rewrite Hf|]; congruence.
Qed.

Lemma flush_cases m :
  (flush m = (m, None) ∧ (flushing m = true ∨ queue m = []))
  ∨ (flush m = (mk [] (timer m) (options m) true, Some (queue m))
     ∧ flushing m = false ∧ queue m ≠ []).
Proof.
  destruct (flushing m) eqn:Hf.
  - left. split; [apply flush_noop|]; auto.
  - destruct (decide (queue m = [])) as [Hq|Hq].
    + left. split; [apply flush_noop|]; auto.
    + right. split; [by apply flush_drains | done].
Qed.

Lemma destroy_cases m :
  (Options.flushOnDestroy (options m) = true ∧ queue m ≠ []
   ∧ flushing m = true
   ∧ destroy m = (mk (queue m) false (options m) true, None))
  ∨ (Options.flushOnDestroy (options m) = true ∧ queue m ≠ []
     ∧ flushing m = false
     ∧ destroy m = (mk [] false (options m) true, Some (queue m)))
  ∨ ((Options.flushOnDestroy (options m) = false ∨ queue m = [])
     ∧ destroy m = (mk [] false (options m) (flushing m), None)).
Proof.
  assert (Ht : (if timer m then with_timer m false else m)
               = mk (queue m) false (options m) (flushing m)).
  { destruct m as [q [] o f]; reflexivity. }
  unfold destroy. rewrite Ht. simpl.
  destruct (Options.flushOnDestroy (options m)) eqn:Hd; simpl.
  - destruct (queue m) as [|x q] eqn:Hq; simpl.
    + right. right. split; [by right | done].
    + destruct (flushing m) eqn:Hf.
      * left. repeat split; try done.
      * right. left. repeat split; try done.
  - right. right. split; [by left | done].
Qed.

Lemma step_guarded w a w' :
  guarded w → step w a = Some w' → guarded w'.
Proof.
  intros Hg Hs. destruct a as [p n| | | | |r]; simpl in Hs.
  - injection Hs as <-. exact Hg.
  - injection Hs as <-. by apply called_flush_guarded.
  - unfold guarded in *.
    destruct (destroy_cases (mgr w)) as
      [(_ & _ & Hf & Hd)|[(_ & _ & Hf & Hd)|(_ & Hd)]];
      rewrite Hd in Hs; unfold called in Hs; simpl in Hs;
      destruct (bool_decide _) in Hs; simpl in Hs;
      injection Hs as <-; simpl; rewrite ?Hf in Hg; try done;
      by rewrite Hg.
  - destruct (timer (mgr w)); [|done]. injection Hs as <-.
    unfold intervalCallback. destruct (0 <? _).
    + by apply called_flush_guarded.
    + exact Hg.
  - destruct (immediates w) as [|k]; [done|]. injection Hs as <-.
    by apply (called_flush_guarded w).
  - unfold guarded in *. destruct (running w) as [|k] eqn:Hr; [done|].
    injection Hs as <-. simpl.
    destruct (flushing (mgr w)); [lia | done].
Qed.

Lemma run_guarded acts : ∀ w w', guarded w → run w acts = Some w' → guarded w'.
Proof.
  induction acts as [|a acts IH]; intros w w' Hg Hr; simpl in Hr.
  - by injection Hr as <-.
  - destruct (step w a) as [w1|] eqn:Hs; [|done].
    eapply IH; [|exact Hr]. by eapply step_guarded.
Qed.

Lemma called_flush_holdings w w0 :
  mgr w0 = mgr w → taken w0 = taken w →
  holdings (called w0 (flush (mgr w))) = holdings w.
Proof.
  intros Hm Ht. unfold holdings, called.
  destruct (flush_cases (mgr w)) as [(-> & _)|(-> & _ & _)]; simpl.
  - by rewrite Ht.
  - rewrite Ht, fmap_app, concat_app. simpl.
    by rewrite !app_nil_r.
Qed.

Lemma step_holdings w a w' :
  step w a = Some w' → holdings w' = holdings w ++ added [a].
Proof.
  intros Hs. destruct a as [p n| | | | |r]; simpl in Hs; unfold added; simpl.
  - injection Hs as <-. unfold holdings. simpl. by rewrite app_assoc.
  - injection Hs as <-. rewrite app_nil_r. by apply called_flush_holdings.
  - rewrite app_nil_r. unfold holdings.
    destruct (destroy_cases (mgr w)) as
      [(_ & Hq & _ & Hd)|[(_ & Hq & _ & Hd)|(_ & Hd)]];
      rewrite Hd in Hs; unfold called in Hs; simpl in Hs.
    + rewrite bool_decide_eq_false_2 in Hs by lia.
      simpl in Hs. by injection Hs as <-.
    + rewrite andb_false_r in Hs. injection Hs as <-. simpl.
      rewrite fmap_app, concat_app. simpl. by rewrite !app_nil_r.
    + rewrite andb_true_r in Hs.
      case_bool_decide as Hlen; injection Hs as <-; simpl.
      * rewrite fmap_app, concat_app. simpl. by rewrite !app_nil_r.
      * destruct (queue (mgr w)); [done | simpl in Hlen; lia].
  - rewrite app_nil_r. destruct (timer (mgr w)); [|done].
    injection Hs as <-. unfold intervalCallback. destruct (0 <? _).
    + by apply called_flush_holdings.
    + done.
  - rewrite app_nil_r. destruct (immediates w) as [|k]; [done|].
    injection Hs as <-. by apply (called_flush_holdings w).
  - rewrite app_nil_r. destruct (running w); [done|].
    by injection Hs as <-.
Qed.

Lemma run_holdings acts :
  ∀ w w', run w acts = Some w' → holdings w' = holdings w ++ added acts.
Proof.
  induction acts as [|a acts IH]; intros w w' Hr; simpl in Hr.
  - injection Hr as <-. unfold added. simpl. by rewrite app_nil_r.
  - destruct (step w a) as [w1|] eqn:Hs; [|done].
    rewrite (IH _ _ Hr), (step_holdings _ _ _ Hs), <- app_assoc.
    f_equal. unfold added. simpl. by destruct a.
Qed.

Lemma step_flush_calls w :
  flushing (mgr w) = false → queue (mgr w) ≠ [] →
  step w Flush
  = Some {| mgr := mk [] (timer (mgr w)) (options (mgr w)) true;
            immediates := immediates w; running := S (running w);
            taken := taken w ++ [Flushed (queue (mgr w))];
            settled := settled w |}.
Proof.
  intros Hf Hq. simpl. unfold called. by rewrite flush_drains.
Qed.

Lemma step_flush_skips w :
  flushing (mgr w) = true ∨ queue (mgr w) = [] → step w Flush = Some w.
Proof.
  intros H. simpl. unfold called. rewrite flush_noop by done.
  by destruct w.
Qed.

Lemma three_flushes m (x : BatchItem TPayload) :
  flushing m = false → queue m = [x] →
  run (boot m) [Flush; Flush; Flush]
  = Some {| mgr := mk [] (timer m) (options m) true;
            immediates := 0; running := 1;
            taken := [Flushed [x]]; settled := [] |}.
Proof.
  intros Hf Hq. unfold run.
  rewrite step_flush_calls by (simpl; congruence).
  rewrite !step_flush_skips by (simpl; auto).
  simpl. by rewrite Hq.
Qed.

(** C2: [flush] returns at once, changing nothing and calling nothing,
    when a flush is in progress or the queue is empty. Otherwise it
    empties the queue, sets [flushing] and calls [onFlush] once with
    the former queue. When the promise of [onFlush] settles, resolved
    or rejected, [flushing] is reset and the [flush] call ends the same
    way. Over every history of a manager that starts idle there is
    never more than one [onFlush] outstanding, it is outstanding
    exactly while [flushing] is set, and the batches handed out
    together with the dropped items and the queue are the submitted
    items, each once and in order. Three [flush] calls in a row on a
    queue of one item call [onFlush] once. *)
Theorem flush_spec :
  (∀ m, flushing m = true ∨ queue m = [] → flush m = (m, None))
  ∧ (∀ m, flushing m = false → queue m ≠ [] →
       flush m = (mk [] (timer m) (options m) true, Some (queue m)))
  ∧ (∀ w, flushing (mgr w) = false → queue (mgr w) ≠ [] →
       ∃ w', step w Flush = Some w'
             ∧ onFlushCalls w' = onFlushCalls w ++ [queue (mgr w)]
             ∧ queue (mgr w') = [] ∧ flushing (mgr w') = true)
  ∧ (∀ w r, (0 < running w)%nat →
       ∃ w', step w (OnFlushSettles r) = Some w'
             ∧ flushing (mgr w') = false
             ∧ settled w' = settled w ++ [r]
             ∧ queue (mgr w') = queue (mgr w))
  ∧ (∀ m acts w, flushing m = false → run (boot m) acts = Some w →
       (running w ≤ 1)%nat
       ∧ (running w = 1%nat ↔ flushing (mgr w) = true)
       ∧ concat (items_of <$> taken w) ++ queue (mgr w)
         = queue m ++ added acts)
  ∧ (∀ m (x : BatchItem TPayload), flushing m = false → queue m = [x] →
       ∃ w, run (boot m) [Flush; Flush; Flush] = Some w
            ∧ onFlushCalls w = [[x]] ∧ queue (mgr w) = []).
Proof.
  split; [exact flush_noop|].
  split; [exact flush_drains|].
  split.
  { intros w Hf Hq. eexists. split; [by apply step_flush_calls|].
    simpl. unfold onFlushCalls. simpl. by rewrite omap_app. }
  split.
  { intros w r Hr. simpl. destruct (running w); [lia|].
    eexists. split; [done|]. done. }
  split.
  { intros m acts w Hf Hr.
    assert (Hg : guarded w).
    { eapply run_guarded; [|exact Hr]. unfold guarded. simpl. by rewrite Hf. }
    pose proof (run_holdings _ _ _ Hr) as Hh.
    unfold guarded in Hg. unfold holdings in Hh. simpl in Hh.
    split; [|split; [|done]].
    - destruct (flushing (mgr w)); lia.
    - destruct (flushing (mgr w)); split; (done || lia). }
  intros m x Hf Hq. eexists. split; [by apply three_flushes|]. done.
Qed.

Lemma run_app (a b : list (Action TPayload)) :
  ∀ w, run w (a ++ b) = run w a ≫= λ w', run w' b.
Proof.
  induction a as [|x a IH]; intros w; simpl; [done|].
  destruct (step w x); [apply IH | done].
Qed.

Lemma add_spec m (p : TPayload) (n : option string) :
  add m p n
  = (with_queue m (queue m ++ [mkItem p n]),
     bool_decide (Options.size (options m)
                  <= Z.of_nat (length (queue m)) + 1)).
Proof.
  unfold add. f_equal. simpl. rewrite length_app. simpl.
  rewrite Z.geb_leb.
  case_bool_decide; [apply Z.leb_le | apply Z.leb_gt]; lia.
Qed.

Lemma step_add w (p : TPayload) (n : option string) :
  step w (Add p n)
  = Some {| mgr := with_queue (mgr w) (queue (mgr w) ++ [mkItem p n]);
            immediates :=
              if bool_decide (Options.size (options (mgr w))
                              <= Z.of_nat (length (queue (mgr w))) + 1)
              then S (immediates w) else immediates w;
            running := running w; taken := taken w;
            settled := settled w |}.
Proof. unfold step. by rewrite add_spec. Qed.

Lemma run_adds_below (items : list (BatchItem TPayload)) :
  ∀ w,
    Z.of_nat (length (queue (mgr w)) + length items)
    < Options.size (options (mgr w)) →
    run w (adds items)
    = Some {| mgr := with_queue (mgr w) (queue (mgr w) ++ items);
              immediates := immediates w; running := running w;
              taken := taken w; settled := settled w |}.
Proof.
  induction items as [|[p n] items IH]; intros w Hlt.
  - simpl. rewrite app_nil_r. by destruct w as [[] ? ? ? ?].
  - change (run w (adds (mkItem p n :: items)))
      with (match step w (Add p n) with
            | Some w' => run w' (adds items)
            | None => None
            end).
    rewrite step_add. simpl in Hlt.
    rewrite bool_decide_eq_false_2 by lia.
    rewrite IH; simpl; [|rewrite length_app; simpl; lia].
    unfold with_queue. simpl. by rewrite <- app_assoc.
Qed.

Lemma run_adds_reach w (items : list (BatchItem TPayload)) :
  queue (mgr w) = [] →
  1 <= Options.size (options (mgr w)) →
  Z.of_nat (length items) = Options.size (options (mgr w)) →
  run w (adds items)
  = Some {| mgr := with_queue (mgr w) items;
            immediates := S (immediates w); running := running w;
            taken := taken w; settled := settled w |}.
Proof.
  intros Hq Hpos Hlen.
  destruct (exists_last (l := items)) as (init & [p n] & ->).
  { intros ->. simpl in Hlen. lia. }
  rewrite length_app in Hlen. simpl in Hlen.
  unfold adds. rewrite fmap_app. fold (adds init).
  rewrite run_app, run_adds_below by (rewrite Hq; simpl; lia).
  change ((λ it, Add (payload it) (webhookName it)) <$> [mkItem p n])
    with [Add p n].
  unfold mbind, option_bind, run. rewrite step_add. simpl.
  rewrite Hq. simpl.
  rewrite bool_decide_eq_true_2 by lia. done.
Qed.

(** C3: [add] appends the item to the tail of the queue and calls
    [setImmediate] exactly when the queue has then reached the size
    threshold; it never calls [onFlush] itself and leaves [flushing]
    alone. On an idle manager with an empty queue and threshold
    [N >= 1] (a new manager is one), [N] submissions leave the [N]
    items queued, one more [setImmediate] callback pending and
    [onFlush] not called; when that callback runs, [onFlush] is called
    once, with exactly those items in submission order, and once it has
    settled a firing interval adds no further call. *)
Theorem add_size_trigger :
  (∀ m (p : TPayload) n,
     add m p n
     = (with_queue m (queue m ++ [mkItem p n]),
        bool_decide (Options.size (options m)
                     <= Z.of_nat (length (queue m)) + 1)))
  ∧ (∀ w (p : TPayload) n,
       ∃ w', step w (Add p n) = Some w'
             ∧ taken w' = taken w ∧ running w' = running w
             ∧ flushing (mgr w') = flushing (mgr w)
             ∧ immediates w'
               = if (add (mgr w) p n).2 then S (immediates w)
                 else immediates w)
  ∧ (∀ size_ intervalMs_ flushOnDestroy_,
       queue (new (TPayload := TPayload) size_ intervalMs_ flushOnDestroy_)
       = []
       ∧ flushing (new (TPayload := TPayload) size_ intervalMs_
                     flushOnDestroy_) = false
       ∧ Options.size
           (options (new (TPayload := TPayload) size_ intervalMs_
                       flushOnDestroy_)) = size_)
  ∧ (∀ w (items : list (BatchItem TPayload)) r,
       queue (mgr w) = [] → flushing (mgr w) = false →
       immediates w = 0%nat →
       1 <= Options.size (options (mgr w)) →
       Z.of_nat (length items) = Options.size (options (mgr w)) →
       ∃ w1 w2 w3,
         run w (adds items) = Some w1
         ∧ queue (mgr w1) = items ∧ immediates w1 = 1%nat
         ∧ onFlushCalls w1 = onFlushCalls w
         ∧ step w1 Immediate = Some w2
         ∧ onFlushCalls w2 = onFlushCalls w ++ [items]
         ∧ queue (mgr w2) = [] ∧ immediates w2 = 0%nat
         ∧ step w2 (OnFlushSettles r) = Some w3
         ∧ (∀ w4, step w3 Interval = Some w4 →
                  onFlushCalls w4 = onFlushCalls w ++ [items])).
Proof.
  split; [exact add_spec|]. split.
  { intros w p n. eexists. split; [done|]. simpl. done. }
  split; [done|].
  intros w items r Hq Hf Hi Hpos Hlen.
  exists {| mgr := with_queue (mgr w) items;
            immediates := 1; running := running w; taken := taken w;
            settled := settled w |},
         {| mgr := mk [] (timer (mgr w)) (options (mgr w)) true;
            immediates := 0; running := S (running w);
            taken := taken w ++ [Flushed items];
            settled := settled w |},
         {| mgr := mk [] (timer (mgr w)) (options (mgr w)) false;
            immediates := 0; running := running w;
            taken := taken w ++ [Flushed items];
            settled := settled w ++ [r] |}.
  assert (Hcalls : omap batch_of (taken w ++ [Flushed items])
                   = onFlushCalls w ++ [items])
    by (by rewrite omap_app).
  split; [rewrite run_adds_reach, Hi; done|].
  destruct items as [|x items]; [simpl in Hlen; lia|].
  split; [done|]. split; [done|]. split; [done|].
  split; [simpl; unfold called, flush; simpl; by rewrite Hf|].
  split; [done|]. split; [done|]. split; [done|].
  split; [done|].
  intros w4. simpl. destruct (timer (mgr w)); [|done].
  by intros [= <-].
Qed.

(** When no flush is in progress, [destroy] clears the interval and
    either hands the whole queue to [onFlush] or empties it. *)
Lemma destroy_idle m :
  flushing m = false →
  timer (destroy m).1 = false
  ∧ (Options.flushOnDestroy (options m) = true → queue m ≠ [] →
     destroy m = (mk [] false (options m) true, Some (queue m)))
  ∧ (Options.flushOnDestroy (options m) = false →
     destroy m = (mk [] false (options m) false, None)).
Proof.
  intros Hf.
  destruct (destroy_cases m) as
    [(_ & _ & Hf' & Hd)|[(Ho & Hq & _ & Hd)|([Ho|Hq] & Hd)]];
    rewrite Hd; simpl; try congruence;
    (split; [done|]; split; [congruence|]); rewrite ?Hf; congruence.
Qed.

End BatchProps.

Section BatchExamples.
Import BatchManager Runtime Expected.

Lemma flush_spec_witness :
  let m := (add (new 10 5000 None) "msg1" None).1 in
  flushing m = false ∧ queue m = [msg1]
  ∧ (∃ w, run (boot m) [Flush; Flush; Flush] = Some w
          ∧ onFlushCalls w = [[msg1]] ∧ queue (mgr w) = [])
  ∧ (∃ w, run (boot m)
            [Flush; Add "msg2" (Some "errors"); Flush;
             OnFlushSettles (Rejected (mkError "boom")); Flush]
          = Some w
          ∧ (running w ≤ 1)%nat
          ∧ concat (items_of <$> taken w) ++ queue (mgr w) = [msg1; msg2]).
Proof.
  intros m.
  destruct (flush_spec (TPayload := string)) as (_ & _ & _ & _ & Hinv & H3).
  split; [reflexivity|]. split; [reflexivity|]. split.
  - apply (H3 m msg1); reflexivity.
  - eexists. split; [reflexivity|].
    destruct (Hinv m
                [Flush; Add "msg2" (Some "errors"); Flush;
                 OnFlushSettles (Rejected (mkError "boom")); Flush]
                _ eq_refl eq_refl) as (Hle & _ & Hh).
    split; [exact Hle | exact Hh].
Defined.

Lemma add_size_trigger_witness :
  ∃ w w',
    run (boot (new 3 5000 None)) (adds [msg1; msg2; msg3]) = Some w
    ∧ immediates w = 1%nat ∧ onFlushCalls w = []
    ∧ step w Immediate = Some w'
    ∧ onFlushCalls w' = [[msg1; msg2; msg3]].
Proof.
  destruct (add_size_trigger (TPayload := string)) as (_ & _ & _ & H).
  destruct (H (boot (new 3 5000 None)) [msg1; msg2; msg3] Resolved)
    as (w & w' & w'' & Hr & _ & Hi & Hc & Hs & Hc' & _).
  - reflexivity.
  - reflexivity.
  - reflexivity.
  - simpl. lia.
  - reflexivity.
  - exists w, w'. repeat split; assumption.
Defined.

(** C7 at a manager that is flushing: [msg1] is being delivered when
    [msg2] arrives and [destroy] is called, with [flushOnDestroy] at
    its default. [destroy] clears the interval, its [flush] returns at
    once, [onFlush] is not called for [msg2], and [msg2] is neither
    dropped nor delivered: it stays in the queue after the running
    flush has ended, with no interval and no [setImmediate] callback
    left to pick it up. *)
Theorem destroy_while_flushing :
  let history :=
    [Add "msg1" None; Flush; Add "msg2" (Some "errors"); Destroy;
     OnFlushSettles Resolved] in
  Options.flushOnDestroy (options (new (TPayload := string) 10 5000 None))
  = true
  ∧ ∃ w, run (boot (new 10 5000 None)) history = Some w
         ∧ onFlushCalls w = [[msg1]]
         ∧ taken w = [Flushed [msg1]]
         ∧ queue (mgr w) = [msg2]
         ∧ timer (mgr w) = false
         ∧ flushing (mgr w) = false
         ∧ step w Interval = None
         ∧ step w Immediate = None
         ∧ step w (OnFlushSettles Resolved) = None.
Proof.
  intros history. split; [reflexivity|].
  eexists. split; [reflexivity|]. repeat split.
Qed.

End BatchExamples.

Section NotifierProps.
Import NotifierImpl Expected.
Context {TPayload CardPayload : Type}.
Variable toLowerCase : string → string.
Variable prop : TPayload → string → option string.
Implicit Types (n : NotifierImpl.t TPayload CardPayload) (payload : TPayload).

Lemma with_cache_id n : with_cache n (cache n) = n.
Proof. by destruct n. Qed.

Lemma markKey_with_cache n payload now :
  markKey n payload now = with_cache n (cache (markKey n payload now)).
Proof.
  unfold markKey.
  destruct (cache n) eqn:Hc, (Schema.getIdempotencyKey (schema n));
    try destruct (truthy _); simpl; rewrite <- ?Hc;
    by rewrite ?with_cache_id.
Qed.

Lemma deliver_with_cache n c payload w d :
  deliver toLowerCase (with_cache n c) payload w d
  = deliver toLowerCase n payload w d.
Proof. reflexivity. Qed.

Lemma sendSingle_deliver n payload w d :
  sendSingle toLowerCase n payload w d
  = let '(r, evs) := deliver toLowerCase n payload w d in
    match r with
    | inl e => (inl e, n, Http <$> evs)
    | inr _ => (inr (), markKey n payload (markedAt d), Http <$> evs)
    end.
Proof.
  unfold sendSingle, prepare, deliver.
  destruct (CardBuilder.buildCard _ _) as [e|card]; [done|].
  destruct (ConfigManager.getWebhook _ _ _) as [e|url]; [done|].
  destruct (HttpClient.post _ _ _ _) as [[e|r] evs]; done.
Qed.

Lemma sendItem_alone n batch ds i item d :
  batch !! i = Some item → ds !! i = Some d →
  sendItem toLowerCase n item d
  = (Resolved,
     match (deliver toLowerCase n (BatchManager.payload item)
              (BatchManager.webhookName item) d).1 with
     | inl _ => n
     | inr _ => markKey n (BatchManager.payload item) (markedAt d)
     end,
     alone toLowerCase n batch ds i).
Proof.
  intros Hb Hd. unfold sendItem, alone. rewrite Hb, Hd, sendSingle_deliver.
  destruct (deliver _ _ _ _ _) as [[e|r] evs]; done.
Qed.

Lemma alone_with_cache n c batch ds i :
  alone toLowerCase (with_cache n c) batch ds i
  = alone toLowerCase n batch ds i.
Proof. reflexivity. Qed.

Lemma with_cache_with_cache n c c' :
  with_cache (with_cache n c) c' = with_cache n c'.
Proof. reflexivity. Qed.

Lemma sendItems_spec order :
  ∀ n batch ds,
    ∃ ps c,
      sendItems toLowerCase n batch ds order
      = (ps, with_cache n c, concat (alone toLowerCase n batch ds <$> order))
      ∧ Forall (λ p, p = Resolved) ps.
Proof.
  induction order as [|i order IH]; intros n batch ds.
  - exists [], (cache n). simpl. by rewrite with_cache_id.
  - simpl. destruct (batch !! i) as [item|] eqn:Hb.
    + destruct (ds !! i) as [d|] eqn:Hd.
      * rewrite (sendItem_alone n batch ds i item d Hb Hd).
        set (n1 := match (deliver _ _ _ _ _).1 with
                   | inl _ => n | inr _ => _ end).
        assert (∃ c1, n1 = with_cache n c1) as [c1 Hn1].
        { unfold n1. destruct (deliver _ _ _ _ _).1.
          - exists (cache n). by rewrite with_cache_id.
          - eexists. apply markKey_with_cache. }
        destruct (IH n1 batch ds) as (ps & c & Heq & Hall).
        rewrite Heq. exists (Resolved :: ps), c. split.
        -- rewrite Hn1, with_cache_with_cache. reflexivity.
        -- by constructor.
      * destruct (IH n batch ds) as (ps & c & Heq & Hall).
        rewrite Heq. exists ps, c. split; [|done].
        unfold alone at 2. by rewrite Hb, Hd.
    + destruct (IH n batch ds) as (ps & c & Heq & Hall).
      rewrite Heq. exists ps, c. split; [|done].
      unfold alone at 2. by rewrite Hb.
Qed.

Lemma promiseAll_resolved ps :
  Forall (λ p, p = Resolved) ps → promiseAll ps = Resolved.
Proof. induction 1 as [|p ps Hp _ IH]; [done | by subst]. Qed.

Lemma sendBatch_spec n batch ds order :
  ∃ c, sendBatch toLowerCase n batch ds order
       = (Resolved, with_cache n c,
          concat (alone toLowerCase n batch ds <$> order)).
Proof.
  unfold sendBatch.
  destruct (sendItems_spec order n batch ds) as (ps & c & -> & Hall).
  exists c. by rewrite promiseAll_resolved.
Qed.

Lemma sendBatch_effects n batch ds order :
  (sendBatch toLowerCase n batch ds order).2
  = concat (alone toLowerCase n batch ds <$> order).
Proof. by destruct (sendBatch_spec n batch ds order) as [c ->]. Qed.

Lemma alone_in_batch n batch ds order i ev :
  i ∈ order → ev ∈ alone toLowerCase n batch ds i →
  ev ∈ (sendBatch toLowerCase n batch ds order).2.
Proof.
  intros Hi Hev. rewrite sendBatch_effects. apply elem_of_concat.
  exists (alone toLowerCase n batch ds i). split; [done|].
  by apply list_elem_of_fmap_2.
Qed.

Lemma sendBatch_logs n batch ds order i item d e evs :
  i ∈ order → batch !! i = Some item → ds !! i = Some d →
  deliver toLowerCase n (BatchManager.payload item)
    (BatchManager.webhookName item) d = (inl e, evs) →
  ConsoleError e ∈ (sendBatch toLowerCase n batch ds order).2.
Proof.
  intros Hi Hb Hd He. apply (alone_in_batch _ _ _ _ i); [done|].
  unfold alone. rewrite Hb, Hd, He. apply elem_of_app. right.
  by apply list_elem_of_singleton.
Qed.

Lemma sendBatch_requests n batch ds order i item d ev :
  i ∈ order → batch !! i = Some item → ds !! i = Some d →
  ev ∈ (deliver toLowerCase n (BatchManager.payload item)
          (BatchManager.webhookName item) d).2 →
  Http ev ∈ (sendBatch toLowerCase n batch ds order).2.
Proof.
  intros Hi Hb Hd Hev. apply (alone_in_batch _ _ _ _ i); [done|].
  unfold alone. rewrite Hb, Hd.
  destruct (deliver _ _ _ _ _) as [[e|r] evs]; simpl in Hev.
  - apply elem_of_app. left. by apply list_elem_of_fmap_2.
  - by apply list_elem_of_fmap_2.
Qed.

Lemma sendBatch_effect_kinds n batch ds order ev :
  ev ∈ (sendBatch toLowerCase n batch ds order).2 →
  (∃ h, ev = Http h) ∨ (∃ e, ev = ConsoleError e).
Proof.
  rewrite sendBatch_effects. intros Hev.
  apply elem_of_concat in Hev as (l & Hev & Hl).
  apply list_elem_of_fmap in Hl as (i & -> & _).
  unfold alone in Hev.
  destruct (batch !! i), (ds !! i); try by apply elem_of_nil in Hev.
  destruct (deliver _ _ _ _ _) as [[e|r] evs].
  - apply elem_of_app in Hev as [Hev|Hev].
    + apply list_elem_of_fmap in Hev as (h & -> & _). eauto.
    + apply list_elem_of_singleton in Hev as ->. eauto.
  - apply list_elem_of_fmap in Hev as (h & -> & _). eauto.
Qed.

Lemma flush_resolves n ds order :
  (flush toLowerCase n ds order).1.1 = Resolved.
Proof.
  unfold flush. destruct (batchManager n) as [bm|]; [|done].
  destruct (BatchManager.flush bm) as [bm' [b|]]; [|done].
  destruct (sendBatch_spec (with_batchManager n (Some bm')) b ds order)
    as [c' ->]. done.
Qed.

(** [sendBatch] always resolves, and changes nothing of the notifier
    but its cache. What it does to the outside world is, item by item
    in the order of completion, what the delivery of that item does on
    its own: its requests, followed by one [console.error] with the
    error when it fails. So a failed item is logged, every request of
    every other item is still made, and nothing else happens: the
    [onError] and [onSuccess] callbacks are not called. [flush]
    resolves whatever the deliveries do. *)
Theorem sendBatch_isolates n batch ds order :
  (∃ c, sendBatch toLowerCase n batch ds order
        = (Resolved, with_cache n c,
           concat (alone toLowerCase n batch ds <$> order)))
  ∧ (∀ i item d e evs,
       i ∈ order → batch !! i = Some item → ds !! i = Some d →
       deliver toLowerCase n (BatchManager.payload item)
         (BatchManager.webhookName item) d = (inl e, evs) →
       ConsoleError e ∈ (sendBatch toLowerCase n batch ds order).2)
  ∧ (∀ i item d ev,
       i ∈ order → batch !! i = Some item → ds !! i = Some d →
       ev ∈ (deliver toLowerCase n (BatchManager.payload item)
               (BatchManager.webhookName item) d).2 →
       Http ev ∈ (sendBatch toLowerCase n batch ds order).2)
  ∧ (∀ ev, ev ∈ (sendBatch toLowerCase n batch ds order).2 →
       (∃ h, ev = Http h) ∨ (∃ e, ev = ConsoleError e))
  ∧ (flush toLowerCase n ds order).1.1 = Resolved.
Proof.
  split; [apply sendBatch_spec|].
  split; [intros; by eapply sendBatch_logs|].
  split; [intros; by eapply sendBatch_requests|].
  split; [intros; by eapply sendBatch_effect_kinds|].
  apply flush_resolves.
Qed.

(** *** The idempotency check and the marking of keys *)

Lemma has_ttlMs (c : IdempotencyCache.t) key now :
  IdempotencyCache.ttlMs (IdempotencyCache.has c key now).2
  = IdempotencyCache.ttlMs c.
Proof.
  unfold IdempotencyCache.has.
  destruct (IdempotencyCache.cache c !! key) as [e|]; [|done].
  by destruct (now >? e).
Qed.

Lemma has_false_absent (c : IdempotencyCache.t) key now :
  (IdempotencyCache.has c key now).1 = false →
  IdempotencyCache.cache (IdempotencyCache.has c key now).2 !! key = None.
Proof.
  unfold IdempotencyCache.has.
  destruct (IdempotencyCache.cache c !! key) as [e|] eqn:He; [|done].
  destruct (now >? e); [|done]. intros _. apply lookup_delete_eq.
Qed.

Lemma alreadySent_with_cache n payload now :
  ∃ c', (alreadySent n payload now).2 = with_cache n c'
        ∧ (∀ c, cache n = Some c →
             ∃ c1, c' = Some c1
                   ∧ IdempotencyCache.ttlMs c1 = IdempotencyCache.ttlMs c).
Proof.
  unfold alreadySent. destruct (cache n) as [c|] eqn:Hc.
  - destruct (Schema.getIdempotencyKey (schema n)) as [g|].
    + destruct (truthy (g payload)) as [key|].
      * pose proof (has_ttlMs c key now) as Ht.
        destruct (IdempotencyCache.has c key now) as [b c'].
        exists (Some c'). split; [done|]. intros ? [= <-]. eauto.
      * exists (Some c). rewrite <- Hc, with_cache_id.
        split; [done|]. rewrite Hc. intros ? [= <-]. eauto.
    + exists (Some c). rewrite <- Hc, with_cache_id.
      split; [done|]. rewrite Hc. intros ? [= <-]. eauto.
  - exists None. rewrite <- Hc, with_cache_id. split; [done|].
    rewrite Hc. done.
Qed.

Lemma alreadySent_false_absent n payload now c getKey key :
  cache n = Some c →
  Schema.getIdempotencyKey (schema n) = Some getKey →
  truthy (getKey payload) = Some key →
  (alreadySent n payload now).1 = false →
  ∃ c1, (alreadySent n payload now).2 = with_cache n (Some c1)
        ∧ IdempotencyCache.ttlMs c1 = IdempotencyCache.ttlMs c
        ∧ IdempotencyCache.cache c1 !! key = None.
Proof.
  intros Hc Hg Hk. unfold alreadySent. rewrite Hc, Hg, Hk.
  pose proof (has_ttlMs c key now) as Ht.
  pose proof (has_false_absent c key now) as Ha.
  destruct (IdempotencyCache.has c key now) as [b c']. simpl in *.
  intros ->. exists c'. auto.
Qed.

Lemma markKey_sets n c getKey key payload now :
  cache n = Some c →
  Schema.getIdempotencyKey (schema n) = Some getKey →
  truthy (getKey payload) = Some key →
  markKey n payload now
  = with_cache n (Some (IdempotencyCache.set c key now)).
Proof. intros Hc Hg Hk. unfold markKey. by rewrite Hc, Hg, Hk. Qed.

Lemma markKey_holds n key bound ttl payload now :
  holds n key bound ttl → bound <= now + ttl →
  holds (markKey n payload now) key bound ttl.
Proof.
  intros (c & e & Hc & Ht & He & Hle) Hb. unfold markKey. rewrite Hc.
  destruct (Schema.getIdempotencyKey (schema n)) as [g|];
    [|by exists c, e].
  destruct (truthy (g payload)) as [key'|]; [|by exists c, e].
  destruct (decide (key' = key)) as [->|Hne].
  - exists (IdempotencyCache.set c key now), (now + ttl).
    simpl. rewrite <- Ht, lookup_insert_eq. rewrite Ht. done.
  - exists (IdempotencyCache.set c key' now), e.
    simpl. by rewrite lookup_insert_ne.
Qed.

Lemma holds_dropped n key bound ttl getKey p2 w2 t2 d2 :
  holds n key bound ttl →
  Schema.getIdempotencyKey (schema n) = Some getKey →
  truthy (getKey p2) = Some key →
  t2 <= bound →
  ∃ o2, notify toLowerCase prop n p2 w2 t2 d2 = (o2, n, []) ∧ dropped o2.
Proof.
  intros (c & e & Hc & Ht & He & Hle) Hg Hk Ht2. unfold notify.
  destruct (notImportant prop n p2).
  - exists NotImportant. split; [done | by right].
  - unfold alreadySent. rewrite Hc, Hg, Hk.
    unfold IdempotencyCache.has. rewrite He.
    destruct (Z.gtb_spec t2 e); [lia|].
    exists AlreadySent. rewrite <- Hc, with_cache_id.
    split; [done | by left].
Qed.

Lemma notify_marks n c getKey key payload w now d o n' evs :
  cache n = Some c →
  Schema.getIdempotencyKey (schema n) = Some getKey →
  truthy (getKey payload) = Some key →
  notify toLowerCase prop n payload w now d = (o, n', evs) →
  o = Queued ∨ o = Sent →
  schema n' = schema n
  ∧ holds n' key (markedAt d + IdempotencyCache.ttlMs c)
      (IdempotencyCache.ttlMs c).
Proof.
  intros Hc Hg Hk Hn Ho. unfold notify in Hn.
  destruct (notImportant prop n payload).
  { injection Hn as <- _ _. by destruct Ho. }
  destruct (alreadySent_with_cache n payload now) as (c' & Hn1 & Hc').
  destruct (Hc' c Hc) as (c1 & -> & Httl).
  destruct (alreadySent n payload now) as [seen n1]. simpl in Hn1. subst n1.
  destruct seen.
  { injection Hn as <- _ _. by destruct Ho. }
  assert (Hmark : ∀ m, cache m = Some c1 → schema m = schema n →
            schema (markKey m payload (markedAt d)) = schema n
            ∧ holds (markKey m payload (markedAt d)) key
                (markedAt d + IdempotencyCache.ttlMs c)
                (IdempotencyCache.ttlMs c)).
  { intros m Hm Hs. rewrite (markKey_sets m c1 getKey key) by congruence.
    split; [done|].
    exists (IdempotencyCache.set c1 key (markedAt d)),
           (markedAt d + IdempotencyCache.ttlMs c).
    simpl. rewrite lookup_insert_eq, Httl. done. }
  destruct (batchManager (with_cache n (Some c1))) as [bm|].
  - destruct (BatchManager.add bm payload w) as [bm' sch].
    injection Hn as _ <- _. by apply Hmark.
  - rewrite sendSingle_deliver in Hn.
    destruct (deliver _ _ _ _ _) as [[e|r] evs'].
    + injection Hn as <- _ _. by destruct Ho.
    + injection Hn as _ <- _. by apply Hmark.
Qed.

Lemma cleanup_holds n c key bound ttl now :
  holds n key bound ttl → cache n = Some c → now <= bound →
  holds (with_cache n (Some (IdempotencyCache.cleanup c now))) key bound ttl.
Proof.
  intros (c' & e & Hc & Ht & He & Hle) Hc2 Hnow.
  rewrite Hc in Hc2. injection Hc2 as ->.
  exists (IdempotencyCache.cleanup c now), e. simpl.
  split; [done|]. split; [done|]. split; [|done].
  apply map_lookup_filter_Some. split; [done|]. simpl. lia.
Qed.

Lemma schema_markKey n payload now :
  schema (markKey n payload now) = schema n.
Proof. by rewrite markKey_with_cache. Qed.

Lemma sendItems_holds key bound ttl batch ds order :
  ∀ n,
    holds n key bound ttl →
    (∀ d, d ∈ ds → bound <= markedAt d + ttl) →
    holds (sendItems toLowerCase n batch ds order).1.2 key bound ttl
    ∧ schema (sendItems toLowerCase n batch ds order).1.2 = schema n.
Proof.
  induction order as [|i order IH]; intros n Hh Hds; [done|].
  simpl. destruct (batch !! i) as [item|] eqn:Hb; [|by apply IH].
  destruct (ds !! i) as [d|] eqn:Hd; [|by apply IH].
  rewrite (sendItem_alone n batch ds i item d Hb Hd).
  set (n1 := match (deliver _ _ _ _ _).1 with
             | inl _ => n | inr _ => _ end).
  assert (Hn1 : holds n1 key bound ttl ∧ schema n1 = schema n).
  { unfold n1. destruct (deliver _ _ _ _ _).1; [done|].
    split; [|apply schema_markKey].
    apply markKey_holds; [done|]. apply Hds.
    by eapply list_elem_of_lookup_2. }
  destruct Hn1 as [Hh1 Hs1].
  destruct (IH n1 Hh1 Hds) as [Hh2 Hs2].
  destruct (sendItems toLowerCase n1 batch ds order) as [[ps n2] evs2].
  simpl in *. split; [done | congruence].
Qed.

Lemma sendBatch_holds key bound ttl batch ds order n :
  holds n key bound ttl →
  (∀ d, d ∈ ds → bound <= markedAt d + ttl) →
  holds (sendBatch toLowerCase n batch ds order).1.2 key bound ttl
  ∧ schema (sendBatch toLowerCase n batch ds order).1.2 = schema n.
Proof.
  intros Hh Hds.
  pose proof (sendItems_holds key bound ttl batch ds order n Hh Hds) as H.
  unfold sendBatch.
  by destruct (sendItems toLowerCase n batch ds order) as [[ps n2] evs2].
Qed.

Lemma flush_holds key bound ttl ds order n :
  holds n key bound ttl →
  (∀ d, d ∈ ds → bound <= markedAt d + ttl) →
  holds (flush toLowerCase n ds order).1.2 key bound ttl
  ∧ schema (flush toLowerCase n ds order).1.2 = schema n.
Proof.
  intros Hh Hds. unfold flush.
  destruct (batchManager n) as [bm|]; [|done].
  destruct (BatchManager.flush bm) as [bm' [batch|]]; [|done].
  pose proof (sendBatch_holds key bound ttl batch ds order
                (with_batchManager n (Some bm')) Hh Hds) as H.
  by destruct (sendBatch _ _ _ _ _) as [[r n1] evs].
Qed.

(** C1 (amended): take two calls of [notify] whose payloads yield the
    same non-empty key, on a notifier with a cache and a key extractor.
    If the first call queued its payload (batch mode) or delivered it
    (immediate mode), and the second is made no later than the TTL
    after the key was marked, the second call returns without any
    effect and leaves the notifier, its queue included, as it was. In
    batch mode a first call that passes the filter and the idempotency
    check always queues, and marks the key in the same section. *)
Theorem duplicate_suppressed n c getKey key p1 w1 t1 d1 p2 w2 t2 d2 o1 n1 evs1 :
  cache n = Some c →
  Schema.getIdempotencyKey (schema n) = Some getKey →
  truthy (getKey p1) = Some key →
  truthy (getKey p2) = Some key →
  notify toLowerCase prop n p1 w1 t1 d1 = (o1, n1, evs1) →
  t2 <= markedAt d1 + IdempotencyCache.ttlMs c →
  (o1 = Queued ∨ o1 = Sent →
   ∃ o2, notify toLowerCase prop n1 p2 w2 t2 d2 = (o2, n1, [])
         ∧ dropped o2)
  ∧ (∀ bm,
       batchManager n = Some bm →
       notImportant prop n p1 = false →
       (alreadySent n p1 t1).1 = false →
       o1 = Queued
       ∧ BatchManager.queue <$> batchManager n1
         = Some (BatchManager.queue bm ++ [BatchManager.mkItem p1 w1])
       ∧ holds n1 key (markedAt d1 + IdempotencyCache.ttlMs c)
           (IdempotencyCache.ttlMs c)).
Proof.
  intros Hc Hg Hk1 Hk2 Hn Ht2.
  assert (Hfirst : o1 = Queued ∨ o1 = Sent →
            schema n1 = schema n
            ∧ holds n1 key (markedAt d1 + IdempotencyCache.ttlMs c)
                (IdempotencyCache.ttlMs c)).
  { intros Ho.
    exact (notify_marks n c getKey key p1 w1 t1 d1 o1 n1 evs1
             Hc Hg Hk1 Hn Ho). }
  split.
  - intros Ho. destruct (Hfirst Ho) as [Hs Hh].
    eapply holds_dropped; [exact Hh|by rewrite Hs|done|done].
  - intros bm Hbm Hni Has.
    assert (Ho : o1 = Queued
                 ∧ BatchManager.queue <$> batchManager n1
                   = Some (BatchManager.queue bm
                           ++ [BatchManager.mkItem p1 w1])).
    { unfold notify in Hn. rewrite Hni in Hn.
      destruct (alreadySent_with_cache n p1 t1) as (c' & Hn1 & _).
      destruct (alreadySent n p1 t1) as [seen m]. simpl in *. subst.
      simpl in Hn. rewrite Hbm in Hn. simpl in Hn.
      injection Hn as <- <- _. split; [done|].
      by rewrite markKey_with_cache. }
    destruct Ho as [Ho Hq]. split; [done|]. split; [done|].
    apply Hfirst. by left.
Qed.

(** C10: in batch mode, once [notify] has queued a payload its key is
    in the cache, and nothing that [sendBatch] or [flush] does
    afterwards takes it out or shortens its life, whatever becomes of
    the deliveries; nor does a sweep of the cache before the expiry. In
    particular, when the delivery of the payload fails, the failure is
    logged and every later [notify] with the same key made before the
    TTL has run out is dropped without effect. *)
Theorem failed_batch_keeps_key n c getKey key p w t1 d1 n1 evs1 batch ds order :
  cache n = Some c →
  Schema.getIdempotencyKey (schema n) = Some getKey →
  truthy (getKey p) = Some key →
  notify toLowerCase prop n p w t1 d1 = (Queued, n1, evs1) →
  (∀ d, d ∈ ds → markedAt d1 <= markedAt d) →
  let ttl := IdempotencyCache.ttlMs c in
  let sent := sendBatch toLowerCase n1 batch ds order in
  let flushed := flush toLowerCase n1 ds order in
  holds n1 key (markedAt d1 + ttl) ttl
  ∧ holds sent.1.2 key (markedAt d1 + ttl) ttl
  ∧ holds flushed.1.2 key (markedAt d1 + ttl) ttl
  ∧ (∀ i d e evs,
       i ∈ order → batch !! i = Some (BatchManager.mkItem p w) →
       ds !! i = Some d →
       deliver toLowerCase n1 p w d = (inl e, evs) →
       ConsoleError e ∈ sent.2)
  ∧ (∀ now c1,
       cache sent.1.2 = Some c1 → now <= markedAt d1 + ttl →
       holds (with_cache sent.1.2 (Some (IdempotencyCache.cleanup c1 now)))
         key (markedAt d1 + ttl) ttl)
  ∧ (∀ p2 w2 t2 d2,
       truthy (getKey p2) = Some key → t2 <= markedAt d1 + ttl →
       (∃ o2, notify toLowerCase prop sent.1.2 p2 w2 t2 d2
              = (o2, sent.1.2, []) ∧ dropped o2)
       ∧ (∃ o2, notify toLowerCase prop flushed.1.2 p2 w2 t2 d2
                = (o2, flushed.1.2, []) ∧ dropped o2)).
Proof.
  intros Hc Hg Hk Hn Hds ttl sent flushed. subst sent flushed.
  destruct (notify_marks n c getKey key p w t1 d1 Queued n1 evs1
              Hc Hg Hk Hn ltac:(by left)) as [Hs Hh].
  assert (Hds' : ∀ d, d ∈ ds → markedAt d1 + ttl <= markedAt d + ttl).
  { intros d Hd. specialize (Hds d Hd). lia. }
  destruct (sendBatch_holds key _ ttl batch ds order n1 Hh Hds')
    as [Hh1 Hs1].
  destruct (flush_holds key _ ttl ds order n1 Hh Hds') as [Hh2 Hs2].
  split; [done|]. split; [done|]. split; [done|].
  split; [|split].
  - intros i d e evs Hi Hb Hd He.
    by apply (sendBatch_logs n1 batch ds order i _ d e evs Hi Hb Hd).
  - intros now c1 Hc1 Hnow. by apply cleanup_holds.
  - intros p2 w2 t2 d2 Hk2 Ht2. split.
    + eapply holds_dropped; [exact Hh1| |done|done]. by rewrite Hs1, Hs.
    + eapply holds_dropped; [exact Hh2| |done|done]. by rewrite Hs2, Hs.
Qed.

(** *** Immediate delivery *)

Lemma getWebhook_fallback (cfg : ConfigManager.t) name dflt :
  truthy (ConfigManager.defaultWebhook cfg) = Some dflt →
  truthy name = None
  ∨ (∃ nm, truthy name = Some nm
           ∧ truthy (ConfigManager.webhooks cfg !! toLowerCase nm) = None) →
  ConfigManager.getWebhook toLowerCase cfg name = inr dflt.
Proof.
  intros Hd [Hn|(nm & Hn & Hw)]; unfold ConfigManager.getWebhook;
    rewrite Hn, ?Hw, Hd; done.
Qed.

Lemma getWebhook_named (cfg : ConfigManager.t) name nm url :
  truthy name = Some nm →
  truthy (ConfigManager.webhooks cfg !! toLowerCase nm) = Some url →
  ConfigManager.getWebhook toLowerCase cfg name = inr url.
Proof.
  intros Hn Hw. unfold ConfigManager.getWebhook. by rewrite Hn, Hw.
Qed.

Lemma notify_immediate n payload w now d n1 :
  batchManager n = None →
  notImportant prop n payload = false →
  alreadySent n payload now = (false, n1) →
  notify toLowerCase prop n payload w now d
  = let '(r, evs) := deliver toLowerCase n payload w d in
    match r with
    | inl e => (Failed e, n1, Http <$> evs)
    | inr _ => (Sent, markKey n1 payload (markedAt d), Http <$> evs)
    end.
Proof.
  intros Hbm Hni Has. unfold notify. rewrite Hni, Has.
  destruct (alreadySent_with_cache n payload now) as (c' & Hn1 & _).
  rewrite Has in Hn1. simpl in Hn1. subst n1. simpl. rewrite Hbm.
  rewrite sendSingle_deliver, deliver_with_cache.
  by destruct (deliver _ _ _ _ _) as [[e|r] evs].
Qed.

(** C8: a call of [notify] in immediate mode that passes the filter
    and the idempotency check delivers before it returns: it builds the
    card, resolves the webhook and posts with retries. It ends as
    [Sent] with the key marked when the delivery succeeds, and passes
    the error on with the notifier as it was when the delivery fails:
    afterwards the key is in the cache exactly when the delivery
    succeeded. [sendSingle] never changes the notifier when it throws.
    The name is the one given to [notify], or else the one the schema
    supplies; the webhook is the default one when there is no name or
    the named one is not configured, and the named one otherwise. *)
Theorem notify_immediate_spec n payload w now d n1 :
  batchManager n = None →
  notImportant prop n payload = false →
  alreadySent n payload now = (false, n1) →
  notify toLowerCase prop n payload w now d
  = (let '(r, evs) := deliver toLowerCase n payload w d in
     match r with
     | inl e => (Failed e, n1, Http <$> evs)
     | inr _ => (Sent, markKey n1 payload (markedAt d), Http <$> evs)
     end)
  ∧ (∀ c getKey key,
       cache n = Some c →
       Schema.getIdempotencyKey (schema n) = Some getKey →
       truthy (getKey payload) = Some key →
       ∃ c',
         cache (notify toLowerCase prop n payload w now d).1.2 = Some c'
         ∧ IdempotencyCache.cache c' !! key
           = match (deliver toLowerCase n payload w d).1 with
             | inr _ => Some (markedAt d + IdempotencyCache.ttlMs c)
             | inl _ => None
             end)
  ∧ (∀ (m m' : NotifierImpl.t TPayload CardPayload) e evs,
       sendSingle toLowerCase m payload w d = (inl e, m', evs) → m' = m)
  ∧ (∀ name, w = Some name → resolvedWebhookName n payload w = Some name)
  ∧ (w = None → Schema.getWebhookName (schema n) = None →
     resolvedWebhookName n payload w = None)
  ∧ (∀ dflt card,
       truthy (ConfigManager.defaultWebhook (config n)) = Some dflt →
       CardBuilder.buildCard (cardBuilder n) payload = inr card →
       truthy (resolvedWebhookName n payload w) = None
       ∨ (∃ nm, truthy (resolvedWebhookName n payload w) = Some nm
                ∧ truthy (ConfigManager.webhooks (config n)
                          !! toLowerCase nm) = None) →
       deliver toLowerCase n payload w d
       = HttpClient.post (httpClient n) dflt card (net d))
  ∧ (∀ nm url card,
       truthy (resolvedWebhookName n payload w) = Some nm →
       truthy (ConfigManager.webhooks (config n) !! toLowerCase nm)
       = Some url →
       CardBuilder.buildCard (cardBuilder n) payload = inr card →
       deliver toLowerCase n payload w d
       = HttpClient.post (httpClient n) url card (net d)).
Proof.
  intros Hbm Hni Has.
  pose proof (notify_immediate n payload w now d n1 Hbm Hni Has) as Hn.
  split; [exact Hn|]. split; [|split; [|split; [|split; [|split]]]].
  - intros c getKey key Hc Hg Hk. rewrite Hn.
    destruct (alreadySent_false_absent n payload now c getKey key
                Hc Hg Hk) as (c1 & Hn1 & Httl & Habs).
    { by rewrite Has. }
    rewrite Has in Hn1. simpl in Hn1. subst n1.
    destruct (deliver _ _ _ _ _) as [[e|r] evs]; simpl.
    + by exists c1.
    + rewrite (markKey_sets _ c1 getKey key) by done.
      eexists. split; [done|]. simpl.
      by rewrite lookup_insert_eq, Httl.
  - intros m m' e evs. rewrite sendSingle_deliver.
    destruct (deliver toLowerCase m payload w d) as [[e'|r] evs']; [|done].
    by intros [= _ <- _].
  - by intros name ->.
  - intros -> Hs. unfold resolvedWebhookName. by rewrite Hs.
  - intros dflt card Hd Hcard Hname. unfold deliver.
    by rewrite Hcard, (getWebhook_fallback _ _ dflt).
  - intros nm url card Hname Hurl Hcard. unfold deliver.
    by rewrite Hcard, (getWebhook_named _ _ nm url).
Qed.

End NotifierProps.

Section NotifierExamples.
Import NotifierImpl Expected.

(** C6 on a batch of two whose second delivery fails: two payloads are
    queued and flushed, the network answers 200 to the first and 500 to
    the second. The flush resolves and the first item is delivered, but
    the failure of the second is only written with [console.error]: no
    call of the [onError] callback is among the effects. *)
Lemma failure_not_reported_by_callback :
  let n1 := (notify exLower exProp (exNotifier true) "msg1" None 0 (up 0)).1.2 in
  let n2 := (notify exLower exProp n1 "msg3" None 1 (up 1)).1.2 in
  let flushed := flush exLower n2 [up 10; down 20] [0; 1]%nat in
  BatchManager.queue <$> batchManager n2 = Some [msg1; msg3]
  ∧ flushed.1.1 = Resolved
  ∧ flushed.2
    = [Http (HttpClient.Fetch 1 exUrl "card:msg1");
       Http (HttpClient.Fetch 1 exUrl "card:msg3");
       ConsoleError (mkError "HTTP 500: Internal Server Error")]
  ∧ ∀ p e, OnError p e ∉ flushed.2.
Proof.
  intros n1 n2 flushed.
  assert (H : flushed.2
              = [Http (HttpClient.Fetch 1 exUrl "card:msg1");
                 Http (HttpClient.Fetch 1 exUrl "card:msg3");
                 ConsoleError (mkError "HTTP 500: Internal Server Error")])
    by reflexivity.
  split; [reflexivity|]. split; [reflexivity|]. split; [exact H|].
  rewrite H. intros p e Hin.
  repeat (apply elem_of_cons in Hin as [Hin|Hin]; [discriminate|]).
  by apply elem_of_nil in Hin.
Qed.

Lemma sendBatch_isolates_witness :
  ConsoleError (mkError "HTTP 500: Internal Server Error")
  ∈ (sendBatch exLower (exNotifier true) [msg1; msg3]
       [down 10; up 20] [1; 0]%nat).2
  ∧ Http (HttpClient.Fetch 1 exUrl "card:msg3")
    ∈ (sendBatch exLower (exNotifier true) [msg1; msg3]
         [down 10; up 20] [1; 0]%nat).2.
Proof.
  destruct (sendBatch_isolates exLower (exNotifier true) [msg1; msg3]
              [down 10; up 20] [1; 0]%nat) as (_ & Herr & Hhttp & _).
  split.
  - apply (Herr 0%nat msg1 (down 10) _
             [HttpClient.Fetch 1 exUrl "card:msg1"]).
    + set_solver.
    + reflexivity.
    + reflexivity.
    + reflexivity.
  - apply (Hhttp 1%nat msg3 (up 20)).
    + set_solver.
    + reflexivity.
    + reflexivity.
    + vm_compute. set_solver.
Defined.

(** C1, as stated, in immediate mode: the first delivery fails, so the
    key is not marked, and a second call for the same payload ten
    milliseconds later, well inside the TTL of 1000, posts again. And
    in batch mode with a schema whose key is the empty string: the key
    is falsy, nothing is checked or marked, and both calls queue. *)
Lemma second_call_delivers_after_failure :
  let first := notify exLower exProp (exNotifier false) "evt" None 0 (down 5) in
  let second := notify exLower exProp first.1.2 "evt" None 10 (up 15) in
  let blank1 :=
    notify exLower exProp (exNotifierOf exBlankSchema true) "evt" None 0 (up 0) in
  let blank2 := notify exLower exProp blank1.1.2 "evt" None 10 (up 10) in
  (first = (Failed (mkError "HTTP 500: Internal Server Error"),
            exNotifier false,
            [Http (HttpClient.Fetch 1 exUrl "card:evt")])
   ∧ second.1.1 = Sent
   ∧ second.2 = [Http (HttpClient.Fetch 1 exUrl "card:evt")]
   ∧ 10 <= 0 + 1000)
  ∧ (blank1.1.1 = Queued ∧ blank2.1.1 = Queued
     ∧ BatchManager.queue <$> batchManager blank2.1.2
       = Some [BatchManager.mkItem "evt" None;
               BatchManager.mkItem "evt" None]).
Proof.
  intros first second blank1 blank2. split.
  - split; [reflexivity|]. split; [reflexivity|]. split; [reflexivity|].
    lia.
  - split; [reflexivity|]. split; reflexivity.
Qed.

Lemma duplicate_suppressed_witness :
  let first := notify exLower exProp (exNotifier true) "evt" None 0 (up 0) in
  first.1.1 = Queued
  ∧ ∃ o2, notify exLower exProp first.1.2 "evt" (Some "errors") 1000 (up 1000)
          = (o2, first.1.2, [])
          ∧ dropped o2.
Proof.
  intros first. split; [reflexivity|].
  destruct (duplicate_suppressed exLower exProp (exNotifier true)
              (IdempotencyCache.new (Some 1000)) (λ p, Some p) "evt"
              "evt" None 0 (up 0) "evt" (Some "errors") 1000 (up 1000)
              Queued first.1.2 first.2)
    as [Hdrop _].
  - reflexivity.
  - reflexivity.
  - reflexivity.
  - reflexivity.
  - reflexivity.
  - simpl. lia.
  - apply Hdrop. by left.
Defined.

Lemma failed_batch_keeps_key_witness :
  let first := notify exLower exProp (exNotifier true) "evt" None 0 (up 0) in
  let flushed := flush exLower first.1.2 [down 5] [0%nat] in
  first.1.1 = Queued
  ∧ flushed.1.1 = Resolved
  ∧ flushed.2 = [Http (HttpClient.Fetch 1 exUrl "card:evt");
                 ConsoleError (mkError "HTTP 500: Internal Server Error")]
  ∧ ∃ o2, notify exLower exProp flushed.1.2 "evt" None 1000 (up 1000)
          = (o2, flushed.1.2, [])
          ∧ dropped o2.
Proof.
  intros first flushed.
  split; [reflexivity|]. split; [reflexivity|]. split; [reflexivity|].
  destruct (failed_batch_keeps_key exLower exProp (exNotifier true)
              (IdempotencyCache.new (Some 1000)) (λ p, Some p) "evt"
              "evt" None 0 (up 0) first.1.2 first.2
              [BatchManager.mkItem "evt" None] [down 5] [0%nat])
    as (_ & _ & _ & _ & _ & Hdrop).
  - reflexivity.
  - reflexivity.
  - reflexivity.
  - reflexivity.
  - intros d Hd. apply list_elem_of_singleton in Hd as ->. simpl. lia.
  - destruct (Hdrop "evt" None 1000 (up 1000)) as [_ H].
    + reflexivity.
    + simpl. lia.
    + exact H.
Defined.

Lemma notify_immediate_spec_witness :
  notify exLower exProp (exNotifier false) "evt" None 0 (up 5)
  = (Sent,
     markKey (exNotifier false) "evt" 5,
     [Http (HttpClient.Fetch 1 exUrl "card:evt")])
  ∧ notify exLower exProp (exNotifier false) "evt" None 0 (down 5)
    = (Failed (mkError "HTTP 500: Internal Server Error"),
       exNotifier false,
       [Http (HttpClient.Fetch 1 exUrl "card:evt")]).
Proof.
  split.
  - destruct (notify_immediate_spec exLower exProp (exNotifier false)
                "evt" None 0 (up 5) (exNotifier false)) as [H _].
    + reflexivity.
    + reflexivity.
    + reflexivity.
    + exact H.
  - destruct (notify_immediate_spec exLower exProp (exNotifier false)
                "evt" None 0 (down 5) (exNotifier false)) as [H _].
    + reflexivity.
    + reflexivity.
    + reflexivity.
    + exact H.
Defined.

End NotifierExamples.

(** * Further properties of the components *)

Section TruncateMore.
Import Truncate.

Lemma truncateMessage_cases (text : jsstring) (maxLength : Z) :
  (Z.of_nat (length text) <= maxLength
   ∧ truncateMessage text maxLength = text)
  ∨ (maxLength < Z.of_nat (length text)
     ∧ truncateMessage text maxLength
       = take (Z.to_nat (maxLength - 1)) text ++ [ellipsis]).
Proof.
  unfold truncateMessage.
  destruct (Z.leb_spec (Z.of_nat (length text)) maxLength); [by left|].
  right. split; [done|].
  destruct (Z.leb_spec maxLength 1).
  - replace (Z.to_nat (maxLength - 1)) with 0%nat by lia. done.
  - by rewrite substring_prefix by lia.
Qed.

(** X1: the result of [truncateMessage] has at most [maxLength] code
    units, and at most as many as the text, except that the ellipsis
    alone is always allowed (a bound below one, or the empty text with
    a negative bound, still gives the one ellipsis); and it agrees with
    the text on the first [maxLength - 1] code units. *)
Theorem truncateMessage_bounded (text : jsstring) (maxLength : Z) :
  Z.of_nat (length (truncateMessage text maxLength)) <= Z.max 1 maxLength
  ∧ (length (truncateMessage text maxLength) ≤ Nat.max 1 (length text))%nat
  ∧ take (Z.to_nat (maxLength - 1)) (truncateMessage text maxLength)
    = take (Z.to_nat (maxLength - 1)) text.
Proof.
  destruct (truncateMessage_cases text maxLength) as [[H ->]|[H ->]].
  - split; [lia|]. split; [lia | done].
  - rewrite length_app, length_take. simpl.
    split; [lia|]. split; [lia|].
    rewrite take_app_le by (rewrite length_take; lia).
    rewrite take_take. f_equal. lia.
Qed.

(** X2: truncating twice with the same bound is truncating once. *)
Theorem truncateMessage_idempotent (text : jsstring) (maxLength : Z) :
  truncateMessage (truncateMessage text maxLength) maxLength
  = truncateMessage text maxLength.
Proof.
  destruct (truncateMessage_cases text maxLength) as [[H ->]|[H ->]].
  - destruct (truncateMessage_cases text maxLength) as [[_ ->]|[H' _]];
      [done | lia].
  - set (r := take (Z.to_nat (maxLength - 1)) text ++ [ellipsis]).
    assert (Hr : Z.of_nat (length r) = Z.max 1 maxLength).
    { unfold r. rewrite length_app, length_take. simpl. lia. }
    destruct (truncateMessage_cases r maxLength) as [[_ ->]|[H' ->]];
      [done|].
    assert (maxLength < 1) by lia.
    unfold r. replace (Z.to_nat (maxLength - 1)) with 0%nat by lia.
    done.
Qed.

End TruncateMore.

Section CacheMore.
Import IdempotencyCache.

Lemma has_answer (c : t) (key : string) (now : Z) :
  (has c key now).1
  = match cache c !! key with
    | Some expiresAt => bool_decide (now <= expiresAt)
    | None => false
    end.
Proof.
  unfold has. destruct (cache c !! key) as [e|]; [|done].
  destruct (Z.gtb_spec now e); simpl.
  - by rewrite bool_decide_eq_false_2 by lia.
  - by rewrite bool_decide_eq_true_2 by lia.
Qed.

Lemma cleanup_lookup (c : t) (now : Z) (key : string) (e : Z) :
  cache (cleanup c now) !! key = Some e
  ↔ cache c !! key = Some e ∧ now <= e.
Proof.
  unfold cleanup. simpl. rewrite map_lookup_filter_Some. simpl.
  split; intros [? ?]; (split; [done | lia]).
Qed.

(** X3: the sweep removes exactly the entries with [now > expiresAt]
    and keeps every other entry as it is; the size does not grow; and
    no later call of [has] can tell whether the sweep has run. *)
Theorem cleanup_spec (c : t) (now : Z) :
  (∀ key e,
     cache (cleanup c now) !! key = Some e
     ↔ cache c !! key = Some e ∧ now <= e)
  ∧ (size (cleanup c now) ≤ size c)%nat
  ∧ ttlMs (cleanup c now) = ttlMs c
  ∧ (∀ key t, now <= t →
       (has (cleanup c now) key t).1 = (has c key t).1).
Proof.
  split; [intros; apply cleanup_lookup|]. split; [|split; [done|]].
  - unfold size, cleanup. simpl. apply map_subseteq_size, map_filter_subseteq.
  - intros key t Ht. rewrite !has_answer.
    destruct (cache c !! key) as [e|] eqn:He.
    + destruct (decide (now <= e)) as [Hle|Hgt].
      * by rewrite (proj2 (cleanup_lookup c now key e)).
      * destruct (cache (cleanup c now) !! key) as [e'|] eqn:He'.
        { apply cleanup_lookup in He' as [He' ?].
          rewrite He in He'. injection He' as <-. lia. }
        by rewrite bool_decide_eq_false_2 by lia.
    + destruct (cache (cleanup c now) !! key) as [e'|] eqn:He'; [|done].
      apply cleanup_lookup in He' as [He' ?]. by rewrite He in He'.
Qed.

(** X4: [destroy] clears the interval and leaves a cache that reports
    no key at any time and has size zero; calling it again changes
    nothing; and the cache can still be written afterwards, with the
    TTL it had. *)
Theorem destroy_spec (c : t) :
  cleanupTimer (destroy c) = false
  ∧ size (destroy c) = 0%nat
  ∧ (∀ key now, has (destroy c) key now = (false, destroy c))
  ∧ destroy (destroy c) = destroy c
  ∧ (∀ key t0 now,
       (has (set (destroy c) key t0) key now).1
       = bool_decide (now <= t0 + ttlMs c)).
Proof.
  split; [done|]. split; [apply map_size_empty|]. split; [|split; [done|]].
  - intros key now. unfold has, destroy. simpl. by rewrite lookup_empty.
  - intros key t0 now. rewrite has_answer. unfold set. simpl.
    by rewrite lookup_insert_eq.
Qed.

(** X5: [has] and [set] on one key leave every other key alone: its
    entry is unchanged, and so is what [has] answers for it. *)
Theorem cache_other_keys (c : t) (key key' : string) (now : Z) :
  key ≠ key' →
  cache (has c key now).2 !! key' = cache c !! key'
  ∧ cache (set c key now) !! key' = cache c !! key'
  ∧ (∀ t, (has (has c key now).2 key' t).1 = (has c key' t).1)
  ∧ (∀ t, (has (set c key now) key' t).1 = (has c key' t).1).
Proof.
  intros Hne.
  assert (H1 : cache (has c key now).2 !! key' = cache c !! key').
  { unfold has. destruct (cache c !! key) as [e|]; [|done].
    destruct (now >? e); [|done]. simpl. by apply lookup_delete_ne. }
  assert (H2 : cache (set c key now) !! key' = cache c !! key').
  { unfold set. simpl. by apply lookup_insert_ne. }
  split; [done|]. split; [done|].
  split; intros t; rewrite !has_answer; by rewrite ?H1, ?H2.
Qed.

Lemma cache_other_keys_witness :
  let c := set (set (new (Some 50)) "key1" 0) "key2" 10 in
  (has (has c "key1" 100).2 "key2" 60).1 = true
  ∧ (has (set c "key1" 100) "key2" 60).1 = true.
Proof.
  intros c.
  destruct (cache_other_keys c "key1" "key2" 100 ltac:(done))
    as (_ & _ & H3 & H4).
  split.
  - rewrite H3. reflexivity.
  - rewrite H4. reflexivity.
Defined.

Lemma has_cases (c : t) (key : string) (now : Z) :
  (∃ e, cache c !! key = Some e ∧ now <= e ∧ has c key now = (true, c))
  ∨ (∃ e, cache c !! key = Some e ∧ now > e
          ∧ has c key now = (false, with_cache c (delete key (cache c))))
  ∨ (cache c !! key = None ∧ has c key now = (false, c)).
Proof.
  unfold has. destruct (cache c !! key) as [e|]; [|by right; right].
  destruct (Z.gtb_spec now e).
  - right. left. exists e. split; [done|]. split; [lia | done].
  - left. exists e. split; [done|]. split; [lia | done].
Qed.

(** X6: what [has] answers for a key can only go from present to
    absent as time passes. While it answers present nothing is
    changed, and every earlier reading answers present too; once it has
    answered absent the entry is gone, and it answers absent for every
    reading, earlier ones included, until the key is set again. *)
Theorem has_over_time (c : t) (key : string) (now : Z) :
  ((has c key now).1 = true →
   (has c key now).2 = c
   ∧ ∀ t, t <= now → has c key t = (true, c))
  ∧ ((has c key now).1 = false →
     cache (has c key now).2 !! key = None
     ∧ ∀ t, has (has c key now).2 key t = (false, (has c key now).2)).
Proof.
  assert (Habs : ∀ c' : t, cache c' !! key = None →
            ∀ t, has c' key t = (false, c')).
  { intros c' Hc' t. unfold has. by rewrite Hc'. }
  destruct (has_cases c key now)
    as [(e & He & Hle & ->)|[(e & He & Hgt & ->)|(He & ->)]]; simpl.
  - split; [|done]. intros _. split; [done|]. intros t Ht.
    destruct (has_cases c key t)
      as [(e' & He' & _ & ->)|[(e' & He' & Hgt' & _)|(He' & _)]].
    + done.
    + rewrite He in He'. injection He' as <-. lia.
    + by rewrite He in He'.
  - split; [done|]. intros _.
    assert (Hd : cache (with_cache c (delete key (cache c))) !! key = None)
      by apply lookup_delete_eq.
    split; [done | by apply Habs].
  - split; [done|]. intros _. split; [done | by apply Habs].
Qed.

Lemma has_over_time_witness :
  let c := set (new (Some 50)) "key1" 0 in
  has c "key1" 20 = (true, c)
  ∧ has (has c "key1" 51).2 "key1" 20 = (false, (has c "key1" 51).2).
Proof.
  intros c. split.
  - destruct (has_over_time c "key1" 50) as [H _].
    destruct H as [_ H]; [reflexivity|]. apply H. lia.
  - destruct (has_over_time c "key1" 51) as [_ H].
    destruct H as [_ H]; [reflexivity|]. apply H.
Defined.

Lemma cleanup_spec_witness :
  let c := set (set (new (Some 50)) "key1" 0) "key2" 100 in
  (has (cleanup c 60) "key1" 70).1 = (has c "key1" 70).1
  ∧ (has (cleanup c 60) "key2" 70).1 = (has c "key2" 70).1.
Proof.
  intros c. destruct (cleanup_spec c 60) as (_ & _ & _ & H).
  split; apply H; lia.
Defined.

End CacheMore.

Section HttpMore.
Import HttpClient Expected.
Context {Payload : Type}.
Variables (c : HttpClient.t) (url : string) (payload : Payload).
Variable net : Z → Attempt.

Lemma post_zero :
  maxRetries c <= 0 →
  post c url payload net = (inl (mkError "Max retries reached"), []).
Proof.
  intros H. unfold post. by replace (Z.to_nat (maxRetries c)) with 0%nat by lia.
Qed.

(** How [post] ends, whatever the network does. *)
Lemma post_cases :
  (maxRetries c <= 0
   ∧ post c url payload net = (inl (mkError "Max retries reached"), []))
  ∨ (∃ k r, 1 <= k <= maxRetries c
            ∧ (∀ i, 1 <= i < k → is_Some (failure (net i)))
            ∧ net k = Responded r ∧ resp_ok r = true
            ∧ post c url payload net
              = (inr {| ok := true; status := resp_status r;
                        statusText := resp_statusText r;
                        body := resp_text r |},
                 schedule c url payload k))
  ∨ (∃ e, 1 <= maxRetries c
          ∧ (∀ i, 1 <= i <= maxRetries c → is_Some (failure (net i)))
          ∧ post c url payload net
            = (inl e, schedule c url payload (maxRetries c))).
Proof.
  destruct (Z_le_gt_dec (maxRetries c) 0) as [H0|H0].
  { left. split; [done | by apply post_zero]. }
  right.
  destruct (first_success net (Z.to_nat (maxRetries c))) as [Hall|Hone].
  - right. destruct (Hall (maxRetries c) ltac:(lia)) as [e He].
    exists e. split; [lia|]. split; [intros; apply Hall; lia|].
    apply post_exhausted; [lia| |done]. intros. apply Hall. lia.
  - left. destruct Hone as (k & r & Hk & Hfail & Hnet & Hok).
    exists k, r. split; [lia|]. split; [done|]. split; [done|].
    split; [done|]. apply post_success; [lia|done|done|done].
Qed.


(** X8: [post] returns exactly when one of the attempts
    [1 .. maxRetries] gets a 2xx response, and what it returns is such
    a response, with [ok] set: a response outside 2xx is never handed
    to the caller. *)
Theorem post_returns_2xx :
  (∀ r evs,
     post c url payload net = (inr r, evs) →
     ok r = true ∧ 200 <= status r < 300)
  ∧ ((∃ r evs, post c url payload net = (inr r, evs))
     ↔ ∃ k resp, 1 <= k <= maxRetries c ∧ net k = Responded resp
                 ∧ 200 <= resp_status resp < 300).
Proof.
  assert (Hok : ∀ resp, resp_ok resp = true ↔ 200 <= resp_status resp < 300).
  { intros resp. unfold resp_ok. rewrite andb_true_iff.
    rewrite Z.leb_le, Z.ltb_lt. done. }
  destruct post_cases
    as [[H0 ->]|[(k & r & Hk & Hfail & Hnet & Hr & ->)|(e & H1 & Hall & ->)]].
  - split; [done|]. split.
    + by intros (r & evs & ?).
    + intros (k & resp & Hk & _). lia.
  - split.
    + intros r' evs [= <- _]. simpl. split; [done | by apply Hok].
    + split; [|eauto]. intros _. exists k, r.
      split; [done|]. split; [done | by apply Hok].
  - split; [done|]. split.
    + by intros (r & evs & ?).
    + intros (k & resp & Hk & Hnet & Hst).
      destruct (Hall k Hk) as [e' He']. unfold failure in He'.
      rewrite Hnet in He'. by rewrite (proj2 (Hok resp) Hst) in He'.
Qed.







End HttpMore.

Section HttpMoreExamples.
Import HttpClient Expected.


Lemma post_returns_2xx_witness :
  ∃ r evs,
    post (HttpClient.new None None) exUrl "card" (NotifierImpl.net (up 0)) = (inr r, evs).
Proof.
  destruct (post_returns_2xx (HttpClient.new None None) exUrl "card"
              (NotifierImpl.net (up 0))) as [_ H].
  apply H. exists 1, (mkResponse 200 "OK" "{}").
  split; [simpl; lia|]. split; [reflexivity | simpl; lia].
Defined.


End HttpMoreExamples.

Section BatchMore.
Import BatchManager Runtime Expected.
Context {TPayload : Type}.
Implicit Types (m : BatchManager.t TPayload) (w : World TPayload).

Lemma run_adds (items : list (BatchItem TPayload)) :
  ∀ w,
    run w (adds items)
    = Some {| mgr := with_queue (mgr w) (queue (mgr w) ++ items);
              immediates :=
                immediates w
                + triggers (Options.size (options (mgr w)))
                    (length (queue (mgr w))) (length items);
              running := running w; taken := taken w;
              settled := settled w |}.
Proof.
  induction items as [|[p n] items IH]; intros w.
  - simpl. rewrite app_nil_r. unfold triggers.
    replace (Z.to_nat _) with 0%nat by lia.
    rewrite Nat.add_0_r. by destruct w as [[] ? ? ? ?].
  - change (run w (adds (mkItem p n :: items)))
      with (match step w (Add p n) with
            | Some w' => run w' (adds items)
            | None => None
            end).
    rewrite step_add, IH. simpl. unfold with_queue. simpl.
    rewrite <- app_assoc. simpl. do 2 f_equal.
    rewrite length_app. simpl. unfold triggers.
    case_bool_decide; lia.
Qed.

Lemma called_flush_calls w w0 (P : list (BatchItem TPayload) → Prop) :
  taken w0 = taken w →
  (queue (mgr w) ≠ [] → P (queue (mgr w))) →
  Forall P (onFlushCalls w) →
  Forall P (onFlushCalls (called w0 (flush (mgr w)))).
Proof.
  intros Ht Hq HP. unfold onFlushCalls, called.
  destruct (flush_cases (mgr w)) as [(-> & _)|(-> & _ & Hne)]; simpl.
  - by rewrite Ht.
  - rewrite Ht, omap_app. apply Forall_app. split; [done|].
    simpl. constructor; [by apply Hq | constructor].
Qed.

Lemma step_calls_nonempty w a w' :
  step w a = Some w' →
  Forall (λ b, b ≠ []) (onFlushCalls w) →
  Forall (λ b, b ≠ []) (onFlushCalls w').
Proof.
  intros Hs HP. destruct a as [p n| | | | |r]; simpl in Hs.
  - by injection Hs as <-.
  - injection Hs as <-. by apply called_flush_calls.
  - unfold onFlushCalls in *.
    destruct (destroy_cases (mgr w)) as
      [(_ & Hq & _ & Hd)|[(_ & Hq & _ & Hd)|(_ & Hd)]];
      rewrite Hd in Hs; unfold called in Hs; simpl in Hs;
      destruct (bool_decide _) in Hs; simpl in Hs;
      injection Hs as <-; simpl; rewrite ?omap_app; simpl;
      rewrite ?app_nil_r; try done;
      apply Forall_app; (split; [done|]); by repeat constructor.
  - destruct (timer (mgr w)); [|done]. injection Hs as <-.
    unfold intervalCallback. destruct (0 <? _); [|done].
    by apply called_flush_calls.
  - destruct (immediates w) as [|k]; [done|]. injection Hs as <-.
    by apply (called_flush_calls w).
  - destruct (running w); [done|]. by injection Hs as <-.
Qed.

(** X10: [onFlush] is never called with an empty batch, by whatever
    route the flush was requested: a call of [flush] or [destroy], the
    interval, or the size trigger. *)
Theorem onFlush_never_empty m acts w :
  run (boot m) acts = Some w →
  Forall (λ batch, batch ≠ []) (onFlushCalls w).
Proof.
  assert (H : ∀ acts w0 w', run w0 acts = Some w' →
            Forall (λ b, b ≠ []) (onFlushCalls w0) →
            Forall (λ b, b ≠ []) (onFlushCalls w')).
  { clear. induction acts as [|a acts IH]; intros w0 w' Hr HP; simpl in Hr.
    - by injection Hr as <-.
    - destruct (step w0 a) as [w1|] eqn:Hs; [|done].
      eapply IH; [exact Hr|]. by eapply step_calls_nonempty. }
  intros Hr. eapply H; [exact Hr|]. constructor.
Qed.

Lemma step_timer w a w' :
  step w a = Some w' → timer (mgr w) = false →
  timer (mgr w') = false ∧ a ≠ Interval.
Proof.
  intros Hs Ht. destruct a as [p n| | | | |r]; simpl in Hs.
  - by injection Hs as <-.
  - injection Hs as <-. unfold called.
    by destruct (flush_cases (mgr w)) as [(-> & _)|(-> & _ & _)].
  - destruct (destroy_cases (mgr w)) as
      [(_ & _ & _ & Hd)|[(_ & _ & _ & Hd)|(_ & Hd)]];
      rewrite Hd in Hs; unfold called in Hs; simpl in Hs;
      destruct (bool_decide _) in Hs; simpl in Hs;
      by injection Hs as <-.
  - by rewrite Ht in Hs.
  - destruct (immediates w) as [|k]; [done|]. injection Hs as <-.
    unfold called.
    by destruct (flush_cases (mgr w)) as [(-> & _)|(-> & _ & _)].
  - destruct (running w); [done|]. by injection Hs as <-.
Qed.

Lemma step_destroy_timer w :
  ∃ w', step w Destroy = Some w' ∧ timer (mgr w') = false.
Proof.
  simpl.
  destruct (destroy_cases (mgr w)) as
    [(_ & _ & _ & Hd)|[(_ & _ & _ & Hd)|(_ & Hd)]];
    rewrite Hd; unfold called; simpl;
    destruct (bool_decide _); simpl; by eexists.
Qed.

(** X11: nothing arms the interval again. [destroy] always goes
    through and clears it, and in every history from then on the
    interval callback never runs and the timer stays cleared, whatever
    is called afterwards. *)
Theorem timer_stays_cleared w acts w' :
  run w (Destroy :: acts) = Some w' →
  timer (mgr w') = false ∧ Interval ∉ acts.
Proof.
  assert (H : ∀ acts w0 w1, timer (mgr w0) = false →
            run w0 acts = Some w1 →
            timer (mgr w1) = false ∧ Interval ∉ acts).
  { clear. induction acts as [|a acts IH]; intros w0 w1 Ht Hr; simpl in Hr.
    - injection Hr as <-. split; [done | apply not_elem_of_nil].
    - destruct (step w0 a) as [w2|] eqn:Hs; [|done].
      destruct (step_timer _ _ _ Hs Ht) as [Ht2 Ha].
      destruct (IH _ _ Ht2 Hr) as [Ht1 Hin]. split; [done|].
      intros [Heq|?]%elem_of_cons; [by symmetry in Heq | done]. }
  intros Hr. change (run w (Destroy :: acts))
    with (match step w Destroy with
          | Some w1 => run w1 acts
          | None => None
          end) in Hr.
  destruct (step_destroy_timer w) as (w1 & Hs & Ht). rewrite Hs in Hr.
  by eapply H.
Qed.

Lemma destroy_again m : destroy (destroy m).1 = ((destroy m).1, None).
Proof.
  destruct m as [q tm [sz iv fod] f].
  destruct q, tm, fod, f; reflexivity.
Qed.

(** X12: when no flush is in progress, [destroy] with [flushOnDestroy]
    set hands the whole queue, if there is one, to [onFlush] in a
    single call and leaves the queue empty; with [flushOnDestroy] off
    it calls nothing and drops the queue. In every state, a second
    [destroy] calls nothing and changes nothing. *)
Theorem destroy_spec_idle m :
  (flushing m = false →
   Options.flushOnDestroy (options m) = true → queue m ≠ [] →
   destroy m = (mk [] false (options m) true, Some (queue m)))
  ∧ (flushing m = false →
     Options.flushOnDestroy (options m) = true → queue m = [] →
     destroy m = (mk [] false (options m) false, None))
  ∧ (Options.flushOnDestroy (options m) = false →
     destroy m = (mk [] false (options m) (flushing m), None))
  ∧ destroy (destroy m).1 = ((destroy m).1, None).
Proof.
  split; [|split; [|split; [|apply destroy_again]]].
  - intros Hf Ho Hq.
    destruct (destroy_cases m) as
      [(_ & _ & Hf' & _)|[(_ & _ & _ & Hd)|([Ho'|Hq'] & _)]];
      congruence.
  - intros Hf Ho Hq.
    destruct (destroy_cases m) as
      [(_ & Hq' & _)|[(_ & Hq' & _)|(_ & Hd)]]; [done | done |].
    by rewrite Hd, Hf.
  - intros Ho.
    destruct (destroy_cases m) as
      [(Ho' & _)|[(Ho' & _)|(_ & Hd)]]; congruence.
Qed.

Lemma run_immediates_skipped (j : nat) :
  ∀ w k,
    flushing (mgr w) = true → immediates w = (j + k)%nat →
    run w (replicate j Immediate)
    = Some {| mgr := mgr w; immediates := k; running := running w;
              taken := taken w; settled := settled w |}.
Proof.
  induction j as [|j IH]; intros w k Hf Hi.
  - simpl in *. subst k. by destruct w.
  - cbn [replicate run step]. rewrite Hi. cbn [Nat.add].
    unfold called. rewrite flush_noop by (simpl; auto). simpl.
    by rewrite (IH _ k).
Qed.

(** X13: the threshold triggers a flush but does not cap a batch. On
    an idle manager with an empty queue, submitting more items than
    the threshold in one go schedules one [setImmediate] callback for
    every submission from the threshold on; the first callback to run
    hands all the items to [onFlush] in one batch, and the others find
    a flush in progress and do nothing. *)
Theorem burst_is_one_batch w (items : list (BatchItem TPayload)) :
  queue (mgr w) = [] → flushing (mgr w) = false → immediates w = 0%nat →
  1 <= Options.size (options (mgr w)) <= Z.of_nat (length items) →
  let k := Z.to_nat (Z.of_nat (length items)
                     - Options.size (options (mgr w)) + 1) in
  ∃ w1 w2,
    run w (adds items) = Some w1
    ∧ queue (mgr w1) = items ∧ immediates w1 = k
    ∧ onFlushCalls w1 = onFlushCalls w
    ∧ run w1 (replicate k Immediate) = Some w2
    ∧ onFlushCalls w2 = onFlushCalls w ++ [items]
    ∧ queue (mgr w2) = [] ∧ immediates w2 = 0%nat.
Proof.
  intros Hq Hf Hi Hsz k.
  assert (Hk : k = S (pred k)) by (unfold k; lia).
  exists {| mgr := with_queue (mgr w) items; immediates := k;
            running := running w; taken := taken w;
            settled := settled w |},
         {| mgr := mk [] (timer (mgr w)) (options (mgr w)) true;
            immediates := 0; running := S (running w);
            taken := taken w ++ [Flushed items];
            settled := settled w |}.
  split.
  { rewrite run_adds, Hq, Hi. simpl. do 2 f_equal.
    unfold triggers, k. simpl. lia. }
  split; [done|]. split; [done|]. split; [done|]. split.
  { rewrite Hk. cbn [replicate run step]. cbn [immediates].
    unfold called. rewrite flush_drains; simpl; [|done|].
    - rewrite (run_immediates_skipped (pred k) _ 0%nat); simpl;
        [done | done | lia].
    - intros ->. simpl in Hsz. lia. }
  split; [|done]. unfold onFlushCalls. simpl. by rewrite omap_app.
Qed.

(** X14: a flush requested while one is in progress is dropped, not
    postponed, and the items submitted meanwhile wait in the queue:
    the first flush gets the queue as it was, and the next flush
    requested after it has settled gets exactly the later items, in
    order. *)
Theorem later_items_wait w (items : list (BatchItem TPayload)) r :
  flushing (mgr w) = false → queue (mgr w) ≠ [] → items ≠ [] →
  ∃ w1 w2,
    run w (Flush :: adds items ++ [Flush]) = Some w1
    ∧ onFlushCalls w1 = onFlushCalls w ++ [queue (mgr w)]
    ∧ queue (mgr w1) = items ∧ flushing (mgr w1) = true
    ∧ run w1 [OnFlushSettles r; Flush] = Some w2
    ∧ onFlushCalls w2 = onFlushCalls w ++ [queue (mgr w); items]
    ∧ queue (mgr w2) = [] ∧ settled w2 = settled w ++ [r].
Proof.
  intros Hf Hq Hitems.
  set (o := options (mgr w)). set (tm := timer (mgr w)).
  set (k := (immediates w
             + triggers (Options.size o) 0 (length items))%nat).
  exists {| mgr := mk items tm o true; immediates := k;
            running := S (running w);
            taken := taken w ++ [Flushed (queue (mgr w))];
            settled := settled w |},
         {| mgr := mk [] tm o true; immediates := k;
            running := S (running w);
            taken := (taken w ++ [Flushed (queue (mgr w))])
                     ++ [Flushed items];
            settled := settled w ++ [r] |}.
  split.
  { change (run w (Flush :: adds items ++ [Flush]))
      with (match step w Flush with
            | Some w' => run w' (adds items ++ [Flush])
            | None => None
            end).
    rewrite step_flush_calls, run_app, run_adds by done. simpl.
    unfold called. by rewrite flush_noop by (simpl; auto). }
  split; [unfold onFlushCalls; simpl; by rewrite omap_app|].
  split; [done|]. split; [done|]. split.
  { simpl. unfold called, flush_finally, with_flushing. simpl.
    rewrite flush_drains by done. done. }
  split; [|done].
  unfold onFlushCalls. simpl. rewrite !omap_app, <- app_assoc. done.
Qed.

End BatchMore.

Section BatchMoreExamples.
Import BatchManager Runtime Expected.

Lemma onFlush_never_empty_witness :
  ∃ w, run (boot (new (TPayload := string) 10 5000 None))
           [Flush; Add "msg1" None; Interval; OnFlushSettles Resolved;
            Interval; Destroy]
       = Some w
       ∧ onFlushCalls w = [[msg1]]
       ∧ Forall (λ batch, batch ≠ []) (onFlushCalls w).
Proof.
  eexists. split; [reflexivity|]. split; [reflexivity|].
  exact (onFlush_never_empty (new 10 5000 None)
           [Flush; Add "msg1" None; Interval; OnFlushSettles Resolved;
            Interval; Destroy] _ eq_refl).
Defined.

Lemma timer_stays_cleared_witness :
  ∃ w, run (boot (new (TPayload := string) 10 5000 None))
           [Destroy; Add "msg1" None; Flush; OnFlushSettles Resolved]
       = Some w
       ∧ timer (mgr (boot (new (TPayload := string) 10 5000 None))) = true
       ∧ timer (mgr w) = false
       ∧ Interval ∉ [Add "msg1" None; Flush; OnFlushSettles Resolved].
Proof.
  eexists. split; [reflexivity|]. split; [reflexivity|].
  exact (timer_stays_cleared (boot (new 10 5000 None))
           [Add "msg1" None; Flush; OnFlushSettles Resolved] _ eq_refl).
Defined.

Lemma destroy_spec_idle_witness :
  let m := (add (new 10 5000 None) "msg1" None).1 in
  destroy m = (mk [] false (options m) true, Some [msg1])
  ∧ destroy (destroy m).1 = ((destroy m).1, None).
Proof.
  intros m.
  destruct (destroy_spec_idle m) as (H & _ & _ & Hagain).
  split; [|exact Hagain].
  apply H; [reflexivity | reflexivity | discriminate].
Defined.

Lemma burst_is_one_batch_witness :
  ∃ w1 w2,
    run (boot (new 2 5000 None)) (adds [msg1; msg2; msg3]) = Some w1
    ∧ queue (mgr w1) = [msg1; msg2; msg3] ∧ immediates w1 = 2%nat
    ∧ onFlushCalls w1 = []
    ∧ run w1 [Immediate; Immediate] = Some w2
    ∧ onFlushCalls w2 = [[msg1; msg2; msg3]]
    ∧ queue (mgr w2) = [] ∧ immediates w2 = 0%nat.
Proof.
  apply (burst_is_one_batch (boot (new 2 5000 None)) [msg1; msg2; msg3]);
    [reflexivity | reflexivity | reflexivity | simpl; lia].
Defined.

Lemma later_items_wait_witness :
  let m := (add (new 10 5000 None) "msg1" None).1 in
  ∃ w1 w2,
    run (boot m) (Flush :: adds [msg2; msg3] ++ [Flush]) = Some w1
    ∧ onFlushCalls w1 = [[msg1]]
    ∧ queue (mgr w1) = [msg2; msg3] ∧ flushing (mgr w1) = true
    ∧ run w1 [OnFlushSettles (Rejected (mkError "boom")); Flush] = Some w2
    ∧ onFlushCalls w2 = [[msg1]; [msg2; msg3]]
    ∧ queue (mgr w2) = []
    ∧ settled w2 = [Rejected (mkError "boom")].
Proof.
  intros m.
  apply (later_items_wait (boot m) [msg2; msg3]
           (Rejected (mkError "boom")));
    [reflexivity | discriminate | discriminate].
Defined.

End BatchMoreExamples.

Section NotifierMore.
Import NotifierImpl Expected.
Context {TPayload CardPayload : Type}.
Variable toLowerCase : string → string.
Variable prop : TPayload → string → option string.
Implicit Types (n : NotifierImpl.t TPayload CardPayload) (payload : TPayload).

(** The four ways through [notify]. *)
Lemma notify_cases n payload w now d :
  (notImportant prop n payload = true
   ∧ notify toLowerCase prop n payload w now d = (NotImportant, n, []))
  ∨ (notImportant prop n payload = false
     ∧ (alreadySent n payload now).1 = true
     ∧ notify toLowerCase prop n payload w now d
       = (AlreadySent, (alreadySent n payload now).2, []))
  ∨ (notImportant prop n payload = false
     ∧ (alreadySent n payload now).1 = false
     ∧ ∃ bm,
         batchManager n = Some bm
         ∧ notify toLowerCase prop n payload w now d
           = (Queued,
              markKey
                (with_batchManager (alreadySent n payload now).2
                   (Some (BatchManager.add bm payload w).1))
                payload (markedAt d),
              if (BatchManager.add bm payload w).2
              then [SetImmediate] else []))
  ∨ (notImportant prop n payload = false
     ∧ (alreadySent n payload now).1 = false
     ∧ batchManager n = None
     ∧ notify toLowerCase prop n payload w now d
       = match (deliver toLowerCase n payload w d).1 with
         | inl e =>
             (Failed e, (alreadySent n payload now).2,
              Http <$> (deliver toLowerCase n payload w d).2)
         | inr _ =>
             (Sent,
              markKey (alreadySent n payload now).2 payload (markedAt d),
              Http <$> (deliver toLowerCase n payload w d).2)
         end).
Proof.
  unfold notify. destruct (notImportant prop n payload); [by left|].
  right. destruct (alreadySent_with_cache n payload now) as (c' & Hn1 & _).
  destruct (alreadySent n payload now) as [seen n1]. simpl in *. subst n1.
  destruct seen; [by left|]. right. simpl.
  destruct (batchManager n) as [bm|] eqn:Hbm.
  - left. split; [done|]. split; [done|]. exists bm. split; [done|].
    by destruct (BatchManager.add bm payload w).
  - right. split; [done|]. split; [done|]. split; [done|].
    rewrite sendSingle_deliver, deliver_with_cache.
    by destruct (deliver _ _ _ _ _) as [[e|r] evs].
Qed.

Lemma notImportant_true n payload :
  notImportant prop n payload = true
  ↔ level n = important
    ∧ ∃ isImportant event,
        Schema.isImportantEvent (schema n) = Some isImportant
        ∧ extractEvent prop payload = Some event ∧ event ≠ ""
        ∧ isImportant event = false.
Proof.
  unfold notImportant, truthy. split.
  - destruct (level n); [done|].
    destruct (Schema.isImportantEvent (schema n)) as [f|]; [|done].
    destruct (extractEvent prop payload) as [e|]; [|done].
    case_bool_decide; [done|]. intros Hf%negb_true_iff.
    split; [done|]. by exists f, e.
  - intros (-> & f & e & -> & -> & Hne & Hf).
    rewrite bool_decide_eq_false_2 by done. by rewrite Hf.
Qed.

Lemma notify_NotImportant n payload w now d :
  (notify toLowerCase prop n payload w now d).1.1 = NotImportant
  ↔ notImportant prop n payload = true.
Proof.
  destruct (notify_cases n payload w now d)
    as [[Hni ->]|[(Hni & _ & ->)|[(Hni & _ & bm & _ & ->)|(Hni & _ & _ & ->)]]];
    rewrite Hni; simpl; try done.
  by destruct (deliver _ _ _ _ _).1.
Qed.

(** X15: the importance filter. [notify] returns at the filter exactly
    when the level is [important], the schema has an [isImportantEvent]
    and rejects the event, where the event is the first of the
    properties [event], [type] and [status] that is not nullish, and is
    not the empty string. The call then has no effect and changes
    nothing, the cache included. An empty [event] hides [type] and
    [status], so such a payload is never filtered; nor is a payload
    with none of the three. *)
Theorem notify_filter n payload w now d :
  ((notify toLowerCase prop n payload w now d).1.1 = NotImportant
   ↔ level n = important
     ∧ ∃ isImportant event,
         Schema.isImportantEvent (schema n) = Some isImportant
         ∧ extractEvent prop payload = Some event ∧ event ≠ ""
         ∧ isImportant event = false)
  ∧ ((notify toLowerCase prop n payload w now d).1.1 = NotImportant →
     notify toLowerCase prop n payload w now d = (NotImportant, n, []))
  ∧ (prop payload "event" = Some "" →
     (notify toLowerCase prop n payload w now d).1.1 ≠ NotImportant)
  ∧ (prop payload "event" = None → prop payload "type" = None →
     prop payload "status" = None →
     (notify toLowerCase prop n payload w now d).1.1 ≠ NotImportant).
Proof.
  split; [by rewrite notify_NotImportant, notImportant_true|].
  split; [|split].
  - rewrite notify_NotImportant. intros Hni.
    destruct (notify_cases n payload w now d)
      as [[_ ->]|[(Hni' & _)|[(Hni' & _)|(Hni' & _)]]];
      [done | congruence..].
  - intros He. rewrite notify_NotImportant, notImportant_true.
    intros (_ & f & e & _ & Hev & Hne & _). unfold extractEvent in Hev.
    rewrite He in Hev. congruence.
  - intros He Ht Hs. rewrite notify_NotImportant, notImportant_true.
    intros (_ & f & e & _ & Hev & _). unfold extractEvent in Hev.
    rewrite He, Ht, Hs in Hev. done.
Qed.

(** X16: the two modes of [notify]. With a batch manager a call never
    makes a request: it is dropped or it appends the item to the queue,
    and its only possible effect is the one [setImmediate] when the
    queue has reached the threshold. Without one it never queues and
    never calls [setImmediate], and a dropped call has no effect. *)
Theorem notify_modes n payload w now d :
  let r := notify toLowerCase prop n payload w now d in
  (∀ bm,
     batchManager n = Some bm →
     (r.1.1 = NotImportant ∨ r.1.1 = AlreadySent ∨ r.1.1 = Queued)
     ∧ (r.1.1 = Queued →
        BatchManager.queue <$> batchManager r.1.2
        = Some (BatchManager.queue bm ++ [BatchManager.mkItem payload w])
        ∧ r.2 = if Z.of_nat (length (BatchManager.queue bm)) + 1
                   >=? BatchManager.Options.size (BatchManager.options bm)
                then [SetImmediate] else [])
     ∧ (r.1.1 ≠ Queued → batchManager r.1.2 = Some bm ∧ r.2 = []))
  ∧ (batchManager n = None →
     r.1.1 ≠ Queued ∧ batchManager r.1.2 = None
     ∧ (∀ ev, ev ∈ r.2 → ∃ h, ev = Http h)
     ∧ (r.1.1 = NotImportant ∨ r.1.1 = AlreadySent → r.2 = [])).
Proof.
  intros r. subst r.
  destruct (alreadySent_with_cache n payload now) as (c' & Hn1 & _).
  destruct (notify_cases n payload w now d)
    as [[_ ->]|[(_ & _ & ->)|[(_ & _ & bm & Hbm & ->)|(_ & _ & Hbm & ->)]]];
    rewrite ?Hn1; simpl.
  - split; [intros bm Hbm; split; [auto | done]|].
    intros Hbm. split; [done|]. split; [done|].
    split; [by intros ev ?%elem_of_nil | done].
  - split; [intros bm Hbm; split; [auto | done]|].
    intros Hbm. split; [done|]. split; [done|].
    split; [by intros ev ?%elem_of_nil | done].
  - split; [|by rewrite Hbm]. intros bm0. rewrite Hbm. intros [= <-].
    split; [auto|]. split; [|done]. intros _.
    rewrite markKey_with_cache. simpl. split; [done|].
    rewrite length_app. simpl.
    by replace (Z.of_nat (length (BatchManager.queue bm) + 1))
      with (Z.of_nat (length (BatchManager.queue bm)) + 1) by lia.
  - split; [by rewrite Hbm|]. intros _.
    destruct (deliver toLowerCase n payload w d) as [[e|resp] evs]; simpl.
    + split; [done|]. split; [done|]. split.
      * intros ev (h & -> & _)%list_elem_of_fmap. eauto.
      * by intros [|].
    + split; [done|]. rewrite markKey_with_cache. simpl.
      split; [done|]. split.
      * intros ev (h & -> & _)%list_elem_of_fmap. eauto.
      * by intros [|].
Qed.

Lemma markKey_without_key (m : NotifierImpl.t TPayload CardPayload)
    payload now :
  cache m = None ∨ Schema.getIdempotencyKey (schema m) = None
  ∨ (∃ getKey, Schema.getIdempotencyKey (schema m) = Some getKey
               ∧ truthy (getKey payload) = None) →
  markKey m payload now = m.
Proof.
  unfold markKey. intros [->|[->|(g & -> & ->)]]; [done| |].
  - by destruct (cache m).
  - by destruct (cache m).
Qed.

Lemma alreadySent_without_key n payload now :
  cache n = None ∨ Schema.getIdempotencyKey (schema n) = None
  ∨ (∃ getKey, Schema.getIdempotencyKey (schema n) = Some getKey
               ∧ truthy (getKey payload) = None) →
  alreadySent n payload now = (false, n).
Proof.
  unfold alreadySent. intros [->|[->|(g & -> & ->)]]; [done| |].
  - by destruct (cache n).
  - by destruct (cache n).
Qed.

(** X17: idempotency needs a cache, a key extractor and a key that is
    not empty. Without any one of them [notify] never answers
    [AlreadySent], and the cache is not written, whatever the mode and
    whatever becomes of the delivery. *)
Theorem no_key_no_suppression n payload w now d :
  cache n = None ∨ Schema.getIdempotencyKey (schema n) = None
  ∨ (∃ getKey, Schema.getIdempotencyKey (schema n) = Some getKey
               ∧ truthy (getKey payload) = None) →
  (notify toLowerCase prop n payload w now d).1.1 ≠ AlreadySent
  ∧ cache (notify toLowerCase prop n payload w now d).1.2 = cache n.
Proof.
  intros Hk. pose proof (alreadySent_without_key n payload now Hk) as Has.
  destruct (notify_cases n payload w now d)
    as [[_ ->]|[(_ & Hs & _)|[(_ & _ & bm & Hbm & ->)|(_ & _ & Hbm & ->)]]].
  - done.
  - by rewrite Has in Hs.
  - rewrite Has. simpl. split; [done|].
    by rewrite markKey_without_key.
  - rewrite Has. simpl.
    destruct (deliver toLowerCase n payload w d).1; simpl; [done|].
    split; [done|]. by rewrite markKey_without_key.
Qed.


(** X18: batching changes when a payload is delivered, not what is
    done for it. A payload queued on an idle notifier and then flushed
    causes the requests its immediate delivery causes on the same
    notifier without a batch manager. The difference is in the
    reporting: [notify] has answered before any request was made, and
    a failure that the immediate [notify] throws is written to the
    console by the flush, which resolves. *)
Theorem batched_equals_immediate n bm payload w now d d' :
  batchManager n = Some bm →
  BatchManager.queue bm = [] → BatchManager.flushing bm = false →
  notImportant prop n payload = false →
  (alreadySent n payload now).1 = false →
  let queued := notify toLowerCase prop n payload w now d in
  let flushed := flush toLowerCase queued.1.2 [d'] [0%nat] in
  let direct :=
    notify toLowerCase prop (with_batchManager n None) payload w now d' in
  queued.1.1 = Queued
  ∧ (∀ h, Http h ∉ queued.2)
  ∧ flushed.1.1 = Resolved
  ∧ flushed.2
    = direct.2 ++ match direct.1.1 with
                  | Failed e => [ConsoleError e]
                  | _ => []
                  end
  ∧ (direct.1.1 = Sent ∨ ∃ e, direct.1.1 = Failed e)
  ∧ BatchManager.queue <$> batchManager flushed.1.2 = Some [].
Proof.
  intros Hbm Hq Hf Hni Has queued flushed direct.
  destruct (alreadySent_with_cache n payload now) as (c' & Hn1 & _).
  assert (Hqd : queued
                = (Queued,
                   markKey
                     (with_batchManager (with_cache n c')
                        (Some (BatchManager.add bm payload w).1))
                     payload (markedAt d),
                   if (BatchManager.add bm payload w).2
                   then [SetImmediate] else [])).
  { unfold queued.
    destruct (notify_cases n payload w now d)
      as [[H _]|[(_ & H & _)|[(_ & _ & bm0 & Hbm0 & ->)|(_ & _ & H & _)]]];
      [congruence | congruence | | congruence].
    rewrite Hbm in Hbm0. injection Hbm0 as <-. by rewrite Hn1. }
  assert (Hdirect : direct
                    = match (deliver toLowerCase n payload w d').1 with
                      | inl e =>
                          (Failed e,
                           (alreadySent (with_batchManager n None)
                              payload now).2,
                           Http <$> (deliver toLowerCase n payload w d').2)
                      | inr _ =>
                          (Sent,
                           markKey
                             (alreadySent (with_batchManager n None)
                                payload now).2 payload (markedAt d'),
                           Http <$> (deliver toLowerCase n payload w d').2)
                      end).
  { unfold direct.
    destruct (notify_cases (with_batchManager n None) payload w now d')
      as [[H _]|[(_ & H & _)|[(_ & _ & bm0 & H & _)|(_ & _ & _ & ->)]]];
      try done.
    - change (notImportant prop (with_batchManager n None) payload)
        with (notImportant prop n payload) in H. congruence.
    - assert ((alreadySent (with_batchManager n None) payload now).1
              = (alreadySent n payload now).1) as Heq.
      { unfold alreadySent. simpl.
        destruct (cache n), (Schema.getIdempotencyKey (schema n));
          try done.
        destruct (truthy _); [|done].
        by destruct (IdempotencyCache.has _ _ _). }
      congruence. }
  assert (Hfl : flushed.1.1 = Resolved
                ∧ flushed.2
                  = alone toLowerCase n
                      [BatchManager.mkItem payload w] [d'] 0
                ∧ BatchManager.queue <$> batchManager flushed.1.2
                  = Some []).
  { unfold flushed. rewrite Hqd. simpl.
    rewrite markKey_with_cache. unfold flush. simpl.
    unfold BatchManager.flush. simpl. rewrite Hf, Hq. simpl.
    match goal with
    | |- context [sendBatch toLowerCase ?m ?b ?l ?o] =>
        destruct (sendBatch_spec toLowerCase m b l o) as [c1 ->]
    end.
    simpl. by rewrite app_nil_r. }
  destruct Hfl as (Hr & Hevs & Hqueue).
  split; [by rewrite Hqd|]. split.
  { intros h. rewrite Hqd.
    destruct (BatchManager.add bm payload w).2; simpl.
    - by intros [=]%list_elem_of_singleton.
    - apply not_elem_of_nil. }
  split; [done|]. split; [|split; [|done]].
  - rewrite Hevs, Hdirect. unfold alone. simpl.
    destruct (deliver toLowerCase n payload w d') as [[e|resp] evs];
      simpl; [done | by rewrite app_nil_r].
  - rewrite Hdirect.
    destruct (deliver toLowerCase n payload w d').1; simpl; eauto.
Qed.






End NotifierMore.

Section NotifierMoreExamples.
Import NotifierImpl Expected.

Lemma notify_filter_witness :
  notify exLower exEventProp exFilterNotifier "PROCESSING" None 0 (up 0)
  = (NotImportant, exFilterNotifier, [])
  ∧ (notify exLower exEventProp exFilterNotifier "" None 0 (up 0)).1.1
    ≠ NotImportant.
Proof.
  destruct (notify_filter exLower exEventProp exFilterNotifier
              "PROCESSING" None 0 (up 0)) as (Hiff & Hsame & _).
  destruct (notify_filter exLower exEventProp exFilterNotifier
              "" None 0 (up 0)) as (_ & _ & Hempty & _).
  split.
  - apply Hsame, Hiff. split; [reflexivity|].
    exists (λ event, negb (String.eqb event "PROCESSING")), "PROCESSING".
    split; [reflexivity|]. split; [reflexivity|].
    split; [discriminate | reflexivity].
  - apply Hempty. reflexivity.
Defined.

Lemma notify_modes_witness :
  let r := notify exLower exProp (exNotifier true) "evt" None 0 (up 0) in
  r.1.1 = Queued
  ∧ BatchManager.queue <$> batchManager r.1.2
    = Some [BatchManager.mkItem "evt" None]
  ∧ r.2 = [].
Proof.
  intros r.
  destruct (notify_modes exLower exProp (exNotifier true) "evt" None 0 (up 0))
    as [Hbatch _].
  destruct (Hbatch (BatchManager.new 10 5000 None) eq_refl)
    as (_ & Hq & _).
  split; [reflexivity|]. exact (Hq eq_refl).
Defined.

Lemma no_key_no_suppression_witness :
  let n := exNotifierOf exBlankSchema false in
  let r := notify exLower exProp n "evt" None 0 (up 0) in
  r.1.1 = Sent
  ∧ (notify exLower exProp r.1.2 "evt" None 1 (up 1)).1.1 ≠ AlreadySent
  ∧ cache (notify exLower exProp r.1.2 "evt" None 1 (up 1)).1.2
    = cache r.1.2.
Proof.
  intros n r. split; [reflexivity|].
  apply (no_key_no_suppression exLower exProp r.1.2 "evt" None 1 (up 1)).
  right. right. exists (λ _, Some ""). split; reflexivity.
Defined.

Lemma batched_equals_immediate_witness :
  let queued := notify exLower exProp (exNotifier true) "evt" None 0 (up 0) in
  let flushed := flush exLower queued.1.2 [down 5] [0%nat] in
  let direct :=
    notify exLower exProp (exNotifier false) "evt" None 0 (down 5) in
  queued.1.1 = Queued
  ∧ flushed.1.1 = Resolved
  ∧ direct.1.1 = Failed (mkError "HTTP 500: Internal Server Error")
  ∧ flushed.2
    = direct.2 ++ [ConsoleError (mkError "HTTP 500: Internal Server Error")].
Proof.
  intros queued flushed direct.
  destruct (batched_equals_immediate exLower exProp (exNotifier true)
              (BatchManager.new 10 5000 None) "evt" None 0 (up 0) (down 5)
              eq_refl eq_refl eq_refl eq_refl eq_refl)
    as (Hq & _ & Hr & Hevs & _).
  split; [exact Hq|]. split; [exact Hr|]. split; [reflexivity|].
  exact Hevs.
Defined.


End NotifierMoreExamples.

Section ConfigMore.
Import ConfigManager Expected.
Variable toLowerCase : string → string.

Lemma validate_inr url u :
  validateWebhookUrl url = inr u ↔ u = url ∧ wellFormed url.
Proof.
  unfold validateWebhookUrl, wellFormed. case_bool_decide as He.
  - split; [done|]. by intros (_ & ? & _).
  - destruct (JsString.startsWith "https://" url); simpl.
    + destruct (JsString.includes "chat.googleapis.com" url); simpl.
      * split; [by intros [= <-] | by intros [-> _]].
      * split; [done|]. by intros (_ & _ & _ & ?).
    + split; [done|]. by intros (_ & _ & ? & _).
Qed.

Lemma truthy_Some s v : truthy s = Some v ↔ s = Some v ∧ v ≠ "".
Proof.
  unfold truthy. destruct s as [x|]; [|by split; [|intros []]].
  case_bool_decide; split; try done.
  - intros [[= ->] ?]. done.
  - by intros [= ->].
  - by intros [[= ->] _].
Qed.

Lemma truthy_None s : truthy s = None ↔ s = None ∨ s = Some "".
Proof.
  unfold truthy. destruct s as [x|]; [|by split; [left|]].
  case_bool_decide; split; try done.
  - intros _. right. by subst.
  - intros [|[= ->]]; done.
Qed.

Lemma withToken_inr url token u :
  withToken url token = inr u →
  wellFormed u
  ∧ ((JsString.includes "token=" url = true ∨ truthy token = None)
     ∧ u = url
     ∨ ∃ tk, JsString.includes "token=" url = false
             ∧ truthy token = Some tk ∧ u = buildWebhookUrl url tk).
Proof.
  unfold withToken. destruct (JsString.includes "token=" url) eqn:Hi.
  - intros [-> Hw]%validate_inr. split; [done|]. left. auto.
  - destruct (truthy token) as [tk|] eqn:Ht.
    + intros [-> Hw]%validate_inr. split; [done|]. right. by exists tk.
    + intros [-> Hw]%validate_inr. split; [done|]. left. auto.
Qed.

Lemma startsWith_app p s : JsString.startsWith p (p +:+ s) = true.
Proof.
  induction p as [|a p IH]; [done|]. simpl.
  by rewrite bool_decide_eq_true_2.
Qed.

Lemma includes_startsWith p s :
  JsString.startsWith p s = true → JsString.includes p s = true.
Proof. intros H. destruct s; simpl; rewrite H; done. Qed.

Lemma includes_app_r p a s :
  JsString.includes p s = true → JsString.includes p (a +:+ s) = true.
Proof.
  intros H. induction a as [|x a IH]; [done|]. simpl.
  rewrite IH. apply orb_true_r.
Qed.

Lemma buildWebhookUrl_token baseUrl token :
  JsString.includes "token=" (buildWebhookUrl baseUrl token) = true
  ∧ JsString.startsWith baseUrl (buildWebhookUrl baseUrl token) = true.
Proof.
  unfold buildWebhookUrl. split; [|apply startsWith_app].
  do 2 apply includes_app_r. apply includes_startsWith, startsWith_app.
Qed.

Lemma replace_prefix key :
  isNamedKey key = true →
  JsString.replace "CHAT_WEBHOOK_" "" key = JsString.drop 13 key.
Proof.
  unfold isNamedKey. intros H.
  assert (Hs : JsString.startsWith "CHAT_WEBHOOK_" key = true).
  { by destruct (JsString.startsWith "CHAT_WEBHOOK_" key). }
  destruct key as [|a key]; [done|].
  change (JsString.replace "CHAT_WEBHOOK_" "" (String a key))
    with (if JsString.startsWith "CHAT_WEBHOOK_" (String a key)
          then "" +:+ JsString.drop 13 (String a key)
          else String a (JsString.replace "CHAT_WEBHOOK_" "" key)).
  by rewrite Hs.
Qed.

Lemma loadNamed_spec env keys :
  ∀ ws ws',
    loadNamed toLowerCase env keys ws = inr ws' →
    (allWellFormed ws → allWellFormed ws')
    ∧ ∀ name,
        is_Some (ws' !! name)
        ↔ is_Some (ws !! name)
          ∨ ∃ key, key ∈ keys ∧ isNamedKey key = true
                   ∧ is_Some (truthy (getenv env key))
                   ∧ name = envName toLowerCase key.
Proof.
  induction keys as [|key keys IH]; intros ws ws' Hl; simpl in Hl.
  - injection Hl as <-. split; [done|]. intros name. split; [auto|].
    intros [?|(key & []%elem_of_nil & _)]. done.
  - destruct (isNamedKey key) eqn:Hk.
    + rewrite (replace_prefix key Hk) in Hl.
      destruct (truthy (getenv env key)) as [url|] eqn:Hurl.
      * destruct (withToken url _) as [e|u] eqn:Hw; [done|].
        apply withToken_inr in Hw as [Hw _].
        destruct (IH _ _ Hl) as [Hall Hdom]. split.
        -- intros Hws. apply Hall. by apply map_Forall_insert_2.
        -- intros name. rewrite Hdom. split.
           ++ intros [His|(k & Hin & ? & ? & ?)].
              ** destruct (decide (envName toLowerCase key = name))
                   as [<-|Hne].
                 { right. exists key. rewrite Hurl.
                   split; [left|]. eauto. }
                 left. unfold envName in Hne.
                 by rewrite lookup_insert_ne in His.
              ** right. exists k. split; [by right | done].
           ++ intros [His|(k & [->|Hin]%elem_of_cons & Hk' & Hs & ->)].
              ** left. destruct (decide (envName toLowerCase key = name))
                   as [<-|Hne].
                 { unfold envName. rewrite lookup_insert_eq. eauto. }
                 unfold envName in Hne. by rewrite lookup_insert_ne.
              ** left. unfold envName. rewrite lookup_insert_eq. eauto.
              ** right. by exists k.
      * destruct (IH _ _ Hl) as [Hall Hdom]. split; [done|].
        intros name. rewrite Hdom. split.
        -- intros [?|(k & Hin & ?)]; [by left|].
           right. exists k. split; [by right | done].
        -- intros [?|(k & [->|Hin]%elem_of_cons & Hk' & Hs & ->)].
           ++ by left.
           ++ rewrite Hurl in Hs. by destruct Hs.
           ++ right. by exists k.
    + destruct (IH _ _ Hl) as [Hall Hdom]. split; [done|].
      intros name. rewrite Hdom. split.
      * intros [?|(k & Hin & ?)]; [by left|].
        right. exists k. split; [by right | done].
      * intros [?|(k & [->|Hin]%elem_of_cons & Hk' & Hs & ->)].
        -- by left.
        -- congruence.
        -- right. by exists k.
Qed.

Lemma loadFromEnv_spec env c :
  loadFromEnv toLowerCase env (mk ∅ None) = inr c →
  allWellFormed (webhooks c)
  ∧ (∀ url, defaultWebhook c = Some url → wellFormed url)
  ∧ (∀ name,
       is_Some (webhooks c !! name)
       ↔ ∃ key, key ∈ env.*1 ∧ isNamedKey key = true
                ∧ is_Some (truthy (getenv env key))
                ∧ name = envName toLowerCase key)
  ∧ match truthy (getenv env "CHAT_WEBHOOK_URL") with
    | Some url =>
        withToken url (getenv env "CHAT_WEBHOOK_TOKEN")
        = inr (default "" (defaultWebhook c))
        ∧ is_Some (defaultWebhook c)
    | None => defaultWebhook c = None
    end.
Proof.
  unfold loadFromEnv.
  destruct (truthy (getenv env "CHAT_WEBHOOK_URL")) as [url|].
  - destruct (withToken url _) as [e|u] eqn:Hw; [done|]. simpl.
    destruct (loadNamed toLowerCase env env.*1 ∅) as [e|ws] eqn:Hl; [done|].
    intros [= <-]. simpl.
    destruct (loadNamed_spec _ _ _ _ Hl) as [Hall Hdom].
    split; [by apply Hall, map_Forall_empty|]. split.
    { intros ? [= <-]. by apply withToken_inr in Hw as [? _]. }
    split; [|eauto]. intros name. rewrite Hdom, lookup_empty.
    split; [intros [[? [=]]|?]; done | auto].
  - simpl.
    destruct (loadNamed toLowerCase env env.*1 ∅) as [e|ws] eqn:Hl; [done|].
    intros [= <-]. simpl.
    destruct (loadNamed_spec _ _ _ _ Hl) as [Hall Hdom].
    split; [by apply Hall, map_Forall_empty|]. split; [done|].
    split; [|done]. intros name. rewrite Hdom, lookup_empty.
    split; [intros [[? [=]]|?]; done | auto].
Qed.

Lemma setAll_spec entries :
  ∀ ws ws',
    setAll entries ws = inr ws' →
    (allWellFormed ws → allWellFormed ws')
    ∧ Forall (λ e, wellFormed e.2) entries
    ∧ ws' = foldl (λ m e, <[e.1 := e.2]> m) ws entries.
Proof.
  induction entries as [|[name url] entries IH]; intros ws ws' Hs;
    simpl in Hs.
  - by injection Hs as <-.
  - destruct (validateWebhookUrl url) as [e|u] eqn:Hv; [done|].
    apply validate_inr in Hv as [-> Hw].
    destruct (IH _ _ Hs) as (Hall & Hes & ->). split; [|split].
    + intros Hws. apply Hall. by apply map_Forall_insert_2.
    + by constructor.
    + done.
Qed.

Lemma new_inr env cfg c :
  new toLowerCase env cfg = inr c →
  allWellFormed (webhooks c)
  ∧ (∀ url, defaultWebhook c = Some url → wellFormed url)
  ∧ (is_Some (defaultWebhook c) ∨ webhooks c ≠ ∅).
Proof.
  unfold new.
  destruct (loadFromEnv toLowerCase env (mk ∅ None)) as [e|c0] eqn:Hl;
    [done|].
  destruct (loadFromEnv_spec env c0 Hl) as (Hall & Hdef & _).
  assert (Hfinal : ∀ c',
            allWellFormed (webhooks c') →
            (∀ url, defaultWebhook c' = Some url → wellFormed url) →
            (if bool_decide (truthy (defaultWebhook c') = None)
                && bool_decide (size (webhooks c') = 0%nat)
             then inl (mkError "No webhook configured. Provide CHAT_WEBHOOK_URL env var or webhooks option.")
             else inr c') = inr c →
            allWellFormed (webhooks c)
            ∧ (∀ url, defaultWebhook c = Some url → wellFormed url)
            ∧ (is_Some (defaultWebhook c) ∨ webhooks c ≠ ∅)).
  { intros c' Ha Hd. case_bool_decide as Ht; simpl.
    - case_bool_decide as Hsz; [done|]. intros [= <-].
      split; [done|]. split; [done|]. right. intros Hempty.
      apply Hsz. rewrite Hempty. apply map_size_empty.
    - intros [= <-]. split; [done|]. split; [done|]. left.
      destruct (defaultWebhook c'); [eauto | done]. }
  destruct cfg as [[url|entries]|]; simpl.
  - destruct (validateWebhookUrl url) as [e|u] eqn:Hv; [done|].
    apply validate_inr in Hv as [-> Hw].
    apply Hfinal; simpl; [done|]. by intros ? [= <-].
  - destruct (setAll entries (webhooks c0)) as [e|ws] eqn:Hs; [done|].
    destruct (setAll_spec _ _ _ Hs) as (Hall' & _).
    apply Hfinal; simpl; auto.
  - by apply Hfinal.
Qed.

Lemma wellFormed_truthy url : wellFormed url → truthy (Some url) = Some url.
Proof. intros [Hne _]. apply truthy_Some. done. Qed.

(** X20: every URL a [ConfigManager] holds has passed
    [validateWebhookUrl], whether it came from the environment, with
    or without a separate token, or from the options: it is not empty,
    starts with [https://] and contains [chat.googleapis.com]. A
    manager that was constructed has a default or at least one named
    webhook, and [getWebhook] only ever returns such a URL. *)
Theorem new_validated env cfg c :
  new toLowerCase env cfg = inr c →
  (∀ name url, webhooks c !! name = Some url → wellFormed url)
  ∧ (∀ url, defaultWebhook c = Some url → wellFormed url)
  ∧ (is_Some (defaultWebhook c) ∨ webhooks c ≠ ∅)
  ∧ (∀ name url, getWebhook toLowerCase c name = inr url → wellFormed url).
Proof.
  intros Hn. destruct (new_inr env cfg c Hn) as (Hall & Hdef & Hsome).
  split; [exact Hall|]. split; [done|]. split; [done|].
  intros name url. unfold getWebhook.
  assert (Hd : ∀ d, truthy (defaultWebhook c) = Some d → wellFormed d).
  { intros d [Hd _]%truthy_Some. by apply Hdef. }
  destruct (truthy name) as [nm|].
  - destruct (truthy (webhooks c !! toLowerCase nm)) as [u|] eqn:Hu.
    + intros [= <-]. apply truthy_Some in Hu as [Hu _]. by eapply Hall.
    + destruct (truthy (defaultWebhook c)) as [d|] eqn:Hdd; [|done].
      intros [= <-]. by apply Hd.
  - destruct (truthy (defaultWebhook c)) as [d|] eqn:Hdd; [|done].
    intros [= <-]. by apply Hd.
Qed.

(** X21: a manager that was constructed can still fail to resolve a
    name. [getWebhook] throws exactly when there is no default webhook
    and the name is missing, empty or not registered in lower case;
    with a default it never throws. A URL given to the constructor as
    a string replaces the default of the environment and is what
    [getWebhook] returns without a name. *)
Theorem getWebhook_after_new env cfg c name :
  new toLowerCase env cfg = inr c →
  ((∃ e, getWebhook toLowerCase c name = inl e)
   ↔ defaultWebhook c = None
     ∧ (truthy name = None
        ∨ ∃ nm, name = Some nm ∧ webhooks c !! toLowerCase nm = None))
  ∧ (is_Some (defaultWebhook c) →
     ∃ url, getWebhook toLowerCase c name = inr url)
  ∧ (∀ url, cfg = Some (Url url) →
       defaultWebhook c = Some url
       ∧ getWebhook toLowerCase c None = inr url).
Proof.
  intros Hn. destruct (new_inr env cfg c Hn) as (Hall & Hdef & Hsome).
  assert (Hd : truthy (defaultWebhook c) = defaultWebhook c).
  { destruct (defaultWebhook c) as [d|] eqn:Hdd; [|done].
    by apply wellFormed_truthy, Hdef. }
  assert (Hw : ∀ k, truthy (webhooks c !! k) = webhooks c !! k).
  { intros k. destruct (webhooks c !! k) as [u|] eqn:Hk; [|done].
    apply wellFormed_truthy. by eapply Hall. }
  split; [|split].
  - unfold getWebhook. rewrite Hd.
    destruct (truthy name) as [nm|] eqn:Hname.
    + apply truthy_Some in Hname as [-> Hne]. rewrite Hw.
      destruct (webhooks c !! toLowerCase nm) as [u|] eqn:Hu.
      * split; [by intros [e ?]|].
        intros (_ & [?|(nm' & [= <-] & ?)]); [done | congruence].
      * destruct (defaultWebhook c) as [d|] eqn:Hdd.
        -- split; [by intros [e ?] | by intros [? _]].
        -- split; [|eauto]. intros _. split; [done|]. right. eauto.
    + destruct (defaultWebhook c) as [d|] eqn:Hdd.
      * split; [by intros [e ?] | by intros [? _]].
      * split; [|eauto]. intros _. auto.
  - intros [d Hdd]. unfold getWebhook. rewrite Hd, Hdd.
    destruct (truthy name) as [nm|]; [|eauto].
    destruct (truthy (webhooks c !! toLowerCase nm)); eauto.
  - intros url ->. unfold new in Hn.
    destruct (loadFromEnv toLowerCase env (mk ∅ None)) as [e|c0]; [done|].
    simpl in Hn.
    destruct (validateWebhookUrl url) as [e|u] eqn:Hv; [done|].
    apply validate_inr in Hv as [-> Hwf].
    assert (Hc : c = mk (webhooks c0) (Some url)).
    { destruct (_ && _) in Hn; [done|]. by injection Hn as <-. }
    subst c. split; [done|]. unfold getWebhook. by rewrite Hd.
Qed.

(** X22: the names of the environment are stored in lower case, those
    of the options as they are written, and [getWebhook] and
    [hasWebhook] look a name up in lower case. So a webhook given in
    the options is found under its name only when the name is in lower
    case already; otherwise [hasWebhook] denies it and [getWebhook]
    answers with the default, or throws when there is none. *)
Theorem option_names_verbatim env c0 name url :
  loadFromEnv toLowerCase env (mk ∅ None) = inr c0 →
  wellFormed url → name ≠ "" →
  ∃ c,
    new toLowerCase env (Some (Named [(name, url)])) = inr c
    ∧ webhooks c = <[name := url]> (webhooks c0)
    ∧ defaultWebhook c = defaultWebhook c0
    ∧ (toLowerCase name = name →
       hasWebhook toLowerCase c name = true
       ∧ getWebhook toLowerCase c (Some name) = inr url)
    ∧ (toLowerCase name ≠ name →
       webhooks c0 !! toLowerCase name = None →
       hasWebhook toLowerCase c name = false
       ∧ getWebhook toLowerCase c (Some name)
         = match defaultWebhook c0 with
           | Some d => inr d
           | None =>
               inl (mkError ("Webhook '" +:+ name
                             +:+ "' not found and no default webhook configured"))
           end).
Proof.
  intros Hl Hwf Hne.
  destruct (loadFromEnv_spec env c0 Hl) as (Hall & Hdef & _).
  exists (mk (<[name := url]> (webhooks c0)) (defaultWebhook c0)).
  assert (Hname : truthy (Some name) = Some name) by by apply truthy_Some.
  assert (Hd : truthy (defaultWebhook c0) = defaultWebhook c0).
  { destruct (defaultWebhook c0) as [d|] eqn:Hdd; [|done].
    by apply wellFormed_truthy, Hdef. }
  split; [|split; [done|split; [done|split]]].
  - unfold new. rewrite Hl. simpl.
    rewrite (proj2 (validate_inr url url)) by done.
    rewrite (bool_decide_eq_false_2 (size _ = 0%nat)); [by rewrite andb_false_r|].
    intros Hsz%map_size_empty_iff. simpl in Hsz.
    by apply insert_non_empty in Hsz.
  - intros Hlow. unfold hasWebhook, getWebhook.
    cbn [webhooks defaultWebhook].
    rewrite Hname, Hlow, lookup_insert_eq, wellFormed_truthy by done.
    split; [|done]. apply bool_decide_eq_true_2. eauto.
  - intros Hlow Habs. unfold hasWebhook, getWebhook.
    cbn [webhooks defaultWebhook].
    rewrite Hname, lookup_insert_ne, Habs by done.
    change (truthy None) with (@None string). rewrite Hd.
    split; [|by destruct (defaultWebhook c0)].
    apply bool_decide_eq_false_2. by intros [? ?].
Qed.

Lemma startsWith_refl p : JsString.startsWith p p = true.
Proof.
  induction p as [|a p IH]; [done|]. simpl.
  by rewrite bool_decide_eq_true_2.
Qed.

(** X23: the default webhook of the environment. An empty
    [CHAT_WEBHOOK_URL] is ignored. Otherwise the default is that URL,
    validated, with the token of [CHAT_WEBHOOK_TOKEN] appended as
    [?token=] or, when the URL has a [?] already, [&token=]; a URL that
    contains [token=] itself is taken as it is and the separate token
    is not used. With a token set the default always carries one. *)
Theorem env_default_token env c url :
  loadFromEnv toLowerCase env (mk ∅ None) = inr c →
  truthy (getenv env "CHAT_WEBHOOK_URL") = Some url →
  ∃ u,
    defaultWebhook c = Some u ∧ wellFormed u
    ∧ JsString.startsWith url u = true
    ∧ (JsString.includes "token=" url = true
       ∨ truthy (getenv env "CHAT_WEBHOOK_TOKEN") = None → u = url)
    ∧ (∀ tk,
         JsString.includes "token=" url = false →
         truthy (getenv env "CHAT_WEBHOOK_TOKEN") = Some tk →
         u = url +:+ (if JsString.includes "?" url then "&" else "?")
                 +:+ "token=" +:+ tk)
    ∧ (is_Some (truthy (getenv env "CHAT_WEBHOOK_TOKEN")) →
       JsString.includes "token=" u = true).
Proof.
  intros Hl Hurl.
  destruct (loadFromEnv_spec env c Hl) as (_ & Hdef & _ & Hdflt).
  rewrite Hurl in Hdflt. destruct Hdflt as [Hw [u Hu]].
  rewrite Hu in Hw. simpl in Hw. exists u.
  apply withToken_inr in Hw
    as [Hwf [[Hcase ->]|(tk & Hinc & Htk & ->)]].
  - split; [done|]. split; [done|]. split; [apply startsWith_refl|].
    split; [done|]. split.
    + intros tk Hinc Htk. destruct Hcase as [?|?]; congruence.
    + intros [tk Htk]. destruct Hcase as [?|?]; [done | congruence].
  - split; [done|]. split; [done|].
    split; [apply buildWebhookUrl_token|]. split.
    + intros [?|?]; congruence.
    + split; [|intros _; apply buildWebhookUrl_token].
      intros tk' _ Htk'. rewrite Htk in Htk'. by injection Htk' as <-.
Qed.

Lemma endsWith_app p a : JsString.endsWith p (a +:+ p) = true.
Proof.
  induction a as [|x a IH]; simpl.
  - destruct p; simpl; rewrite ?bool_decide_eq_true_2 by done; done.
  - rewrite IH. apply orb_true_r.
Qed.

(** X24: the named webhooks of the environment. After [loadFromEnv]
    the registered names are exactly the lower-cased remainders of the
    variables [CHAT_WEBHOOK_<NAME>] that have a value, and each can be
    asked for in any spelling that has the same lower case. The
    variables [CHAT_WEBHOOK_URL] and [CHAT_WEBHOOK_TOKEN] and those
    ending in [_TOKEN] never give a name. *)
Theorem env_names env c :
  loadFromEnv toLowerCase env (mk ∅ None) = inr c →
  (∀ name,
     is_Some (webhooks c !! name)
     ↔ ∃ key, key ∈ env.*1 ∧ isNamedKey key = true
              ∧ is_Some (truthy (getenv env key))
              ∧ name = toLowerCase (JsString.replace "CHAT_WEBHOOK_" "" key))
  ∧ (∀ key nm,
       key ∈ env.*1 → isNamedKey key = true →
       is_Some (truthy (getenv env key)) →
       toLowerCase nm = toLowerCase (JsString.drop 13 key) →
       hasWebhook toLowerCase c nm = true)
  ∧ isNamedKey "CHAT_WEBHOOK_URL" = false
  ∧ isNamedKey "CHAT_WEBHOOK_TOKEN" = false
  ∧ (∀ key, isNamedKey (key +:+ "_TOKEN") = false).
Proof.
  intros Hl. destruct (loadFromEnv_spec env c Hl) as (_ & _ & Hdom & _).
  split; [|split; [|split; [done|split; [done|]]]].
  - intros name. rewrite Hdom. split.
    + intros (key & Hin & Hk & Hs & ->). exists key.
      by rewrite replace_prefix.
    + intros (key & Hin & Hk & Hs & ->). exists key.
      by rewrite replace_prefix.
  - intros key nm Hin Hk Hs Hnm. unfold hasWebhook.
    apply bool_decide_eq_true_2, Hdom. exists key. by rewrite Hnm.
  - intros key. unfold isNamedKey. rewrite endsWith_app.
    apply andb_false_r.
Qed.

End ConfigMore.

Section ConfigMoreExamples.
Import ConfigManager Expected.

Lemma new_validated_witness :
  ∃ c,
    new exToLower exEnv None = inr c
    ∧ defaultWebhook c
      = Some "https://chat.googleapis.com/v1/spaces/S/messages?key=K&token=secret"
    ∧ webhooks c !! "errors"
      = Some "https://chat.googleapis.com/v1/spaces/E/messages?token=tk2"
    ∧ wellFormed
        "https://chat.googleapis.com/v1/spaces/E/messages?token=tk2"
    ∧ wellFormed
        "https://chat.googleapis.com/v1/spaces/S/messages?key=K&token=secret".
Proof.
  eexists. split; [reflexivity|].
  split; [reflexivity|]. split; [reflexivity|].
  destruct (new_validated exToLower exEnv None _ eq_refl)
    as (Hnamed & Hdefault & _).
  split.
  - apply (Hnamed "errors"). reflexivity.
  - apply Hdefault. reflexivity.
Defined.

Lemma getWebhook_after_new_witness :
  ∃ c,
    new exToLower [] (Some (Named [("errors", exUrl)])) = inr c
    ∧ getWebhook exToLower c (Some "Errors") = inr exUrl
    ∧ (∃ e, getWebhook exToLower c (Some "reports") = inl e)
    ∧ (∃ e, getWebhook exToLower c None = inl e).
Proof.
  eexists. split; [reflexivity|]. split; [reflexivity|].
  split.
  - apply (getWebhook_after_new exToLower []
             (Some (Named [("errors", exUrl)])) _ (Some "reports") eq_refl).
    split; [reflexivity|]. right. exists "reports". split; reflexivity.
  - apply (getWebhook_after_new exToLower []
             (Some (Named [("errors", exUrl)])) _ None eq_refl).
    split; [reflexivity|]. left. reflexivity.
Defined.

Lemma option_names_verbatim_witness :
  ∃ c,
    new exToLower [] (Some (Named [("Errors", exUrl)])) = inr c
    ∧ webhooks c !! "Errors" = Some exUrl
    ∧ hasWebhook exToLower c "Errors" = false
    ∧ getWebhook exToLower c (Some "Errors")
      = inl (mkError "Webhook 'Errors' not found and no default webhook configured").
Proof.
  destruct (option_names_verbatim exToLower [] (mk ∅ None) "Errors" exUrl)
    as (c & Hnew & Hws & _ & _ & Hupper).
  - reflexivity.
  - split; [discriminate|]. split; reflexivity.
  - discriminate.
  - exists c. split; [exact Hnew|]. split.
    + rewrite Hws. reflexivity.
    + apply Hupper; [discriminate | reflexivity].
Defined.

Lemma env_default_token_witness :
  ∃ c,
    loadFromEnv exToLower exEnv (mk ∅ None) = inr c
    ∧ ∃ u,
        defaultWebhook c = Some u
        ∧ u = "https://chat.googleapis.com/v1/spaces/S/messages?key=K&token=secret"
        ∧ JsString.includes "token=" u = true.
Proof.
  eexists. split; [reflexivity|].
  destruct (env_default_token exToLower exEnv _
              "https://chat.googleapis.com/v1/spaces/S/messages?key=K"
              eq_refl eq_refl)
    as (u & Hu & _ & _ & _ & Hbuilt & Hinc).
  exists u. split; [exact Hu|]. split.
  - apply (Hbuilt "secret"); reflexivity.
  - apply Hinc. exists "secret". reflexivity.
Defined.

Lemma env_names_witness :
  ∃ c,
    loadFromEnv exToLower exEnv (mk ∅ None) = inr c
    ∧ hasWebhook exToLower c "Errors" = true
    ∧ ¬ is_Some (webhooks c !! "errors_token")
    ∧ ¬ is_Some (webhooks c !! "url").
Proof.
  eexists. split; [reflexivity|].
  destruct (env_names exToLower exEnv _ eq_refl) as (_ & Hhas & _).
  split.
  - apply (Hhas "CHAT_WEBHOOK_ERRORS" "Errors").
    + do 3 right. left.
    + reflexivity.
    + exists "https://chat.googleapis.com/v1/spaces/E/messages". reflexivity.
    + reflexivity.
  - split; intros [u Hu]; discriminate Hu.
Defined.

End ConfigMoreExamples.

Section TombamentoMore.
Import NotifierImpl Expected.
Import TombamentoSchema TombamentoNotifier.
Context {C : Type}.
Variable toLowerCase : string → string.
Variable sha1 : Truncate.jsstring → string.
Variable buildCard_ : TombamentoPayload → Z → Error + C.
Implicit Types (n : NotifierImpl.t TombamentoPayload C).
Implicit Types (p q data : TombamentoPayload).

Lemma extractEvent_eventProp p :
  extractEvent eventProp p = Some (eventName (event p)).
Proof. reflexivity. Qed.

Lemma eventName_not_empty e : eventName e ≠ "".
Proof. by destruct e. Qed.

Lemma isImportantEvent_eventName e :
  isImportantEvent (eventName e) = false ↔ e = PROCESSING.
Proof. destruct e; simpl; split; done. Qed.

Lemma tombamento_notImportant n p :
  NotifierImpl.schema n = TombamentoSchema.schema sha1 buildCard_ →
  notImportant eventProp n p = true
  ↔ level n = important ∧ event p = PROCESSING.
Proof.
  intros Hs. rewrite notImportant_true, Hs. simpl. split.
  - intros (Hl & f & e & [= <-] & He & _ & Hf).
    rewrite extractEvent_eventProp in He. injection He as <-.
    split; [done|]. by apply isImportantEvent_eventName.
  - intros [Hl Hp]. split; [done|].
    exists isImportantEvent, (eventName (event p)).
    split; [done|]. split; [done|].
    split; [apply eventName_not_empty|].
    by apply isImportantEvent_eventName.
Qed.

(** X25: with the tombamento schema, [notify] at level [important]
    drops a payload exactly when its event is [PROCESSING], and at
    level [all] drops none. So on a notifier made by
    [createTombamentoNotifier] with level [important] the method
    [processing] does nothing at all, and none of the other five
    convenience methods is ever stopped by the filter. *)
Theorem tombamento_filter n p w now d :
  NotifierImpl.schema n = TombamentoSchema.schema sha1 buildCard_ →
  ((notify toLowerCase eventProp n p w now d).1.1 = NotImportant
   ↔ level n = important ∧ event p = PROCESSING)
  ∧ (level n = important →
     ∀ data, processing toLowerCase n data now d = (NotImportant, n, []))
  ∧ (∀ e data,
       e ≠ PROCESSING →
       (convenience toLowerCase e n data now d).1.1 ≠ NotImportant).
Proof.
  intros Hs. split; [|split].
  - by rewrite notify_NotImportant, tombamento_notImportant.
  - intros Hl data. unfold processing, convenience.
    destruct (notify_cases toLowerCase eventProp n
                (withEvent data PROCESSING) None now d)
      as [[_ ->]|[(Hni & _)|[(Hni & _)|(Hni & _)]]]; [done|..];
      pose proof (proj2 (tombamento_notImportant n
                           (withEvent data PROCESSING) Hs)
                    (conj Hl eq_refl)); congruence.
  - intros e data He. unfold convenience.
    rewrite notify_NotImportant, tombamento_notImportant by done.
    by intros [_ ?].
Qed.

Lemma getIdempotencyKey_text p q :
  event p = event q → bucket p = bucket q → object p = object q →
  counts p ≫= TombamentoSchema.processed
  = counts q ≫= TombamentoSchema.processed →
  getIdempotencyKey sha1 p = getIdempotencyKey sha1 q.
Proof.
  intros He Hb Ho Hc. unfold getIdempotencyKey. rewrite He, Hb, Ho.
  do 2 f_equal.
  destruct (counts p) as [cp|], (counts q) as [cq|]; simpl in Hc.
  - by rewrite Hc.
  - by rewrite Hc.
  - by rewrite <- Hc.
  - done.
Qed.

(** X26: the idempotency key of a tombamento payload is made of its
    event, bucket, object and processed count and of nothing else. Two
    payloads that agree on these have the same key, whatever their
    partner, stage, message, timestamp, trace id and other counts; so
    once the first has been queued or sent, the second is dropped
    without effect until the TTL has run out. *)
Theorem tombamento_key_fields n c p q w1 t1 d1 o1 n1 evs1 w2 t2 d2 :
  event p = event q → bucket p = bucket q → object p = object q →
  counts p ≫= TombamentoSchema.processed
  = counts q ≫= TombamentoSchema.processed →
  NotifierImpl.schema n = TombamentoSchema.schema sha1 buildCard_ →
  cache n = Some c →
  getIdempotencyKey sha1 p ≠ "" →
  notify toLowerCase eventProp n p w1 t1 d1 = (o1, n1, evs1) →
  o1 = Queued ∨ o1 = Sent →
  t2 <= markedAt d1 + IdempotencyCache.ttlMs c →
  getIdempotencyKey sha1 p = getIdempotencyKey sha1 q
  ∧ ∃ o2, notify toLowerCase eventProp n1 q w2 t2 d2 = (o2, n1, [])
          ∧ dropped o2.
Proof.
  intros He Hb Ho Hc Hs Hcache Hne Hn Ho1 Ht2.
  pose proof (getIdempotencyKey_text p q He Hb Ho Hc) as Hkey.
  split; [done|].
  assert (Hg : Schema.getIdempotencyKey (NotifierImpl.schema n)
               = Some (λ p, Some (getIdempotencyKey sha1 p)))
    by by rewrite Hs.
  assert (Hk : ∀ r, getIdempotencyKey sha1 r = getIdempotencyKey sha1 p →
                    truthy (Some (getIdempotencyKey sha1 r))
                    = Some (getIdempotencyKey sha1 p)).
  { intros r ->. unfold truthy. by rewrite bool_decide_eq_false_2. }
  destruct (notify_marks toLowerCase eventProp n c _
              (getIdempotencyKey sha1 p) p w1 t1 d1 o1 n1 evs1
              Hcache Hg (Hk p eq_refl) Hn Ho1) as [Hs1 Hh].
  eapply holds_dropped; [exact Hh | by rewrite Hs1 | | done].
  by apply Hk.
Qed.

(** X27: the four parts of the key are joined with [:] before they are
    hashed, and nothing keeps a [:] out of a bucket or an object. So a
    [:] can be moved from the bucket to the object without changing
    the key: different files can have the same key. *)
Theorem tombamento_key_separator e pa x y z st cn m tr t :
  getIdempotencyKey sha1 (mkPayload e pa (x ++ 58%N :: y) z st cn m tr t)
  = getIdempotencyKey sha1 (mkPayload e pa x (y ++ 58%N :: z) st cn m tr t).
Proof.
  unfold getIdempotencyKey. simpl. f_equal.
  by rewrite <- !app_assoc.
Qed.

Lemma truncateMessage_not_empty (text : Truncate.jsstring) maxLength :
  text ≠ [] → Truncate.truncateMessage text maxLength ≠ [].
Proof.
  intros Hne.
  destruct (truncateMessage_cases text maxLength) as [[_ ->]|[_ ->]];
    [done|].
  by destruct (take _ text).
Qed.

(** X28: the card of a tombamento payload has one entry with one
    section. Its widgets are the four fields for partner, file, stage
    and time, then the totals when the payload has counts, then the
    message when the payload has one that is not empty. The message is
    always shown when there is one, cut by [truncateMessage] to the
    bound of the card builder, so its text is at most
    [max 1 maxMessage] code units after the label. *)
Theorem buildCard_widgets p maxMessage now nowIso :
  ∃ hd ws,
    cardsV2 (buildCard p maxMessage now nowIso)
    = [mkCardV2 (js "tombamento-" ++ numberToString now)
         (mkCard (Some hd) [mkSection ws])]
    ∧ take 4 ws
      = [buildTextField "Parceiro" (partner p);
         buildTextField "Arquivo" (object p);
         buildTextField "Etapa"
           (js (eventName (default (event p) (stage p))));
         buildTextField "Data/Hora" (default nowIso (truthyJs (ts p)))]
    ∧ length ws
      = (4 + (if counts p is Some _ then 1 else 0)
           + (if truthyJs (message p) is Some _ then 1 else 0))%nat
    ∧ (∀ c, counts p = Some c → ws !! 4%nat = Some (buildCountsField c))
    ∧ (∀ m,
         truthyJs (message p) = Some m →
         last ws
         = Some (buildTextField "Mensagem"
                   (Truncate.truncateMessage m maxMessage))
         ∧ ∃ text,
             last ws = Some (TextParagraph (js "<b>Mensagem:</b> " ++ text))
             ∧ Z.of_nat (length text) <= Z.max 1 maxMessage).
Proof.
  unfold buildCard. eexists _, _. split; [reflexivity|].
  assert (Htr : ∀ m, truthyJs (message p) = Some m →
            truthyJs (Some (Truncate.truncateMessage m maxMessage))
            = Some (Truncate.truncateMessage m maxMessage)
            ∧ Z.of_nat (length (Truncate.truncateMessage m maxMessage))
              <= Z.max 1 maxMessage).
  { intros m Hm.
    assert (m ≠ []) as Hne.
    { unfold truthyJs in Hm. destruct (message p) as [[|x v]|]; try done.
      by injection Hm as <-. }
    pose proof (truncateMessage_not_empty m maxMessage) as Hnn.
    split.
    - specialize (Hnn Hne).
      by destruct (Truncate.truncateMessage m maxMessage).
    - destruct (truncateMessage_cases m maxMessage) as [[H Heq]|[H Heq]];
        rewrite Heq in *; [lia|].
      rewrite length_app, length_take in *. simpl in *. lia. }
  destruct (truthyJs (message p)) as [m|] eqn:Hm.
  - destruct (Htr m eq_refl) as [-> Hlen].
    destruct (counts p) as [c|]; simpl.
    + split; [done|]. split; [done|]. split; [by intros ? [= <-]|].
      intros ? [= <-]. split; [done|].
      exists (Truncate.truncateMessage m maxMessage). done.
    + split; [done|]. split; [done|]. split; [done|].
      intros ? [= <-]. split; [done|].
      exists (Truncate.truncateMessage m maxMessage). done.
  - destruct (counts p) as [c|]; simpl.
    + split; [done|]. split; [done|]. split; [by intros ? [= <-]|]. done.
    + done.
Qed.

End TombamentoMore.

Section TombamentoMoreExamples.
Import NotifierImpl Expected.

Lemma buildCard_widgets_witness :
  ∃ hd ws,
    TombamentoSchema.cardsV2
      (TombamentoSchema.buildCard exPayload 10 1761300000000
         (TombamentoSchema.js "2025-10-24T10:00:00.000Z"))
    = [TombamentoSchema.mkCardV2
         (TombamentoSchema.js "tombamento-1761300000000")
         (TombamentoSchema.mkCard (Some hd) [TombamentoSchema.mkSection ws])]
    ∧ length ws = 5%nat
    ∧ last ws
      = Some (TombamentoSchema.TextParagraph
                (TombamentoSchema.js "<b>Mensagem:</b> Arquivo e"
                 ++ [Truncate.ellipsis])).
Proof.
  destruct (buildCard_widgets exPayload 10 1761300000000
              (TombamentoSchema.js "2025-10-24T10:00:00.000Z"))
    as (hd & ws & Hcard & _ & Hlen & _ & Hmsg).
  exists hd, ws. split; [exact Hcard|]. split; [exact Hlen|].
  destruct (Hmsg (TombamentoSchema.js "Arquivo enviado com sucesso")
              eq_refl) as [Hlast _].
  rewrite Hlast. reflexivity.
Defined.

Lemma tombamento_filter_witness :
  TombamentoNotifier.processing exLower exTombamento exPayload 0 (up 0)
  = (NotImportant, exTombamento, [])
  ∧ (TombamentoNotifier.uploaded exLower exTombamento exPayload 0 (up 0)).1.1
    ≠ NotImportant.
Proof.
  destruct (tombamento_filter exLower exHash exCard exTombamento exPayload
              None 0 (up 0) eq_refl) as (_ & Hprocessing & Hothers).
  split.
  - apply Hprocessing. reflexivity.
  - apply (Hothers TombamentoSchema.UPLOADED). discriminate.
Defined.

Lemma tombamento_key_fields_witness :
  let first :=
    notify exLower TombamentoSchema.eventProp exTombamento exPayload
      None 0 (up 0) in
  first.1.1 = Sent
  ∧ TombamentoSchema.getIdempotencyKey exHash exPayload
    = TombamentoSchema.getIdempotencyKey exHash exPayload2
  ∧ ∃ o2,
      notify exLower TombamentoSchema.eventProp first.1.2 exPayload2
        None 500 (up 500)
      = (o2, first.1.2, [])
      ∧ dropped o2.
Proof.
  intros first. split; [reflexivity|].
  apply (tombamento_key_fields exLower exHash exCard exTombamento
           (IdempotencyCache.new (Some 1000)) exPayload exPayload2
           None 0 (up 0) Sent first.1.2 first.2 None 500 (up 500));
    try reflexivity.
  - discriminate.
  - by right.
  - simpl. lia.
Defined.

End TombamentoMoreExamples.
